(** * A shallow embedding of the coderev core (identity, store, chunker,
    adapters and linkers) and proofs of its specification claims. *)

From Stdlib Require Import Bool List Ascii String NArith ZArith QArith Lia.
From Stdlib Require Import Sorting.Permutation Sorting.Sorted QArith.Qminmax QArith.Qabs.
From Stdlib Require Import Arith Lqa.
Import ListNotations.
Open Scope string_scope.

(** ** String helpers following Rust's [&str] methods (byte level; every
    separator involved is ASCII, so byte and char positions agree). *)
Module RStr.

(** [s.split_once(c)]: split at the first occurrence of [c]. *)
Fixpoint split_once (c : ascii) (s : string) : option (string * string) :=
  match s with
  | EmptyString => None
  | String x r =>
      if Ascii.eqb x c then Some (EmptyString, r)
      else match split_once c r with
           | Some (a, b) => Some (String x a, b)
           | None => None
           end
  end.

(** [s.rsplit_once(c)]: split at the last occurrence of [c]. *)
Fixpoint rsplit_once (c : ascii) (s : string) : option (string * string) :=
  match s with
  | EmptyString => None
  | String x r =>
      match rsplit_once c r with
      | Some (a, b) => Some (String x a, b)
      | None => if Ascii.eqb x c then Some (EmptyString, r) else None
      end
  end.

(** [s.strip_prefix(p)] *)
Fixpoint strip_prefix (p s : string) : option string :=
  match p, s with
  | EmptyString, _ => Some s
  | String c p', String x s' => if Ascii.eqb c x then strip_prefix p' s' else None
  | String _ _, EmptyString => None
  end.

(** [s.strip_suffix(p)] *)
Definition strip_suffix (p s : string) : option string :=
  let n := String.length s in
  let m := String.length p in
  if Nat.leb m n then
    if String.eqb (substring (n - m) m s) p then Some (substring 0 (n - m) s) else None
  else None.

(** Whether [c] occurs in [s]. *)
Fixpoint has_char (c : ascii) (s : string) : bool :=
  match s with
  | EmptyString => false
  | String x r => Ascii.eqb x c || has_char c r
  end.

(** ASCII part of [str::to_lowercase]. *)
Definition ascii_lower (c : ascii) : ascii :=
  let n := N_of_ascii c in
  if (65 <=? n)%N && (n <=? 90)%N then ascii_of_N (n + 32) else c.

Definition byte_is (c : ascii) (n : N) : bool := N.eqb (N_of_ascii c) n.

(** [str::to_lowercase] on UTF-8 bytes, as its callers see it: every
    caller ([SymbolKind::from_str], [EdgeKind::from_str], [get_file_boost])
    only compares the result with ASCII strings ([==], [ends_with],
    [contains]).  ASCII letters are lowered; the two non-ASCII characters
    whose lower case contains an ASCII character are mapped as Rust maps
    them: U+212A KELVIN SIGN (E2 84 AA) to "k" and U+0130 (C4 B0) to "i"
    followed by U+0307 (CC 87).  Every other non-ASCII character lowers to
    non-ASCII characters only, whose bytes are all at least 0x80; it is kept
    as it is, which changes the outcome of no comparison with an ASCII
    string. *)
Fixpoint to_lowercase (s : string) : string :=
  match s with
  | EmptyString => EmptyString
  | String c r =>
      let default := String (ascii_lower c) (to_lowercase r) in
      if byte_is c 226 then
        match r with
        | String d (String e r') =>
            if byte_is d 132 && byte_is e 170 then String "k" (to_lowercase r') else default
        | _ => default
        end
      else if byte_is c 196 then
        match r with
        | String d r' =>
            if byte_is d 176
            then String "i" (String (ascii_of_N 204) (String (ascii_of_N 135) (to_lowercase r')))
            else default
        | _ => default
        end
      else default
  end.

(** [path.rsplit('/').next().unwrap_or(path)]: the text after the last '/'. *)
Definition basename (path : string) : string :=
  match rsplit_once "/" path with
  | Some (_, b) => b
  | None => path
  end.

End RStr.

(** ** Decimal rendering and parsing of [u32] ([Display] and [FromStr]). *)
Module U32.

Definition digit_char (d : N) : ascii := ascii_of_N (48 + d).

(** Decimal digits of [n], most significant first, prepended to [acc];
    [fuel] bounds the number of digits. *)
Fixpoint to_digits (fuel : nat) (n : N) (acc : string) : string :=
  match fuel with
  | O => acc
  | S f =>
      let acc' := String (digit_char (n mod 10)) acc in
      if (n <? 10)%N then acc' else to_digits f (n / 10) acc'
  end.

(** [format!("{}", n)] for [n : u32] (at most 10 digits). *)
Definition show (n : N) : string := to_digits 10 n EmptyString.

Definition digit_value (c : ascii) : option N :=
  let n := N_of_ascii c in
  if (48 <=? n)%N && (n <=? 57)%N then Some (n - 48)%N else None.

Fixpoint parse_digits (v : N) (s : string) : option N :=
  match s with
  | EmptyString => Some v
  | String c r =>
      match digit_value c with
      | Some d => parse_digits (10 * v + d)%N r
      | None => None
      end
  end.

(** [str::parse::<u32>]: optional leading '+', then at least one decimal
    digit; values of [2^32] or more overflow.  Rust checks overflow digit
    by digit; since the accumulated value only grows, checking the final
    value is equivalent. *)
Definition parse (s : string) : option N :=
  let ds := match s with
            | String c r => if Ascii.eqb c "+" && negb (String.eqb r EmptyString) then r else s
            | EmptyString => s
            end in
  match ds with
  | EmptyString => None
  | _ => match parse_digits 0 ds with
         | Some v => if (v <? 2 ^ 32)%N then Some v else None
         | None => None
         end
  end.

End U32.

(** ** Symbol kinds and URIs ([symbol.rs], [uri.rs]). *)
Module Uri.

Inductive SymbolKind := Namespace | Container | Callable | Value | Document.

Definition SymbolKind_eqb (a b : SymbolKind) : bool :=
  match a, b with
  | Namespace, Namespace | Container, Container | Callable, Callable
  | Value, Value | Document, Document => true
  | _, _ => false
  end.

Definition kind_as_str (k : SymbolKind) : string :=
  match k with
  | Namespace => "namespace"
  | Container => "container"
  | Callable => "callable"
  | Value => "value"
  | Document => "document"
  end.

Definition kind_aliases : list (list string * SymbolKind) :=
  [ (["namespace"; "ns"; "module"; "package"; "file"], Namespace);
    (["container"; "class"; "struct"; "trait"; "interface"], Container);
    (["callable"; "function"; "method"; "fn"; "def"], Callable);
    (["value"; "field"; "variable"; "var"; "const"; "let"], Value);
    (["document"; "doc"; "chunk"; "text"], Document) ].

(** [SymbolKind::from_str]: lower-case, then match the aliases. *)
Definition kind_from_str (s : string) : option SymbolKind :=
  let l := RStr.to_lowercase s in
  match find (fun p => existsb (String.eqb l) (fst p)) kind_aliases with
  | Some (_, k) => Some k
  | None => None
  end.

Record SymbolUri := mkUri {
  repo : string;
  path : string;
  kind : SymbolKind;
  name : string;
  line : N
}.

Definition SymbolUri_eqb (a b : SymbolUri) : bool :=
  String.eqb (repo a) (repo b) && String.eqb (path a) (path b)
  && SymbolKind_eqb (kind a) (kind b) && String.eqb (name a) (name b)
  && N.eqb (line a) (line b).

(** [SymbolUri::to_uri_string] *)
Definition to_uri_string (u : SymbolUri) : string :=
  "codescope://" ++ repo u ++ "/" ++ path u ++ "#" ++ kind_as_str (kind u)
  ++ ":" ++ name u ++ "@" ++ U32.show (line u).

(** [SymbolUri::parse]; [None] stands for [Err(InvalidUri(..))]. *)
Definition parse (s : string) : option SymbolUri :=
  match RStr.strip_prefix "codescope://" s with
  | None => None
  | Some uri =>
  match RStr.split_once "#" uri with
  | None => None
  | Some (repo_path, fragment) =>
  match RStr.split_once "/" repo_path with
  | None => None
  | Some (r, p) =>
  match RStr.rsplit_once "@" fragment with
  | None => None
  | Some (kind_name, line_str) =>
  match RStr.split_once ":" kind_name with
  | None => None
  | Some (kind_str, n) =>
  match kind_from_str kind_str with
  | None => None
  | Some k =>
  match U32.parse line_str with
  | None => None
  | Some l => Some (mkUri r p k n l)
  end end end end end end end.

End Uri.

(** ** Edge kinds and edges ([edge.rs]). *)
Module EdgeModel.
Import Uri.

Inductive EdgeKind := Defines | Contains | Calls | References | Inherits | Exports.

Definition EdgeKind_eqb (a b : EdgeKind) : bool :=
  match a, b with
  | Defines, Defines | Contains, Contains | Calls, Calls
  | References, References | Inherits, Inherits | Exports, Exports => true
  | _, _ => false
  end.

Definition all : list EdgeKind := [Defines; Contains; Calls; References; Inherits; Exports].

(** [EdgeKind::reverse] *)
Definition reverse (k : EdgeKind) : EdgeKind :=
  match k with
  | Defines => Defines
  | Contains => Contains
  | Calls => Calls
  | References => References
  | Inherits => Inherits
  | Exports => Exports
  end.

Definition edge_kind_as_str (k : EdgeKind) : string :=
  match k with
  | Defines => "defines"
  | Contains => "contains"
  | Calls => "calls"
  | References => "references"
  | Inherits => "inherits"
  | Exports => "exports"
  end.

Record Edge := mkEdge {
  from_uri : SymbolUri;
  to_uri : SymbolUri;
  ekind : EdgeKind;
  confidence : Q
}.

(** [f32::clamp(0.0, 1.0)] *)
Definition clamp01 (c : Q) : Q :=
  if Qle_bool c 0 then 0 else if Qle_bool 1 c then 1 else c.

(** [Edge::with_confidence] *)
Definition with_confidence (f t : SymbolUri) (k : EdgeKind) (c : Q) : Edge :=
  mkEdge f t k (clamp01 c).

(** [Edge::reversed] *)
Definition reversed (e : Edge) : Edge :=
  mkEdge (to_uri e) (from_uri e) (ekind e) (confidence e).

End EdgeModel.

(** ** Generic helpers: Rust's [filter_map] and a stable sort
    ([slice::sort_by] and SQL [ORDER BY] with ties in table order). *)
Module ListUtil.

Fixpoint filter_map {A B} (f : A -> option B) (l : list A) : list B :=
  match l with
  | [] => []
  | x :: r => match f x with Some y => y :: filter_map f r | None => filter_map f r end
  end.

(** Insert [x] after every element [y] with [le y x]. *)
Fixpoint insert_by {A} (le : A -> A -> bool) (x : A) (l : list A) : list A :=
  match l with
  | [] => [x]
  | y :: r => if le y x then y :: insert_by le x r else x :: l
  end.

(** Stable insertion sort for a total preorder [le]. *)
Definition sort_by {A} (le : A -> A -> bool) (l : list A) : list A :=
  fold_left (fun acc x => insert_by le x acc) l [].

End ListUtil.

(** ** SQLite's built-in [LIKE] ([likeFunc] and [patternCompare] in
    [func.c]): no [ESCAPE], default [case_sensitive_like = OFF].  Both
    texts are read as characters with [sqlite3Utf8Read] up to their first
    NUL; '%' matches any sequence of characters, '_' any one character,
    and two characters match when they are equal or are both ASCII and
    equal after [sqlite3Tolower]. *)
Module Like.

(** [sqlite3Utf8Trans1]: the payload bits of a lead byte [c >= 0xC0]. *)
Definition utf8_trans1 (c : N) : N :=
  if (c <? 224)%N then (c - 192)%N
  else if (c <? 240)%N then (c - 224)%N
  else if (c <? 248)%N then (c - 240)%N
  else if (c <? 252)%N then (c - 248)%N
  else if (c <? 254)%N then (c - 252)%N
  else 0%N.

(** The final check of [sqlite3Utf8Read]: overlong encodings, surrogates
    and U+FFFE, U+FFFF read as U+FFFD. *)
Definition utf8_fix (c : N) : N :=
  if (c <? 128)%N || (N.land c 4294965248 =? 55296)%N || (N.land c 4294967294 =? 65534)%N
  then 65533%N else c.

Definition is_cont (b : N) : bool := (N.land b 192 =? 128)%N.

(** Reading a character that starts with byte [b]; [k] reads the rest. *)
Definition read_start (b : N) (k : option N -> list N) : list N :=
  if (b =? 0)%N then []
  else if (b <? 192)%N then b :: k None
  else k (Some (utf8_trans1 b)).

(** The characters of a text, as [sqlite3Utf8Read] returns them one after
    the other until it returns 0; [cur] is the character being read (the
    accumulator of the [while] over continuation bytes, an [unsigned int]). *)
Fixpoint read_chars (s : string) (cur : option N) : list N :=
  match s with
  | EmptyString => match cur with Some c => [utf8_fix c] | None => [] end
  | String x r =>
      let b := N_of_ascii x in
      match cur with
      | Some c =>
          if is_cont b then read_chars r (Some ((c * 64 + N.land b 63) mod 4294967296)%N)
          else utf8_fix c :: read_start b (read_chars r)
      | None => read_start b (read_chars r)
      end
  end.

Definition chars (s : string) : list N := read_chars s None.

(** [sqlite3Tolower] on an ASCII character. *)
Definition to_lower (c : N) : N := if (65 <=? c)%N && (c <=? 90)%N then (c + 32)%N else c.

Definition char_match (c c2 : N) : bool :=
  (c =? c2)%N || ((c <? 128)%N && (c2 <? 128)%N && (to_lower c =? to_lower c2)%N).

(** [patternCompare] on the characters of the pattern and of the text
    ('%' is 37, '_' is 95). *)
Fixpoint pattern_compare (p s : list N) {struct p} : bool :=
  match p with
  | [] => match s with [] => true | _ => false end
  | c :: p' =>
      if (c =? 37)%N then
        (fix any (t : list N) : bool :=
           pattern_compare p' t || match t with [] => false | _ :: t' => any t' end) s
      else match s with
           | [] => false
           | c2 :: s' => (char_match c c2 || (c =? 95)%N) && pattern_compare p' s'
           end
  end.

(** [s LIKE p] *)
Definition like (p s : string) : bool := pattern_compare (chars p) (chars s).

(** [SQLITE_MAX_LIKE_PATTERN_LENGTH]: [likeFunc] raises "LIKE or GLOB
    pattern too complex" for a pattern of more bytes than this. *)
Definition max_like_pattern_length : N := 50000.

Definition pattern_too_long (p : string) : bool := (max_like_pattern_length <? N.of_nat (String.length p))%N.

End Like.

(** ** The SQLite store ([storage/schema.rs], [storage/sqlite.rs]).
    Every table is the list of its rows in rowid order.  The columns the
    store reads and writes are the ones [sqlite.rs] names (its statements
    also use [edges.resolution_mode], [unresolved_references.is_external],
    [callsite_embeddings] and [file_hash], which this snapshot's
    [schema.rs] does not declare; they are taken to exist).  The edge
    table keeps [UNIQUE(from_uri, to_uri, kind)] from [schema.rs]. *)
Module Store.
Import Uri EdgeModel ListUtil.

Record SymbolRow := mkSymbolRow {
  s_uri : string; s_kind : string; s_name : string; s_path : string;
  s_line_start : N; s_line_end : N; s_doc : option string;
  s_signature : option string; s_content : string
}.

Record EdgeRow := mkEdgeRow {
  e_from_uri : string; e_to_uri : string; e_kind : string; e_confidence : Q
}.

Record EmbeddingRow := mkEmbeddingRow { emb_uri : string; emb_vector : list Q }.

Record CallsiteRow := mkCallsiteRow { cs_reference_id : Z; cs_vector : list Q }.

Record UnresolvedRow := mkUnresolvedRow {
  u_id : Z; u_from_uri : string; u_name : string; u_receiver : option string;
  u_scope_id : Z; u_file_path : string; u_line : N; u_ref_kind : string;
  u_is_external : bool
}.

Record ImportRow := mkImportRow {
  i_id : Z; i_file_path : string; i_alias : option string;
  i_target_namespace : string; i_line : option N
}.

Record AmbiguousRow := mkAmbiguousRow {
  a_id : Z; a_reference_id : Z; a_candidate_uri : string; a_score : Q
}.

Record FileHashRow := mkFileHashRow { fh_path : string; fh_hash : string; fh_last_modified : Z }.

Record Store := mkStore {
  symbols : list SymbolRow;
  edges : list EdgeRow;
  embeddings : list EmbeddingRow;
  callsite_embeddings : list CallsiteRow;
  unresolved_references : list UnresolvedRow;
  imports : list ImportRow;
  ambiguous_references : list AmbiguousRow;
  file_hash : list FileHashRow;
  sqlite_sequence : list (string * Z)
}.

Definition set_symbols (st : Store) l := mkStore l (edges st) (embeddings st)
  (callsite_embeddings st) (unresolved_references st) (imports st) (ambiguous_references st) (file_hash st) (sqlite_sequence st).
Definition set_edges (st : Store) l := mkStore (symbols st) l (embeddings st)
  (callsite_embeddings st) (unresolved_references st) (imports st) (ambiguous_references st) (file_hash st) (sqlite_sequence st).
Definition set_embeddings (st : Store) l := mkStore (symbols st) (edges st) l
  (callsite_embeddings st) (unresolved_references st) (imports st) (ambiguous_references st) (file_hash st) (sqlite_sequence st).
Definition set_callsite_embeddings (st : Store) l := mkStore (symbols st) (edges st) (embeddings st)
  l (unresolved_references st) (imports st) (ambiguous_references st) (file_hash st) (sqlite_sequence st).
Definition set_unresolved (st : Store) l := mkStore (symbols st) (edges st) (embeddings st)
  (callsite_embeddings st) l (imports st) (ambiguous_references st) (file_hash st) (sqlite_sequence st).
Definition set_imports (st : Store) l := mkStore (symbols st) (edges st) (embeddings st)
  (callsite_embeddings st) (unresolved_references st) l (ambiguous_references st) (file_hash st) (sqlite_sequence st).
Definition set_ambiguous (st : Store) l := mkStore (symbols st) (edges st) (embeddings st)
  (callsite_embeddings st) (unresolved_references st) (imports st) l (file_hash st) (sqlite_sequence st).
Definition set_file_hash (st : Store) l := mkStore (symbols st) (edges st) (embeddings st)
  (callsite_embeddings st) (unresolved_references st) (imports st) (ambiguous_references st) l (sqlite_sequence st).
Definition set_sqlite_sequence (st : Store) l := mkStore (symbols st) (edges st) (embeddings st)
  (callsite_embeddings st) (unresolved_references st) (imports st) (ambiguous_references st) (file_hash st) l.

(** [AUTOINCREMENT] ([id INTEGER PRIMARY KEY AUTOINCREMENT] of
    [unresolved_references], [imports] and [ambiguous_references]): a new
    row gets one more than the larger of the largest id present and the
    largest id the table ever used, which [sqlite_sequence] keeps and which
    is then updated; [DELETE] leaves [sqlite_sequence] as it is.  SQLite
    fails with [SQLITE_FULL] once that value is [i64::MAX], after 2^63
    inserts; this is not modelled.  The ids of [edges] are never read and
    are not modelled. *)
Definition seq_get (table : string) (st : Store) : Z :=
  match find (fun p => String.eqb (fst p) table) (sqlite_sequence st) with
  | Some (_, v) => v
  | None => 0%Z
  end.

Definition next_id (table : string) (ids : list Z) (st : Store) : Z :=
  (1 + Z.max (seq_get table st) (fold_left Z.max ids 0))%Z.

Definition set_seq (table : string) (v : Z) (st : Store) : Store :=
  set_sqlite_sequence st ((table, v) :: filter (fun p => negb (String.eqb (fst p) table)) (sqlite_sequence st)).

(** [Symbol] as the Rust code holds it. *)
Record Symbol := mkSymbol {
  uri : SymbolUri; skind : SymbolKind; sname : string; spath : string;
  line_start : N; line_end : N; doc : option string; signature : option string;
  content : string
}.

(** [row_to_symbol]: fails (and the row is later dropped by
    [filter_map(|r| r.ok())]) when the URI or the kind does not parse. *)
Definition row_to_symbol (r : SymbolRow) : option Symbol :=
  match Uri.parse (s_uri r), kind_from_str (s_kind r) with
  | Some u, Some k =>
      Some (mkSymbol u k (s_name r) (s_path r) (s_line_start r) (s_line_end r)
                     (s_doc r) (s_signature r) (s_content r))
  | _, _ => None
  end.

(** [insert_symbol]: [INSERT OR REPLACE] keyed by [uri]. *)
Definition insert_symbol (s : Symbol) (st : Store) : Store :=
  let row := mkSymbolRow (to_uri_string (uri s)) (kind_as_str (skind s)) (sname s) (spath s)
               (line_start s) (line_end s) (doc s) (signature s) (content s) in
  set_symbols st (filter (fun r => negb (String.eqb (s_uri r) (s_uri row))) (symbols st) ++ [row]).

(** [find_symbols_in_file]: [WHERE path = ?1 ORDER BY line_start]. *)
Definition find_symbols_in_file (p : string) (st : Store) : list Symbol :=
  filter_map row_to_symbol
    (sort_by (fun a b => (s_line_start a <=? s_line_start b)%N)
       (filter (fun r => String.eqb (s_path r) p) (symbols st))).

(** [find_symbols_by_name]: [WHERE name = ?1]. *)
Definition find_symbols_by_name (n : string) (st : Store) : list Symbol :=
  filter_map row_to_symbol (filter (fun r => String.eqb (s_name r) n) (symbols st)).

(** [find_symbols_by_name_and_file]: [WHERE name = ?1 AND path = ?2]. *)
Definition find_symbols_by_name_and_file (n p : string) (st : Store) : list Symbol :=
  filter_map row_to_symbol
    (filter (fun r => String.eqb (s_name r) n && String.eqb (s_path r) p) (symbols st)).

(** [find_symbols_by_name_and_container_pattern]:
    [WHERE name = ?1 AND uri LIKE '%/' || ns || '%'].  A row is returned
    only when its [LIKE] evaluates to true; with a pattern too long every
    such evaluation is an error, after which rusqlite's row iterator ends
    and [filter_map(|r| r.ok())] drops the error, so nothing is returned. *)
Definition find_symbols_by_name_and_container_pattern (n ns : string) (st : Store) : list Symbol :=
  let pattern := "%/" ++ ns ++ "%" in
  if Like.pattern_too_long pattern then []
  else
    filter_map row_to_symbol
      (filter (fun r => String.eqb (s_name r) n && Like.like pattern (s_uri r)) (symbols st)).

(** [EdgeKind::from_str]: lower-case, then match the aliases. *)
Definition edge_kind_aliases : list (list string * EdgeKind) :=
  [ (["defines"; "define"], Defines); (["contains"; "contain"], Contains);
    (["calls"; "call"], Calls); (["references"; "reference"; "ref"], References);
    (["inherits"; "inherit"; "extends"], Inherits); (["exports"; "export"], Exports) ].

Definition edge_kind_from_str (s : string) : option EdgeKind :=
  let l := RStr.to_lowercase s in
  match find (fun p => existsb (String.eqb l) (fst p)) edge_kind_aliases with
  | Some (_, k) => Some k
  | None => None
  end.

(** [row_to_edge]: parses both URIs and the kind, and rebuilds the edge
    with [Edge::with_confidence], which clamps the stored confidence. *)
Definition row_to_edge (r : EdgeRow) : option Edge :=
  match Uri.parse (e_from_uri r), Uri.parse (e_to_uri r), edge_kind_from_str (e_kind r) with
  | Some f, Some t, Some k => Some (with_confidence f t k (e_confidence r))
  | _, _, _ => None
  end.

Definition same_triple (a b : EdgeRow) : bool :=
  String.eqb (e_from_uri a) (e_from_uri b) && String.eqb (e_to_uri a) (e_to_uri b)
  && String.eqb (e_kind a) (e_kind b).

Definition edge_row (e : Edge) : EdgeRow :=
  mkEdgeRow (to_uri_string (from_uri e)) (to_uri_string (to_uri e))
            (edge_kind_as_str (ekind e)) (confidence e).

(** [insert_edge]: [INSERT OR REPLACE INTO edges ...]; under
    [UNIQUE(from_uri, to_uri, kind)] the conflicting row is deleted and
    the new row is inserted. *)
Definition insert_edge (e : Edge) (st : Store) : Store :=
  let row := edge_row e in
  set_edges st (filter (fun r => negb (same_triple r row)) (edges st) ++ [row]).

(** [get_edges_from]: [WHERE from_uri = ?1]. *)
Definition get_edges_from (u : SymbolUri) (st : Store) : list Edge :=
  filter_map row_to_edge
    (filter (fun r => String.eqb (e_from_uri r) (to_uri_string u)) (edges st)).

(** [get_all_unresolved]: [SELECT ... FROM unresolved_references] (no
    [WHERE]); [row_to_unresolved] copies the columns. *)
Definition get_all_unresolved (st : Store) : list UnresolvedRow :=
  unresolved_references st.

(** [get_unresolved_in_file]: [WHERE file_path = ?1]. *)
Definition get_unresolved_in_file (p : string) (st : Store) : list UnresolvedRow :=
  filter (fun r => String.eqb (u_file_path r) p) (unresolved_references st).

(** [count_unresolved]: [WHERE is_external = 0]. *)
Definition count_unresolved (st : Store) : nat :=
  List.length (filter (fun r => negb (u_is_external r)) (unresolved_references st)).

(** [delete_unresolved] *)
Definition delete_unresolved (id : Z) (st : Store) : Store :=
  set_unresolved st (filter (fun r => negb (Z.eqb (u_id r) id)) (unresolved_references st)).

(** [mark_unresolved_as_external] *)
Definition mark_unresolved_as_external (id : Z) (st : Store) : Store :=
  set_unresolved st
    (map (fun r => if Z.eqb (u_id r) id
                   then mkUnresolvedRow (u_id r) (u_from_uri r) (u_name r) (u_receiver r)
                          (u_scope_id r) (u_file_path r) (u_line r) (u_ref_kind r) true
                   else r) (unresolved_references st)).

(** [get_imports_for_file]: [WHERE file_path = ?1]. *)
Definition get_imports_for_file (p : string) (st : Store) : list ImportRow :=
  filter (fun r => String.eqb (i_file_path r) p) (imports st).

(** [insert_ambiguous_reference]; the id is the [AUTOINCREMENT] one. *)
Definition insert_ambiguous_reference (rid : Z) (cand : string) (score : Q) (st : Store) : Store :=
  let next := next_id "ambiguous_references" (map a_id (ambiguous_references st)) st in
  set_seq "ambiguous_references" next
    (set_ambiguous st (ambiguous_references st ++ [mkAmbiguousRow next rid cand score])).

(** [insert_callsite_embedding]: [INSERT OR REPLACE] keyed by [reference_id]. *)
Definition insert_callsite_embedding (rid : Z) (v : list Q) (st : Store) : Store :=
  set_callsite_embeddings st
    (filter (fun r => negb (Z.eqb (cs_reference_id r) rid)) (callsite_embeddings st)
     ++ [mkCallsiteRow rid v]).

(** [remove_file_hash] *)
Definition remove_file_hash (p : string) (st : Store) : Store :=
  set_file_hash st (filter (fun r => negb (String.eqb (fh_path r) p)) (file_hash st)).

(** The three statements of the first loop of [delete_file_data], for one
    symbol of the file. *)
Definition delete_symbol_rows (st : Store) (s : Symbol) : Store :=
  let u := to_uri_string (uri s) in
  let st := set_edges st (filter (fun e => negb (String.eqb (e_from_uri e) u)) (edges st)) in
  let st := set_edges st (filter (fun e => negb (String.eqb (e_to_uri e) u)) (edges st)) in
  set_embeddings st (filter (fun e => negb (String.eqb (emb_uri e) u)) (embeddings st)).

(** The two statements of the second loop, for one reference of the file. *)
Definition delete_reference_rows (st : Store) (r : UnresolvedRow) : Store :=
  let st := set_ambiguous st
              (filter (fun a => negb (Z.eqb (a_reference_id a) (u_id r))) (ambiguous_references st)) in
  set_callsite_embeddings st
    (filter (fun c => negb (Z.eqb (cs_reference_id c) (u_id r))) (callsite_embeddings st)).

(** [delete_file_data], statement by statement (the success path). *)
Definition delete_file_data (p : string) (st : Store) : Store :=
  let syms := find_symbols_in_file p st in
  let st1 := fold_left delete_symbol_rows syms st in
  let st2 := set_symbols st1 (filter (fun r => negb (String.eqb (s_path r) p)) (symbols st1)) in
  let refs := get_unresolved_in_file p st2 in
  let st3 := fold_left delete_reference_rows refs st2 in
  let st4 := set_unresolved st3
               (filter (fun r => negb (String.eqb (u_file_path r) p)) (unresolved_references st3)) in
  let st5 := set_imports st4 (filter (fun r => negb (String.eqb (i_file_path r) p)) (imports st4)) in
  remove_file_hash p st5.

(** [ORDER BY path ASC, line_start ASC] (SQLite's BINARY collation is
    byte-wise, as [String.compare]). *)
Definition path_line_le (a b : SymbolRow) : bool :=
  match String.compare (s_path a) (s_path b) with
  | Lt => true
  | Gt => false
  | Eq => (s_line_start a <=? s_line_start b)%N
  end.

(** [get_recent_symbols]: rusqlite binds the [usize] limit as an [i64]
    and fails ([ToSqlConversionFailure]) above [i64::MAX]; otherwise the
    [LIMIT] applies to the rows, and rows that fail [row_to_symbol] are
    dropped afterwards. *)
Definition get_recent_symbols (limit : nat) (st : Store) : option (list Symbol) :=
  if (2 ^ 63 <=? N.of_nat limit)%N then None
  else Some (filter_map row_to_symbol (firstn limit (sort_by path_line_le (symbols st)))).

(** ASCII whitespace ([char::is_whitespace] on one-byte characters). *)
Definition is_ascii_whitespace (c : ascii) : bool :=
  let n := N_of_ascii c in ((9 <=? n)%N && (n <=? 13)%N) || (n =? 32)%N.

(** [char::is_whitespace] on the UTF-8 bytes of one character: the ASCII
    ones (U+0009 to U+000D, U+0020) and the White_Space characters U+0085,
    U+00A0, U+1680, U+2000 to U+200A, U+2028, U+2029, U+202F, U+205F and
    U+3000. *)
Definition is_whitespace (ch : string) : bool :=
  match ch with
  | String a EmptyString => is_ascii_whitespace a
  | String a (String b EmptyString) =>
      RStr.byte_is a 194 && (RStr.byte_is b 133 || RStr.byte_is b 160)
  | String a (String b (String c EmptyString)) =>
      (RStr.byte_is a 225 && RStr.byte_is b 154 && RStr.byte_is c 128)
      || (RStr.byte_is a 226 && RStr.byte_is b 128
          && (((128 <=? N_of_ascii c)%N && (N_of_ascii c <=? 138)%N)
              || RStr.byte_is c 168 || RStr.byte_is c 169 || RStr.byte_is c 175))
      || (RStr.byte_is a 226 && RStr.byte_is b 129 && RStr.byte_is c 159)
      || (RStr.byte_is a 227 && RStr.byte_is b 128 && RStr.byte_is c 128)
  | _ => false
  end.

(** A UTF-8 continuation byte (0x80 to 0xBF). *)
Definition is_continuation (c : ascii) : bool :=
  (128 <=? N_of_ascii c)%N && (N_of_ascii c <=? 191)%N.

Fixpoint utf8_go (s cur : string) : list string :=
  match s with
  | EmptyString => match cur with EmptyString => [] | _ => [cur] end
  | String c r =>
      if is_continuation c then utf8_go r (cur ++ String c EmptyString)
      else match cur with
           | EmptyString => utf8_go r (String c EmptyString)
           | _ => cur :: utf8_go r (String c EmptyString)
           end
  end.

(** [s.chars()], each character as its bytes: in UTF-8 a character starts
    at every byte that is not a continuation byte. *)
Definition utf8_chars (s : string) : list string := utf8_go s EmptyString.

Fixpoint split_ws_go (cs : list string) (cur : string) : list string :=
  match cs with
  | [] => match cur with EmptyString => [] | _ => [cur] end
  | ch :: r =>
      if is_whitespace ch then
        match cur with EmptyString => split_ws_go r EmptyString | _ => cur :: split_ws_go r EmptyString end
      else split_ws_go r (cur ++ ch)
  end.

(** [str::split_whitespace]: [split(char::is_whitespace)] without the
    empty pieces. *)
Definition split_whitespace (s : string) : list string := split_ws_go (utf8_chars s) EmptyString.

Fixpoint contains (sub s : string) : bool :=
  String.prefix sub s || match s with EmptyString => false | String _ r => contains sub r end.

Definition ends_with (suf s : string) : bool :=
  match RStr.strip_suffix suf s with Some _ => true | None => false end.

(** [get_file_boost] (the [f32] constants as exact rationals). *)
Definition get_file_boost (path : string) : Q :=
  let pl := RStr.to_lowercase path in
  if existsb (fun e => ends_with e pl) [".rs"; ".py"; ".js"; ".ts"; ".tsx"; ".jsx"; ".go"; ".c"; ".cpp"; ".h"]
  then 12 # 10
  else if existsb (fun e => ends_with e pl) [".md"; ".txt"] || contains "readme" pl then 9 # 10
  else if existsb (fun e => ends_with e pl) [".json"; ".yaml"; ".yml"; ".toml"] then 7 # 10
  else if existsb (fun e => ends_with e pl) [".svg"; ".png"; ".lock"; ".sum"]
          || contains "node_modules" pl || contains "target/" pl then 5 # 10
  else 1.

(** [limit as i64]: the [usize] (64 bits) read as two's complement. *)
Definition limit_as_i64 (limit : nat) : Z :=
  let z := (Z.of_nat limit mod 2 ^ 64)%Z in
  if (z <? 2 ^ 63)%Z then z else (z - 2 ^ 64)%Z.

(** SQLite's [LIMIT n]: a negative [n] sets no bound. *)
Definition sql_limit {A} (n : Z) (l : list A) : list A :=
  if (n <? 0)%Z then l else firstn (Z.to_nat n) l.

(** [SQLITE_MAX_EXPR_DEPTH] and [SQLITE_MAX_LENGTH], SQLite's default
    limits on the height of an expression tree and the bytes of a bound
    text. *)
Definition max_expr_depth : nat := 1000.

Definition max_length : N := 1000000000.

(** The height SQLite gives the [WHERE] tree of [search_content]: each
    [(content LIKE ?i OR name LIKE ?i OR doc LIKE ?i)] has height 4 (a
    [LIKE] is a function node over two leaves, then two [OR] nodes), the
    [AND] chain over [n] of them [n + 3], and [AND kind = ?] one more. *)
Definition where_height (n : nat) (k : option SymbolKind) : nat :=
  n + 3 + match k with Some _ => 1 | None => 0 end.

(** [search_content].  With no word it is [get_recent_symbols].
    Otherwise, in the order the code meets them:
    - [prepare] fails ("Expression tree is too large") when the [WHERE]
      tree is higher than [max_expr_depth];
    - binding a pattern of more than [max_length] bytes fails
      ([SQLITE_TOOBIG]);
    - a row is returned only when every word's [LIKE] group is true; with
      a pattern longer than [Like.max_like_pattern_length] every row that
      reaches its [LIKE] raises an error, after which rusqlite's row
      iterator ends and [filter_map(|r| r.ok())] drops the error: the result
      is empty;
    - otherwise the matching rows are taken in table order (no [ORDER BY];
      a scan in rowid order, or with a kind one of [idx_symbols_kind], whose
      entries of one kind are in rowid order), cut by [LIMIT (limit as
      i64)], the rows that fail [row_to_symbol] are dropped, and the rest is
      sorted (stably) by descending file boost.
    A [NULL] doc makes its [LIKE] [NULL], which is not true. *)
Definition search_content (query : string) (k : option SymbolKind) (limit : nat) (st : Store)
  : option (list Symbol) :=
  let words := map (fun w => "%" ++ w ++ "%") (split_whitespace query) in
  match words with
  | [] => get_recent_symbols limit st
  | _ =>
      if Nat.ltb max_expr_depth (where_height (List.length words) k) then None
      else if existsb (fun w => (max_length <? N.of_nat (String.length w))%N) words then None
      else if existsb Like.pattern_too_long words then Some []
      else
        let row_ok r :=
          forallb (fun w => Like.like w (s_content r) || Like.like w (s_name r)
                            || match s_doc r with Some d => Like.like w d | None => false end) words
          && match k with Some k => String.eqb (s_kind r) (kind_as_str k) | None => true end in
        let syms := filter_map row_to_symbol (sql_limit (limit_as_i64 limit) (filter row_ok (symbols st))) in
        Some (sort_by (fun a b => Qle_bool (get_file_boost (spath b)) (get_file_boost (spath a))) syms)
  end.

End Store.

(* ================================================================== *)
(** * [linker/global_linker.rs]: Stage A resolution *)
Module GlobalLinker.
Import Uri EdgeModel ListUtil Store.

(** [HashSet::insert] on the candidate set (a list without duplicates;
    the set's iteration order is not modelled, the list keeps insertion
    order). *)
Definition set_insert (u : SymbolUri) (c : list SymbolUri) : list SymbolUri :=
  if existsb (SymbolUri_eqb u) c then c else c ++ [u].

(** The [matched_uri] / [candidates] pair the loop body threads. *)
Definition Acc : Type := (option SymbolUri * list SymbolUri)%type.

(** The pattern every step repeats: one match sets [matched_uri], several
    go into [candidates], none changes nothing. *)
Definition absorb (matches : list Symbol) (acc : Acc) : Acc :=
  let '(m, c) := acc in
  match matches with
  | [] => (m, c)
  | [s] => (Some (uri s), c)
  | _ => (m, fold_left (fun c s => set_insert (uri s) c) matches c)
  end.

Definition pending (acc : Acc) : bool :=
  match acc with
  | (None, []) => true
  | _ => false
  end.

(** Step 1: [find_symbols_by_name_and_file(name, file_path)]. *)
Definition step1 (r : UnresolvedRow) (st : Store) : Acc :=
  absorb (find_symbols_by_name_and_file (u_name r) (u_file_path r) st) (None, []).

(** [target_namespace.split('.').last().unwrap_or(target_namespace)] *)
Definition namespace_leaf (ns : string) : string :=
  match RStr.rsplit_once "." ns with
  | Some (_, b) => b
  | None => ns
  end.

(** [matches_import] of one import row. *)
Definition matches_import (r : UnresolvedRow) (i : ImportRow) : bool :=
  match u_receiver r with
  | Some recv =>
      match i_alias i with
      | Some alias => String.eqb alias recv
      | None => String.eqb (namespace_leaf (i_target_namespace i)) recv
      end
  | None =>
      match i_alias i with
      | Some alias => String.eqb alias (u_name r)
      | None => false
      end
  end.

(** Step 2: every import of the file is visited (no early exit). *)
Definition step2 (r : UnresolvedRow) (st : Store) (acc : Acc) : Acc :=
  if pending acc then
    fold_left (fun acc i =>
        if matches_import r i
        then absorb (find_symbols_by_name_and_container_pattern (u_name r) (i_target_namespace i) st) acc
        else acc)
      (get_imports_for_file (u_file_path r) st) acc
  else acc.

(** Step 3: [find_symbols_by_name(name)]. *)
Definition step3 (r : UnresolvedRow) (st : Store) (acc : Acc) : Acc :=
  if pending acc then absorb (find_symbols_by_name (u_name r) st) acc else acc.

Definition after_step2 (r : UnresolvedRow) (st : Store) : Acc := step2 r st (step1 r st).

Inductive Decision := Bind (u : SymbolUri) | Ambiguous (c : list SymbolUri) | External.

(** The final decision. *)
Definition decide_ref (r : UnresolvedRow) (st : Store) : Decision :=
  match step3 r st (after_step2 r st) with
  | (Some u, _) => Bind u
  | (None, []) => External
  | (None, c) => Ambiguous c
  end.

(** The loop body for one reference (the statistics are not modelled). *)
Definition link_one (st : Store) (r : UnresolvedRow) : Store :=
  match decide_ref r st with
  | Bind u =>
      match Uri.parse (u_from_uri r) with
      | Some from =>
          let k := if String.eqb (u_ref_kind r) "inherits" then Inherits else Calls in
          delete_unresolved (u_id r) (insert_edge (with_confidence from u k 1) st)
      | None => st
      end
  | Ambiguous c =>
      fold_left (fun st u => insert_ambiguous_reference (u_id r) (to_uri_string u) 0 st) c st
  | External => mark_unresolved_as_external (u_id r) st
  end.

(** [GlobalLinker::run] *)
Definition run (st : Store) : Store := fold_left link_one (get_all_unresolved st) st.

(** Step 3 as the spec words it: with a receiver, the symbols named
    [ref.name] that have an incoming [contains] edge from a symbol named
    [receiver]. *)
Definition spec_step3_candidates (r : UnresolvedRow) (st : Store) : list Symbol :=
  let named := find_symbols_by_name (u_name r) st in
  match u_receiver r with
  | None => named
  | Some recv =>
      filter (fun s =>
          existsb (fun e =>
              String.eqb (e_kind e) "contains"
              && String.eqb (e_to_uri e) (to_uri_string (uri s))
              && existsb (fun o => String.eqb (s_uri o) (e_from_uri e) && String.eqb (s_name o) recv)
                   (symbols st))
            (edges st))
        named
  end.

End GlobalLinker.

(** * [linker/semantic_linker.rs]: Stage B resolution *)
Module SemanticLinker.
Import Uri EdgeModel ListUtil Store.

(** Scores are rationals: f32 rounding is not modelled.  [sqrt] is the
    square root rounded down to a multiple of [1 / (den * 2^64)], where
    [den] is the denominator of [q]: within [2^-64] of the real root, far
    below an [f32] ulp, and exact on the squares of rationals. *)
Definition Qsqrt (q : Q) : Q :=
  Qred (Z.sqrt (Qnum q * Zpos (Qden q) * 2 ^ 128) # (Qden q * 2 ^ 64)).

(** [iter().sum::<f32>()] *)
Definition sum_q (l : list Q) : Q := fold_left Qplus l 0.

(** [SemanticLinker::cosine_similarity] *)
Definition cosine_similarity (a b : list Q) : Q :=
  if negb (Nat.eqb (List.length a) (List.length b)) || Nat.eqb (List.length a) 0 then 0
  else
    let dot_product := sum_q (map (fun p => fst p * snd p) (combine a b)) in
    let norm_a := Qsqrt (sum_q (map (fun x => x * x) a)) in
    let norm_b := Qsqrt (sum_q (map (fun x => x * x) b)) in
    if Qeq_bool norm_a 0 || Qeq_bool norm_b 0 then 0
    else dot_product / (norm_a * norm_b).

(** [SemanticLinker::new]: [threshold: 0.6]. *)
Definition default_threshold : Q := 6 # 10.

(** Phase 1: [get_all_embeddings], keeping the rows whose URI parses. *)
Definition cached_symbols (st : Store) : list (SymbolUri * list Q) :=
  filter_map (fun m => match Uri.parse (emb_uri m) with
                       | Some u => Some (u, emb_vector m)
                       | None => None
                       end) (embeddings st).

(** Every cached symbol with its score against the call-site vector. *)
Definition scored (cached : list (SymbolUri * list Q)) (vector : list Q) : list (SymbolUri * Q) :=
  map (fun p => (fst p, cosine_similarity vector (snd p))) cached.

(** [b.1.partial_cmp(&a.1)]: descending by score. *)
Definition score_desc (a b : SymbolUri * Q) : bool := Qle_bool (snd b) (snd a).

(** [matches] (score [>= threshold]), sorted, [take(5)]. *)
Definition top_matches (thr : Q) (cached : list (SymbolUri * list Q)) (vector : list Q)
  : list (SymbolUri * Q) :=
  firstn 5 (sort_by score_desc (filter (fun m => Qle_bool thr (snd m)) (scored cached vector))).

(** One iteration of the [take(5)] loop; [None] is the [?] on
    [SymbolUri::parse(&ref_item.from_uri)]. *)
Definition write_match (r : UnresolvedRow) (acc : option (Store * bool)) (m : SymbolUri * Q)
  : option (Store * bool) :=
  match acc with
  | None => None
  | Some (st, matched) =>
      match Uri.parse (u_from_uri r) with
      | None => None
      | Some from =>
          let edge := with_confidence from (fst m) Calls (snd m) in
          let existing := find (fun e => SymbolUri_eqb (to_uri e) (to_uri edge)
                                         && EdgeKind_eqb (ekind e) (ekind edge))
                               (get_edges_from (from_uri edge) st) in
          match existing with
          | Some ex =>
              if Qle_bool (confidence edge) (confidence ex) then Some (st, matched)
              else Some (insert_edge edge st, true)
          | None => Some (insert_edge edge st, true)
          end
      end
  end.

(** The body of the loop over the embedded batch, for one reference and
    its call-site vector. *)
Definition process_ref (thr : Q) (cached : list (SymbolUri * list Q)) (r : UnresolvedRow)
  (vector : list Q) (st : Store) : option Store :=
  let st := insert_callsite_embedding (u_id r) vector st in
  match fold_left (write_match r) (top_matches thr cached vector) (Some (st, false)) with
  | None => None
  | Some (st, true) => Some (delete_unresolved (u_id r) st)
  | Some (st, false) => Some (mark_unresolved_as_external (u_id r) st)
  end.

(** [SemanticLinker::run]: [embed] stands for [embed_call_sites] (the
    model, its context read from disk); batching and transactions are not
    modelled, an error ends the run. *)
Definition run (thr : Q) (embed : UnresolvedRow -> list Q) (st : Store) : option Store :=
  let targets := filter (fun r => negb (u_is_external r)) (get_all_unresolved st) in
  match targets with
  | [] => Some st
  | _ =>
      let cached := cached_symbols st in
      fold_left (fun acc r => match acc with
                              | None => None
                              | Some st => process_ref thr cached r (embed r) st
                              end) targets (Some st)
  end.

(** The edge already stored for [(from, u, calls)], as the loop looks it up. *)
Definition existing_edge (from u : SymbolUri) (st : Store) : option Edge :=
  find (fun e => SymbolUri_eqb (to_uri e) u && EdgeKind_eqb (ekind e) Calls) (get_edges_from from st).

(** Spec: "skip the insert when a same-triple edge already exists with a
    confidence at least the new one". *)
Definition covered (from : SymbolUri) (m : SymbolUri * Q) (st : Store) : Prop :=
  exists ex, existing_edge from (fst m) st = Some ex /\ clamp01 (snd m) <= confidence ex.

(** Spec: the top matches are written in order as [calls] edges of
    confidence [clamp01 score], skipping the covered ones; [ins] lists the
    edges inserted. *)
Inductive semantic_writes (from : SymbolUri) : Store -> list (SymbolUri * Q) -> Store -> list Edge -> Prop :=
| sw_nil st : semantic_writes from st [] st []
| sw_skip st m top st' ins :
    covered from m st -> semantic_writes from st top st' ins ->
    semantic_writes from st (m :: top) st' ins
| sw_insert st m top st' ins :
    ~ covered from m st ->
    semantic_writes from (insert_edge (mkEdge from (fst m) Calls (clamp01 (snd m))) st) top st' ins ->
    semantic_writes from st (m :: top) st' (mkEdge from (fst m) Calls (clamp01 (snd m)) :: ins).

End SemanticLinker.

(** * [adapter/chunker.rs]: the document chunker *)
Module Chunker.
#[local] Open Scope nat_scope.

(** Contents are byte strings: a Rocq [ascii] is one byte, [String.length]
    is [str::len]. *)

Definition DEFAULT_CHUNK_SIZE : nat := 1000.
Definition DEFAULT_OVERLAP : nat := 100.
Definition MIN_CHUNK_SIZE : nat := 100.

Record DocumentChunker := mkChunker { chunk_size : nat; overlap : nat }.

(** [DocumentChunker::new] *)
Definition new : DocumentChunker := mkChunker DEFAULT_CHUNK_SIZE DEFAULT_OVERLAP.

(** [DocumentChunker::with_settings] *)
Definition with_settings (cs ov : nat) : DocumentChunker :=
  mkChunker (Nat.max cs MIN_CHUNK_SIZE) (Nat.min ov (cs / 2)).

(** [Chunk]; its line numbers are [u32]. *)
Record Chunk := mkChunk { ccontent : string; start_line : N; end_line : N }.

(** [as u32], [saturating_add] and the wrapping [+]/[-] of release builds. *)
Definition u32 (n : N) : N := N.modulo n (2 ^ 32)%N.
Definition saturating_add (a b : N) : N := N.min (a + b)%N (2 ^ 32 - 1)%N.
Definition wrapping_sub (a b : N) : N := u32 (a + 2 ^ 32 - u32 b)%N.

(** [str::lines]: split after each '\n', drop the '\n' and then one '\r'
    before it; no empty last line after a final '\n'. *)
Fixpoint lines_go (s cur : string) : list string :=
  match s with
  | EmptyString => if String.eqb cur EmptyString then [] else [cur]
  | String c r =>
      if Ascii.eqb c "010"%char then
        let l := match RStr.strip_suffix (String "013"%char EmptyString) cur with
                 | Some l => l
                 | None => cur
                 end in
        l :: lines_go r EmptyString
      else lines_go r (cur ++ String c EmptyString)
  end.

Definition lines (s : string) : list string := lines_go s EmptyString.

(** [str::is_char_boundary]: 0, the length, or an index of a byte that is
    not a UTF-8 continuation byte ([0x80..0xBF]). *)
Definition is_char_boundary (s : string) (i : nat) : bool :=
  match i with
  | O => true
  | _ =>
      match get i s with
      | Some c => let n := N_of_ascii c in negb ((128 <=? n)%N && (n <=? 191)%N)
      | None => Nat.eqb i (String.length s)
      end
  end.

(** [while !s.is_char_boundary(i) && i > 0 { i -= 1 }] *)
Fixpoint align_down (s : string) (i : nat) : nat :=
  match i with
  | O => O
  | S j => if is_char_boundary s i then i else align_down s j
  end.

(** [while !s.is_char_boundary(i) && i < s.len() { i += 1 }] *)
Fixpoint align_up_go (s : string) (i fuel : nat) : nat :=
  match fuel with
  | O => i
  | S f => if is_char_boundary s i || Nat.leb (String.length s) i then i else align_up_go s (S i) f
  end.

Definition align_up (s : string) (i : nat) : nat := align_up_go s i (String.length s - i).

(** [str::rfind] of a pattern: the last index where it occurs. *)
Fixpoint rfind_go (pat s : string) (i : nat) (last : option nat) : option nat :=
  let last := if String.prefix pat s then Some i else last in
  match s with
  | EmptyString => last
  | String _ r => rfind_go pat r (S i) last
  end.

Definition rfind (pat s : string) : option nat :=
  if String.eqb pat EmptyString then Some (String.length s)
  else rfind_go pat s 0 None.

Definition nl : string := String "010"%char EmptyString.

(** [DocumentChunker::find_break_point] (string slices as [substring];
    the indices are char boundaries, so the slices do not panic). *)
Definition find_break_point (c : DocumentChunker) (content : string) : nat :=
  let target_len := chunk_size c in
  let start_scan := align_down content (target_len - 500) in
  let end_scan := align_up content (Nat.min (target_len + 500) (String.length content)) in
  if Nat.leb (String.length content) start_scan then String.length content
  else
    let search_area := substring start_scan (end_scan - start_scan) content in
    match rfind (nl ++ nl) search_area with
    | Some pos => start_scan + pos + 2
    | None =>
        match rfind nl search_area with
        | Some pos => start_scan + pos + 1
        | None =>
            match rfind " " search_area with
            | Some pos => start_scan + pos + 1
            | None => align_down content (Nat.min target_len (String.length content))
            end
        end
    end.

(** The variables of the loop in [split_into_chunks]. *)
Record LoopState := mkLoop {
  chunks : list Chunk; current_chunk : string; chunk_start_line : N; current_line : N
}.

(** One iteration of [for (idx, line) in lines.iter().enumerate()]. *)
Definition chunk_step (c : DocumentChunker) (idx : nat) (line : string) (st : LoopState) : LoopState :=
  let current_line := u32 (N.of_nat (idx + 1)) in
  let cur := (if String.eqb (current_chunk st) EmptyString then current_chunk st
              else current_chunk st ++ nl) ++ line in
  let start := chunk_start_line st in
  if Nat.leb (chunk_size c) (String.length cur) then
    let break_at := find_break_point c cur in
    if Nat.ltb break_at (String.length cur) && Nat.ltb MIN_CHUNK_SIZE break_at then
      let chunk_content := substring 0 break_at cur in
      let chunk_lines := u32 (N.of_nat (List.length (lines chunk_content))) in
      let chunks := app (chunks st) [mkChunk chunk_content start (wrapping_sub (u32 (start + chunk_lines)%N) 1)] in
      let raw_overlap_start := if Nat.ltb (overlap c) break_at then break_at - overlap c else 0 in
      let overlap_start := align_down cur raw_overlap_start in
      let cur := substring overlap_start (String.length cur - overlap_start) cur in
      let start := saturating_add (current_line - u32 (N.of_nat (List.length (lines cur))))%N 1 in
      mkLoop chunks cur start current_line
    else
      mkLoop (app (chunks st) [mkChunk cur start current_line]) EmptyString (u32 (current_line + 1)%N) current_line
  else mkLoop (chunks st) cur start current_line.

Fixpoint chunk_loop (c : DocumentChunker) (idx : nat) (ls : list string) (st : LoopState) : LoopState :=
  match ls with
  | [] => st
  | l :: r => chunk_loop c (S idx) r (chunk_step c idx l st)
  end.

(** [DocumentChunker::split_into_chunks] *)
Definition split_into_chunks (c : DocumentChunker) (content : string) : list Chunk :=
  let ls := lines content in
  match ls with
  | [] => []
  | _ =>
      if Nat.leb (String.length content) (chunk_size c) then
        [mkChunk content 1 (u32 (N.of_nat (List.length ls)))]
      else
        let st := chunk_loop c 0 ls (mkLoop [] EmptyString 1 0) in
        if negb (String.eqb (current_chunk st) EmptyString)
           && Nat.leb MIN_CHUNK_SIZE (String.length (current_chunk st))
        then app (chunks st) [mkChunk (current_chunk st) (chunk_start_line st) (current_line st)]
        else chunks st
  end.

End Chunker.

(** * [adapter/query_adapter.rs]: the symbols of [QueryAdapter::parse_file] *)
Module QueryAdapter.
Import Uri Store.

(** A captured tree-sitter node: its text ([utf8_text], or "" when it is
    not UTF-8), its start and end rows, and what [extract_docstring] finds
    in it. The parse tree and the query matches are inputs. *)
Record Node := mkNode { text : string; start_row : N; end_row : N; docstring : option string }.

(** The [captures] map of one match; [HashMap::insert] keeps the last
    node of each capture name. *)
Definition Captures : Type := list (string * Node).

Definition cap_get (k : string) (caps : Captures) : option Node :=
  fold_left (fun acc p => if String.eqb (fst p) k then Some (snd p) else acc) caps None.

(** [row as u32 + 1] (wrapping). *)
Definition row_line (row : N) : N := Chunker.u32 (Chunker.u32 row + 1).

(** The signature [format!("{}{}", params, return_type)]. *)
Definition signature_of (caps : Captures) (params_key ret_key : string) : string :=
  let params := match cap_get params_key caps with Some n => text n | None => "()" end in
  let return_type := match cap_get ret_key caps with Some n => " -> " ++ text n | None => "" end in
  params ++ return_type.

(** A callable symbol from the captures [<pre>.name], [<pre>.def], ...;
    [body] is the docstring capture ([callable.body]; none for methods). *)
Definition callable_symbol (repo path : string) (caps : Captures) (pre : string) (body : option string)
  : list Symbol :=
  match cap_get (pre ++ ".name") caps with
  | None => []
  | Some name_node =>
      let name := text name_node in
      let def_node := match cap_get (pre ++ ".def") caps with Some n => n | None => name_node end in
      let start_line := row_line (start_row def_node) in
      let end_line := row_line (end_row def_node) in
      let doc := match body with
                 | Some b => match cap_get b caps with Some n => docstring n | None => None end
                 | None => None
                 end in
      [mkSymbol (mkUri repo path Callable name start_line) Callable name path start_line end_line
                doc (Some (signature_of caps (pre ++ ".params") (pre ++ ".return_type"))) (text def_node)]
  end.

Definition container_symbol (repo path : string) (caps : Captures) : list Symbol :=
  match cap_get "container.name" caps with
  | None => []
  | Some name_node =>
      let name := text name_node in
      let def_node := match cap_get "container.def" caps with Some n => n | None => name_node end in
      let start_line := row_line (start_row def_node) in
      let end_line := row_line (end_row def_node) in
      let doc := match cap_get "container.body" caps with Some n => docstring n | None => None end in
      [mkSymbol (mkUri repo path Container name start_line) Container name path start_line end_line
                doc None (text def_node)]
  end.

(** The symbols one match adds, in the order of the source (the edges,
    references and imports are not modelled). *)
Definition match_symbols (repo path : string) (caps : Captures) : list Symbol :=
  callable_symbol repo path caps "callable" (Some "callable.body")
  ++ callable_symbol repo path caps "method" None
  ++ container_symbol repo path caps.

(** [file_name.strip_suffix(".py").unwrap_or(file_name)] *)
Definition module_name (path : string) : string :=
  let file_name := RStr.basename path in
  match RStr.strip_suffix ".py" file_name with
  | Some m => m
  | None => file_name
  end.

Definition namespace_symbol (repo path : string) (root_end_row : N) : Symbol :=
  mkSymbol (mkUri repo path Namespace (module_name path) 1) Namespace (module_name path) path
           1 (row_line root_end_row) None None "".

(** The [result.symbols] of [QueryAdapter::parse_file], given the end row
    of the root node and the query matches. *)
Definition parse_file_symbols (repo path : string) (root_end_row : N) (matches : list Captures)
  : list Symbol :=
  namespace_symbol repo path root_end_row :: flat_map (match_symbols repo path) matches.

(** [Path::file_stem] as the spec says it: the basename without its last
    extension (a leading dot does not start one). *)
Definition file_stem (path : string) : string :=
  let b := RStr.basename path in
  match RStr.rsplit_once "." b with
  | Some (stem, _) => if String.eqb stem EmptyString then b else stem
  | None => b
  end.

End QueryAdapter.

(* ================================================================== *)
(** * More of [storage/sqlite.rs]: lookups, embeddings, file hashes *)
Module StoreOps.
Import Uri EdgeModel ListUtil Store.

(** [get_symbol]: [query_row(.. WHERE uri = ?1 ..).optional()].  The
    outer [None] is the [Err] of a row that fails [row_to_symbol];
    [Some None] is [Ok(None)], no row with that URI. *)
Definition get_symbol (u : SymbolUri) (st : Store) : option (option Symbol) :=
  match find (fun r => String.eqb (s_uri r) (to_uri_string u)) (symbols st) with
  | None => Some None
  | Some r => match row_to_symbol r with Some s => Some (Some s) | None => None end
  end.

(** [find_symbols_by_kind]: [WHERE kind = ?1]. *)
Definition find_symbols_by_kind (k : SymbolKind) (st : Store) : list Symbol :=
  filter_map row_to_symbol (filter (fun r => String.eqb (s_kind r) (kind_as_str k)) (symbols st)).

(** [get_edges_to]: [WHERE to_uri = ?1]. *)
Definition get_edges_to (u : SymbolUri) (st : Store) : list Edge :=
  filter_map row_to_edge (filter (fun r => String.eqb (e_to_uri r) (to_uri_string u)) (edges st)).

(** [get_edges_by_kind]: [WHERE kind = ?1]. *)
Definition get_edges_by_kind (k : EdgeKind) (st : Store) : list Edge :=
  filter_map row_to_edge (filter (fun r => String.eqb (e_kind r) (edge_kind_as_str k)) (edges st)).

(** [insert_embedding]: [INSERT OR REPLACE] keyed by [uri].  The table
    holds the [f32] values; their blob encoding is [Blob.encode]. *)
Definition insert_embedding (u : SymbolUri) (v : list Q) (st : Store) : Store :=
  set_embeddings st
    (filter (fun r => negb (String.eqb (emb_uri r) (to_uri_string u))) (embeddings st)
     ++ [mkEmbeddingRow (to_uri_string u) v]).

(** [get_embedding]: [query_row(.. WHERE uri = ?1).optional()]. *)
Definition get_embedding (u : SymbolUri) (st : Store) : option (list Q) :=
  match find (fun r => String.eqb (emb_uri r) (to_uri_string u)) (embeddings st) with
  | Some r => Some (emb_vector r)
  | None => None
  end.

(** [get_file_hash]: [SELECT hash FROM file_hash WHERE path = ?1]. *)
Definition get_file_hash (p : string) (st : Store) : option string :=
  match find (fun r => String.eqb (fh_path r) p) (file_hash st) with
  | Some r => Some (fh_hash r)
  | None => None
  end.

(** [update_file_hash]: [INSERT OR REPLACE] keyed by [path]; [now] is
    the current time in seconds. *)
Definition update_file_hash (p h : string) (now : Z) (st : Store) : Store :=
  set_file_hash st
    (filter (fun r => negb (String.eqb (fh_path r) p)) (file_hash st) ++ [mkFileHashRow p h now]).

(** [get_all_indexed_files]: [SELECT path FROM file_hash]. *)
Definition get_all_indexed_files (st : Store) : list string := map fh_path (file_hash st).

(** [PersistedUnresolvedReference::new] (the id is set by the database). *)
Definition new_unresolved (from_uri name : string) (receiver : option string) (scope_id : Z)
  (file_path : string) (line : N) (ref_kind : string) : UnresolvedRow :=
  mkUnresolvedRow 0 from_uri name receiver scope_id file_path line ref_kind false.

(** [insert_unresolved]; the id is the [AUTOINCREMENT] one. *)
Definition insert_unresolved (u : UnresolvedRow) (st : Store) : Store :=
  let next := next_id "unresolved_references" (map u_id (unresolved_references st)) st in
  set_seq "unresolved_references" next
    (set_unresolved st (unresolved_references st
       ++ [mkUnresolvedRow next (u_from_uri u) (u_name u) (u_receiver u) (u_scope_id u)
             (u_file_path u) (u_line u) (u_ref_kind u) (u_is_external u)])).

(** [insert_import]; the id is the [AUTOINCREMENT] one. *)
Definition insert_import (file_path : string) (alias : option string) (target_namespace : string)
  (line : option N) (st : Store) : Store :=
  let next := next_id "imports" (map i_id (imports st)) st in
  set_seq "imports" next (set_imports st (imports st ++ [mkImportRow next file_path alias target_namespace line])).

(** [SqliteStore::cosine_similarity], the same code as the semantic
    linker's. *)
Definition cosine_similarity (a b : list Q) : Q := SemanticLinker.cosine_similarity a b.

(** The rows of [SELECT e.uri, e.vector, s.path FROM embeddings e JOIN
    symbols s ON e.uri = s.uri] (each embedding with its symbol rows),
    scored by [cosine_similarity * get_file_boost(path)]. *)
Definition vector_candidates (query_vector : list Q) (st : Store) : list (string * Q) :=
  flat_map (fun m =>
      map (fun r => (emb_uri m, cosine_similarity query_vector (emb_vector m) * get_file_boost (s_path r)))
          (filter (fun r => String.eqb (s_uri r) (emb_uri m)) (symbols st)))
    (embeddings st).

(** [search_by_vector]: sort by score descending, [take(limit)], then
    [SymbolUri::parse(&uri_str)?] and [get_symbol(&uri)?]; [None] is an
    [Err]. *)
Definition search_by_vector (query_vector : list Q) (limit : nat) (st : Store)
  : option (list (Symbol * Q)) :=
  let results := sort_by (fun a b => Qle_bool (snd b) (snd a)) (vector_candidates query_vector st) in
  fold_left (fun acc p =>
      match acc with
      | None => None
      | Some out =>
          match Uri.parse (fst p) with
          | None => None
          | Some u =>
              match get_symbol u st with
              | None => None
              | Some None => Some out
              | Some (Some s) => Some (app out [(s, snd p)])
              end
          end
      end) (firstn limit results) (Some []).

End StoreOps.

(** ** The embedding blob: [f32::to_le_bytes] and [f32::from_le_bytes]
    of [insert_embedding], [get_embedding] and [get_all_embeddings]. *)
Module Blob.
#[local] Open Scope N_scope.

(** An [f32] is its IEEE-754 bit pattern, a 32-bit [N]; a byte is an [N]
    below 256. *)
Definition to_le_bytes (w : N) : list N :=
  [w mod 256; (w / 256) mod 256; (w / 65536) mod 256; (w / 16777216) mod 256].

(** [vector.iter().flat_map(|f| f.to_le_bytes()).collect()] *)
Definition encode (v : list N) : list N := flat_map to_le_bytes v.

Definition from_le_bytes (b0 b1 b2 b3 : N) : N := b0 + 256 * b1 + 65536 * b2 + 16777216 * b3.

(** [blob.chunks(4).map(|chunk| f32::from_le_bytes([chunk[0], chunk[1],
    chunk[2], chunk[3]])).collect()]; a last chunk shorter than 4 bytes
    panics on the index ([None]). *)
Fixpoint decode (b : list N) : option (list N) :=
  match b with
  | [] => Some []
  | b0 :: b1 :: b2 :: b3 :: r =>
      match decode r with
      | Some v => Some (from_le_bytes b0 b1 b2 b3 :: v)
      | None => None
      end
  | _ => None
  end.

End Blob.

(** ** More of [edge.rs]: [Edge::new], determinism and equality. *)
Module EdgeOps.
Import Uri EdgeModel.

(** [Edge::new] *)
Definition new (f t : SymbolUri) (k : EdgeKind) : Edge := mkEdge f t k 1.

(** [f32::EPSILON] *)
Definition EPSILON : Q := 1 # (2 ^ 23).

(** [(self.confidence - 1.0).abs() < f32::EPSILON].  On a confidence in
    [0, 1] the [f32] subtraction gives the same answer as the exact one:
    it is exact on [0.5, 1] (Sterbenz) and stays at or below -0.5 below. *)
Definition is_deterministic (e : Edge) : bool :=
  negb (Qle_bool EPSILON (Qabs (confidence e - 1))).

(** [Edge::is_probabilistic] *)
Definition is_probabilistic (e : Edge) : bool := negb (is_deterministic e).

(** [impl PartialEq for Edge]: the URIs and the kind; the confidence is
    not compared. *)
Definition edge_eq (a b : Edge) : bool :=
  SymbolUri_eqb (from_uri a) (from_uri b) && SymbolUri_eqb (to_uri a) (to_uri b)
  && EdgeKind_eqb (ekind a) (ekind b).

End EdgeOps.

(** ** More of [symbol.rs]: [Symbol::new] and [Symbol::embedding_text]. *)
Module SymbolOps.
Import Uri Store.

(** [Symbol::new] *)
Definition symbol_new (repo path : string) (k : SymbolKind) (name : string) (line_start line_end : N)
  (content : string) : Symbol :=
  mkSymbol (mkUri repo path k name line_start) k name path line_start line_end None None content.

(** [parts.join(sep)] *)
Fixpoint join (sep : string) (parts : list string) : string :=
  match parts with
  | [] => EmptyString
  | [x] => x
  | x :: r => x ++ sep ++ join sep r
  end.

(** [Symbol::embedding_text]; [&self.content[..1000]] panics ([None])
    when byte 1000 is inside a UTF-8 character. *)
Definition embedding_text (s : Symbol) : option string :=
  let head := match signature s with Some sig => sig | None => sname s end in
  let parts := head :: match doc s with Some d => [d] | None => [] end in
  let content_preview :=
    if Nat.ltb 1000 (String.length (content s)) then
      if Chunker.is_char_boundary (content s) 1000
      then Some (substring 0 1000 (content s) ++ "...")
      else None
    else Some (content s) in
  match content_preview with
  | Some p => Some (join Chunker.nl (app parts [p]))
  | None => None
  end.

End SymbolOps.

(** ** [DocumentChunker::chunk_file] and [supports_extension]. *)
Module ChunkFile.
Import Uri Store Chunker SymbolOps.

Definition byte_is (c : ascii) (n : N) : bool := N.eqb (N_of_ascii c) n.

(** Whether a UTF-8 string consists of [char::is_whitespace] characters
    only, i.e. [s.trim().is_empty()]: the ASCII ones (U+0009 to U+000D,
    U+0020) and the encodings of U+0085, U+00A0, U+1680, U+2000 to
    U+200A, U+2028, U+2029, U+202F, U+205F and U+3000. *)
Fixpoint trim_is_empty (s : string) : bool :=
  match s with
  | EmptyString => true
  | String c r =>
      if is_ascii_whitespace c then trim_is_empty r
      else if byte_is c 194 then
        match r with
        | String d r' => (byte_is d 133 || byte_is d 160) && trim_is_empty r'
        | EmptyString => false
        end
      else if byte_is c 225 then
        match r with
        | String d (String e r') => byte_is d 154 && byte_is e 128 && trim_is_empty r'
        | _ => false
        end
      else if byte_is c 226 then
        match r with
        | String d (String e r') =>
            ((byte_is d 128 && (((128 <=? N_of_ascii e)%N && (N_of_ascii e <=? 138)%N)
                                || byte_is e 168 || byte_is e 169 || byte_is e 175))
             || (byte_is d 129 && byte_is e 159))
            && trim_is_empty r'
        | _ => false
        end
      else if byte_is c 227 then
        match r with
        | String d (String e r') => byte_is d 128 && byte_is e 128 && trim_is_empty r'
        | _ => false
        end
      else false
  end.

(** [format!("{}", n)] for [n : usize] (at most 20 digits). *)
Definition show_usize (n : nat) : string := U32.to_digits 20 (N.of_nat n) EmptyString.

(** The name of chunk [idx] out of [total]. *)
Definition chunk_name (path : string) (total idx : nat) : string :=
  if Nat.eqb total 1 then RStr.basename path
  else RStr.basename path ++ "#chunk_" ++ show_usize (S idx).

(** The loop [for (idx, chunk) in chunks.into_iter().enumerate()]. *)
Fixpoint chunk_symbols (repo path : string) (total idx : nat) (cs : list Chunk) : list Symbol :=
  match cs with
  | [] => []
  | ch :: r =>
      symbol_new repo path Document (chunk_name path total idx) (start_line ch) (end_line ch) (ccontent ch)
      :: chunk_symbols repo path total (S idx) r
  end.

(** [DocumentChunker::chunk_file]: the [symbols] of its [AdapterResult]
    (it adds no edge). *)
Definition chunk_file (c : DocumentChunker) (repo path content : string) : list Symbol :=
  if trim_is_empty content then []
  else
    let chunks := split_into_chunks c content in
    chunk_symbols repo path (List.length chunks) 0 chunks.

End ChunkFile.

(** ** The incremental indexer of [main.rs] (the [index] command): the
    status check of the walker, the coordinator's handling of one file
    and the deletion pass. *)
Module Indexer.
Import Uri EdgeModel Store StoreOps.

Inductive FileStatus := New | Modified | Unchanged.

(** [match store.get_file_hash(&relative_path_str)] in the walker. *)
Definition file_status (p hash : string) (st : Store) : FileStatus :=
  match get_file_hash p st with
  | Some h => if String.eqb h hash then Unchanged else Modified
  | None => New
  end.

(** An unresolved reference of the scope graph, as the coordinator reads
    it: [from_uri], [name], [scope.0] and [line]. *)
Record ScopeRef := mkScopeRef { sr_from_uri : SymbolUri; sr_name : string; sr_scope : Z; sr_line : N }.

(** An import of the root scope: [alias], [namespace], [line]. *)
Record ScopeImport := mkScopeImport { si_alias : option string; si_namespace : string; si_line : N }.

(** What the coordinator reads of an [AdapterResult]. *)
Record AdapterResult := mkAdapterResult {
  res_symbols : list Symbol; res_edges : list Edge;
  res_unresolved : list ScopeRef; res_imports : list ScopeImport
}.

(** The [PersistedUnresolvedReference] of one scope-graph reference:
    [name.rsplit_once('.')] splits off the receiver. *)
Definition persist_ref (p : string) (u : ScopeRef) : UnresolvedRow :=
  let '(receiver, name) := match RStr.rsplit_once "." (sr_name u) with
                           | Some (r, n) => (Some r, n)
                           | None => (None, sr_name u)
                           end in
  new_unresolved (to_uri_string (sr_from_uri u)) name receiver (sr_scope u) p (sr_line u) "call".

(** The coordinator's handling of [IndexMessage::Processed] (the
    statistics and printing are not modelled; the store calls do not
    fail here, so the ignored [.ok()] results change nothing). *)
Definition process_file (p hash : string) (result : option AdapterResult) (status : FileStatus)
  (now : Z) (st : Store) : Store :=
  let st := match status with Modified => delete_file_data p st | _ => st end in
  let st := match result with
            | Some res =>
                let st := fold_left (fun st s => insert_symbol s st) (res_symbols res) st in
                let st := fold_left (fun st e => insert_edge e st) (res_edges res) st in
                let st := fold_left (fun st u => insert_unresolved (persist_ref p u) st) (res_unresolved res) st in
                fold_left (fun st i => insert_import p (si_alias i) (si_namespace i) (Some (si_line i)) st)
                  (res_imports res) st
            | None => st
            end in
  update_file_hash p hash now st.

(** The deletion pass: [delete_file_data] of every indexed path not in
    [seen_paths]. *)
Definition delete_unseen (seen_paths : list string) (st : Store) : Store :=
  fold_left (fun st p => if existsb (String.eqb p) seen_paths then st else delete_file_data p st)
    (get_all_indexed_files st) st.

End Indexer.

(** * Proofs *)

(** ** Properties of the string helpers. *)
Module RStrFacts.
Import RStr.

Lemma append_assoc_s (a b c : string) : (a ++ b) ++ c = a ++ (b ++ c).
Proof. induction a as [|x a IH]; simpl; [reflexivity | now rewrite IH]. Qed.

Lemma has_char_app (c : ascii) (a b : string) :
  has_char c (a ++ b) = has_char c a || has_char c b.
Proof. induction a as [|x a IH]; simpl; [reflexivity | now rewrite IH, orb_assoc]. Qed.

Lemma split_once_app (c : ascii) (a b : string) :
  has_char c a = false -> split_once c (a ++ String c b) = Some (a, b).
Proof.
  induction a as [|x a IH]; simpl; intros H.
  - now rewrite Ascii.eqb_refl.
  - apply orb_false_iff in H as [Hx Ha]. now rewrite Hx, IH.
Qed.

Lemma rsplit_once_none (c : ascii) (b : string) :
  has_char c b = false -> rsplit_once c b = None.
Proof.
  induction b as [|x b IH]; simpl; intros H; [reflexivity|].
  apply orb_false_iff in H as [Hx Hb]. now rewrite IH, Hx.
Qed.

Lemma rsplit_once_app (c : ascii) (a b : string) :
  has_char c b = false -> rsplit_once c (a ++ String c b) = Some (a, b).
Proof.
  intros H. induction a as [|x a IH]; simpl.
  - now rewrite rsplit_once_none, Ascii.eqb_refl.
  - now rewrite IH.
Qed.

Lemma strip_prefix_app (p s : string) : strip_prefix p (p ++ s) = Some s.
Proof. induction p as [|x p IH]; simpl; [reflexivity | now rewrite Ascii.eqb_refl]. Qed.

End RStrFacts.

(** ** Decimal round trip of [u32]. *)
Module U32Facts.
Import U32.

Lemma to_digits_app (f : nat) (n : N) (a b : string) :
  to_digits f n (a ++ b) = to_digits f n a ++ b.
Proof.
  revert n a. induction f as [|f IH]; intros n a; simpl; [reflexivity|].
  destruct (n <? 10)%N; [reflexivity|].
  exact (IH (n / 10)%N (String (digit_char (n mod 10)) a)).
Qed.

Lemma parse_digits_app (v : N) (a b : string) :
  parse_digits v (a ++ b) =
  match parse_digits v a with Some w => parse_digits w b | None => None end.
Proof.
  revert v. induction a as [|x a IH]; intros v; simpl; [reflexivity|].
  destruct (digit_value x); [apply IH | reflexivity].
Qed.

Lemma parse_digits_one (v : N) (c : ascii) :
  parse_digits v (String c EmptyString) =
  match digit_value c with Some d => Some (10 * v + d)%N | None => None end.
Proof. simpl. destruct (digit_value c); reflexivity. Qed.

Lemma N_of_digit_char (d : N) : (d < 10)%N -> N_of_ascii (digit_char d) = (48 + d)%N.
Proof. intros Hd. unfold digit_char. apply N_ascii_embedding. lia. Qed.

Lemma digit_value_digit_char (d : N) : (d < 10)%N -> digit_value (digit_char d) = Some d.
Proof.
  intros Hd. unfold digit_value. rewrite N_of_digit_char by exact Hd.
  replace ((48 <=? 48 + d)%N && (48 + d <=? 57)%N) with true.
  - f_equal. lia.
  - symmetry. apply andb_true_iff. split; apply N.leb_le; lia.
Qed.

Lemma digit_char_not (d : N) (c : ascii) :
  (d < 10)%N -> (N_of_ascii c < 48 \/ 57 < N_of_ascii c)%N -> Ascii.eqb (digit_char d) c = false.
Proof.
  intros Hd Hc. destruct (Ascii.eqb_spec (digit_char d) c) as [E|E]; [|reflexivity].
  exfalso. pose proof (N_of_digit_char d Hd) as H. rewrite E in H. lia.
Qed.

(** Every rendering starts with a decimal digit. *)
Lemma to_digits_head (f : nat) (n : N) (acc : string) :
  (0 < f)%nat -> exists d r, (d < 10)%N /\ to_digits f n acc = String (digit_char d) r.
Proof.
  revert n acc. induction f as [|f IH]; intros n acc Hf; [lia|].
  simpl. destruct (n <? 10)%N.
  - exists (n mod 10)%N, acc. split; [apply N.mod_lt; lia | reflexivity].
  - destruct f as [|f'].
    + exists (n mod 10)%N, acc. split; [apply N.mod_lt; lia | reflexivity].
    + apply IH. lia.
Qed.

(** Only decimal digits are rendered. *)
Lemma to_digits_no_char (c : ascii) (f : nat) (n : N) (acc : string) :
  (N_of_ascii c < 48 \/ 57 < N_of_ascii c)%N ->
  RStr.has_char c acc = false -> RStr.has_char c (to_digits f n acc) = false.
Proof.
  intros Hc. revert n acc. induction f as [|f IH]; intros n acc Hacc; simpl; [exact Hacc|].
  assert (Hd : RStr.has_char c (String (digit_char (n mod 10)) acc) = false).
  { simpl. rewrite digit_char_not by (try apply N.mod_lt; lia). exact Hacc. }
  destruct (n <? 10)%N; [exact Hd | now apply IH].
Qed.

Lemma to_digits_value (f : nat) (n : N) :
  (0 < f)%nat -> (n < 10 ^ N.of_nat f)%N ->
  exists k, forall v, parse_digits v (to_digits f n EmptyString) = Some (v * 10 ^ k + n)%N.
Proof.
  revert n. induction f as [|f IH]; intros n Hf Hn; [lia|].
  simpl. destruct (N.ltb_spec n 10) as [Hlt|Hge].
  - exists 1%N. intros v. rewrite N.pow_1_r, parse_digits_one.
    rewrite digit_value_digit_char by (apply N.mod_lt; lia).
    rewrite N.mod_small by exact Hlt. f_equal. lia.
  - destruct f as [|f'].
    + simpl in Hn. lia.
    + assert (Hq : (n / 10 < 10 ^ N.of_nat (S f'))%N).
      { apply N.Div0.div_lt_upper_bound.
        rewrite Nat2N.inj_succ, N.pow_succ_r' in Hn. exact Hn. }
      destruct (IH (n / 10)%N ltac:(lia) Hq) as [k Hk].
      exists (N.succ k). intros v.
      change (String (digit_char (n mod 10)) EmptyString)
        with (EmptyString ++ String (digit_char (n mod 10)) EmptyString).
      rewrite to_digits_app, parse_digits_app, Hk, parse_digits_one.
      rewrite digit_value_digit_char by (apply N.mod_lt; lia).
      f_equal. rewrite N.pow_succ_r'.
      pose proof (N.div_mod n 10 ltac:(lia)). nia.
Qed.

Lemma parse_show (n : N) : (n < 2 ^ 32)%N -> parse (show n) = Some n.
Proof.
  intros Hn. unfold parse, show.
  destruct (to_digits_head 10 n EmptyString ltac:(lia)) as [d [r [Hd Hs]]].
  destruct (to_digits_value 10 n ltac:(lia) ltac:(simpl; lia)) as [k Hk].
  specialize (Hk 0%N). rewrite Hs in *.
  rewrite (digit_char_not d "+") by (try exact Hd; simpl; lia). cbn [andb].
  rewrite Hk, N.add_0_l. replace (n <? 2 ^ 32)%N with true; [reflexivity|].
  symmetry. now apply N.ltb_lt.
Qed.

End U32Facts.

(** ** URIs. *)
Module UriProofs.
Import Uri RStr RStrFacts.

Lemma kind_as_str_no_colon (k : SymbolKind) : has_char ":" (kind_as_str k) = false.
Proof. destruct k; reflexivity. Qed.

Lemma kind_from_as_str (k : SymbolKind) : kind_from_str (kind_as_str k) = Some k.
Proof. destruct k; reflexivity. Qed.

(** Claim C2 (URI round-trip): for every [SymbolUri] whose repo contains
    neither '/' nor '#', whose path contains no '#', and whose line fits a
    [u32], [SymbolUri::parse (to_uri_string u)] succeeds and returns [u].
    The name may contain any character ('@' included: the line is split
    off at the last '@'), and line 0 round-trips as well. *)
Theorem uri_roundtrip (u : SymbolUri) :
  has_char "/" (repo u) = false -> has_char "#" (repo u) = false ->
  has_char "#" (path u) = false -> (line u < 2 ^ 32)%N ->
  parse (to_uri_string u) = Some u.
Proof.
  destruct u as [r p k n l]; simpl. intros Hr1 Hr2 Hp Hl.
  unfold parse, to_uri_string; simpl repo; simpl path; simpl kind; simpl name; simpl line.
  rewrite strip_prefix_app.
  change ("/" ++ ?x) with (String "/" x). change ("#" ++ ?x) with (String "#" x).
  change (":" ++ ?x) with (String ":" x). change ("@" ++ ?x) with (String "@" x).
  replace (r ++ String "/" (p ++ String "#" (kind_as_str k ++ String ":" (n ++ String "@" (U32.show l)))))
    with ((r ++ String "/" p) ++ String "#" (kind_as_str k ++ String ":" (n ++ String "@" (U32.show l))))
    by (rewrite append_assoc_s; reflexivity).
  rewrite split_once_app
    by (rewrite has_char_app; simpl; rewrite Hr2, Hp; reflexivity).
  rewrite split_once_app by exact Hr1.
  replace (kind_as_str k ++ String ":" (n ++ String "@" (U32.show l)))
    with ((kind_as_str k ++ String ":" n) ++ String "@" (U32.show l))
    by (rewrite append_assoc_s; reflexivity).
  rewrite rsplit_once_app
    by (apply U32Facts.to_digits_no_char; [simpl; lia | reflexivity]).
  rewrite split_once_app by apply kind_as_str_no_colon.
  rewrite kind_from_as_str, U32Facts.parse_show by exact Hl.
  reflexivity.
Qed.

Lemma uri_roundtrip_witness :
  let u := mkUri "myrepo" "src/auth.py" Callable "validate_token" 42 in
  has_char "/" (repo u) = false /\ has_char "#" (repo u) = false /\
  has_char "#" (path u) = false /\ (line u < 2 ^ 32)%N /\
  parse (to_uri_string u) = Some u.
Proof.
  intros u. split; [reflexivity|]. split; [reflexivity|]. split; [reflexivity|].
  split; [vm_compute; reflexivity|].
  apply uri_roundtrip; [reflexivity | reflexivity | reflexivity | vm_compute; reflexivity].
Defined.

End UriProofs.

(** ** Edge reverse semantics. *)
Module EdgeProofs.
Import Uri EdgeModel.

Definition self_inverse_count : nat :=
  List.length (filter (fun k => EdgeKind_eqb (reverse k) k) all).

(** Claim C9, as stated, fails: [EdgeKind::reverse] maps every one of the
    six kinds to itself, so the number of self-inverse kinds is six, not
    five. *)
Lemma edge_reverse_five_counterexample :
  ~ (self_inverse_count = 5%nat /\
     forall e, reversed e = mkEdge (to_uri e) (from_uri e) (ekind e) (confidence e)).
Proof. intros [H _]. vm_compute in H. discriminate H. Qed.

(** Claim C9 (amended): all six edge kinds are self-inverse under
    [EdgeKind::reverse], and [Edge::reversed] swaps [from_uri] and [to_uri]
    while keeping the kind and the confidence. *)
Theorem edge_reverse_all_self_inverse :
  (forall k, reverse k = k) /\ self_inverse_count = 6%nat /\
  (forall e, from_uri (reversed e) = to_uri e /\ to_uri (reversed e) = from_uri e /\
             ekind (reversed e) = ekind e /\ confidence (reversed e) = confidence e).
Proof.
  split; [intros []; reflexivity|]. split; [reflexivity|].
  intros e. repeat split.
Qed.

End EdgeProofs.

(** ** The stable sort: a sorted permutation. *)
Module ListUtilFacts.
Import ListUtil.

Section SortBy.
Context {A : Type} (le : A -> A -> bool).
Hypothesis le_total : forall a b, le a b = false -> le b a = true.

Lemma insert_by_perm (x : A) (l : list A) : Permutation (insert_by le x l) (x :: l).
Proof.
  induction l as [|y r IH]; simpl; [reflexivity|].
  destruct (le y x); [|reflexivity].
  rewrite IH. apply perm_swap.
Qed.

Lemma sort_by_go_perm (l acc : list A) :
  Permutation (fold_left (fun acc x => insert_by le x acc) l acc) (l ++ acc).
Proof.
  revert acc. induction l as [|x l IH]; intros acc; simpl; [reflexivity|].
  rewrite IH, insert_by_perm. symmetry. apply Permutation_middle.
Qed.

Lemma sort_by_perm (l : list A) : Permutation (sort_by le l) l.
Proof. unfold sort_by. rewrite sort_by_go_perm, app_nil_r. reflexivity. Qed.

Let R := fun a b => le a b = true.

Lemma insert_by_hd (y x : A) (l : list A) :
  HdRel R y l -> R y x -> HdRel R y (insert_by le x l).
Proof.
  intros H Hyx. destruct l as [|z r]; simpl; [now constructor|].
  destruct (le z x); [inversion H; now constructor | now constructor].
Qed.

Lemma insert_by_sorted (x : A) (l : list A) : Sorted R l -> Sorted R (insert_by le x l).
Proof.
  induction l as [|y r IH]; intros Hs; simpl; [now repeat constructor|].
  apply Sorted_inv in Hs as [Hr Hhd].
  destruct (le y x) eqn:E.
  - constructor; [now apply IH | now apply insert_by_hd].
  - constructor; [now constructor | constructor; now apply le_total].
Qed.

Lemma sort_by_sorted (l : list A) : Sorted R (sort_by le l).
Proof.
  unfold sort_by. assert (H : Sorted R []) by constructor. revert H.
  generalize (@nil A) as acc. induction l as [|x l IH]; intros acc Hacc; simpl; [exact Hacc|].
  apply IH, insert_by_sorted, Hacc.
Qed.

End SortBy.

Lemma filter_map_length_all {A B} (f : A -> option B) (l : list A) :
  (forall x, In x l -> f x <> None) -> List.length (filter_map f l) = List.length l.
Proof.
  induction l as [|x r IH]; intros H; simpl; [reflexivity|].
  destruct (f x) eqn:E; simpl.
  - f_equal. apply IH. intros y Hy. apply H. now right.
  - exfalso. apply (H x); [now left | exact E].
Qed.

Lemma in_skipn_in {A} (k : nat) (l : list A) (x : A) : In x (skipn k l) -> In x l.
Proof. intros H. rewrite <- (firstn_skipn k l). apply in_or_app. now right. Qed.

Lemma firstn_skipn_sorted {A} (R : A -> A -> Prop) (l : list A) (k : nat) :
  StronglySorted R l -> forall y x, In y (firstn k l) -> In x (skipn k l) -> R y x.
Proof.
  revert k. induction l as [|a r IH]; intros k Hs y x Hy Hx.
  - destruct k; simpl in Hy; contradiction.
  - apply StronglySorted_inv in Hs as [Hr Hall].
    destruct k as [|k]; simpl in Hy, Hx; [contradiction|].
    destruct Hy as [<-|Hy].
    + rewrite Forall_forall in Hall. apply Hall. eapply in_skipn_in; exact Hx.
    + eapply IH; eauto.
Qed.

End ListUtilFacts.

(** ** Store operations: edges, unresolved references, content search. *)
Module StoreProofs.
Import Uri EdgeModel ListUtil ListUtilFacts Store.

Definition empty_store : Store := mkStore [] [] [] [] [] [] [] [] [].

Lemma same_triple_refl (r : EdgeRow) : same_triple r r = true.
Proof. unfold same_triple. now rewrite !String.eqb_refl. Qed.

Lemma same_triple_trans_r (r a b : EdgeRow) :
  same_triple a b = true -> same_triple r a = same_triple r b.
Proof.
  unfold same_triple. intros H.
  apply andb_true_iff in H as [H H3]. apply andb_true_iff in H as [H1 H2].
  apply String.eqb_eq in H1, H2, H3. now rewrite H1, H2, H3.
Qed.

Lemma filter_negb_filter {A} (f : A -> bool) (l : list A) :
  filter f (filter (fun x => negb (f x)) l) = [].
Proof. induction l as [|x r IH]; simpl; [reflexivity|]. destruct (f x) eqn:E; simpl; now rewrite ?E. Qed.

(** Whatever was stored before, [insert_edge e] leaves exactly one row for
    the triple of [e], and it carries the confidence of [e]. *)
Lemma insert_edge_single_row (st : Store) (e : Edge) :
  filter (fun r => same_triple r (edge_row e)) (edges (insert_edge e st)) = [edge_row e].
Proof.
  unfold insert_edge. simpl. rewrite filter_app, filter_negb_filter. simpl.
  now rewrite same_triple_refl.
Qed.

Definition edge_a_b (c : Q) : Edge :=
  mkEdge (mkUri "repo" "a.py" Callable "a" 1) (mkUri "repo" "b.py" Callable "b" 1) Calls c.

Definition confidences_for (e : Edge) (st : Store) : list Q :=
  map e_confidence (filter (fun r => same_triple r (edge_row e)) (edges st)).

(** Claim C1, as stated, fails: inserting [(a,b,calls)] with confidence
    1.0 and then with 0.7 leaves one row whose confidence is 0.7, not the
    maximum 1.0. *)
Lemma edge_monotonicity_counterexample :
  ~ (exists c, confidences_for (edge_a_b 1) (insert_edge (edge_a_b (7 # 10))
                 (insert_edge (edge_a_b 1) empty_store)) = [c] /\ c == Qmax 1 (7 # 10)).
Proof.
  intros [c [H Hc]]. vm_compute in H. injection H as <-. vm_compute in Hc. discriminate Hc.
Qed.

(** Claim C1 (amended): [insert_edge] is [INSERT OR REPLACE]: after
    [insert_edge e] then [insert_edge e'] on the same [(from, to, kind)]
    triple, exactly one row remains for the triple and it carries the
    confidence of [e'] (the last write wins, whatever the two confidences
    are); rows of every other triple are those stored before. *)
Theorem insert_edge_last_write_wins (st : Store) (e e' : Edge) :
  same_triple (edge_row e) (edge_row e') = true ->
  let st' := insert_edge e' (insert_edge e st) in
  filter (fun r => same_triple r (edge_row e')) (edges st') = [edge_row e'] /\
  filter (fun r => negb (same_triple r (edge_row e'))) (edges st')
  = filter (fun r => negb (same_triple r (edge_row e'))) (edges st).
Proof.
  intros Hs st'. split; [apply insert_edge_single_row|].
  subst st'. unfold insert_edge. simpl.
  rewrite !filter_app. simpl. rewrite same_triple_refl, Hs. simpl. rewrite !app_nil_r.
  induction (edges st) as [|x r IH]; simpl; [reflexivity|].
  rewrite (same_triple_trans_r x _ _ Hs).
  destruct (same_triple x (edge_row e')) eqn:E; simpl; rewrite ?E; simpl; rewrite ?E; simpl;
    [exact IH | now rewrite IH].
Qed.

Lemma insert_edge_last_write_wins_witness :
  same_triple (edge_row (edge_a_b 1)) (edge_row (edge_a_b (7 # 10))) = true /\
  filter (fun r => same_triple r (edge_row (edge_a_b (7 # 10))))
    (edges (insert_edge (edge_a_b (7 # 10)) (insert_edge (edge_a_b 1) empty_store)))
  = [edge_row (edge_a_b (7 # 10))].
Proof.
  split; [vm_compute; reflexivity|].
  exact (proj1 (insert_edge_last_write_wins empty_store (edge_a_b 1) (edge_a_b (7 # 10))
                  ltac:(vm_compute; reflexivity))).
Defined.

(** An unresolved call of [print] in [a.py], marked external by a linker
    run ([insert_unresolved] followed by [mark_unresolved_as_external]). *)
Definition print_ref : UnresolvedRow :=
  mkUnresolvedRow 1 "codescope://repo/a.py#callable:main@1" "print" None 0 "a.py" 2 "call" false.

Definition store_with_external : Store :=
  mark_unresolved_as_external 1 (set_unresolved empty_store [print_ref]).

(** Claim C6 (defect): [get_all_unresolved] selects every row of
    [unresolved_references], with no [is_external] filter, so a row marked
    external is returned; its sibling [count_unresolved] counts only the
    rows with [is_external = 0] (none here). *)
Theorem get_all_unresolved_returns_external :
  (forall st, get_all_unresolved st = unresolved_references st) /\
  (exists r, In r (get_all_unresolved store_with_external) /\ u_is_external r = true) /\
  count_unresolved store_with_external = 0%nat.
Proof.
  split; [reflexivity|]. split; [|reflexivity].
  eexists. split; [left; reflexivity | reflexivity].
Qed.

Lemma path_line_le_total (a b : SymbolRow) :
  path_line_le a b = false -> path_line_le b a = true.
Proof.
  unfold path_line_le. rewrite (String.compare_antisym (s_path b) (s_path a)).
  destruct (String.compare (s_path a) (s_path b)); simpl; try discriminate; [|reflexivity].
  intros H. apply N.leb_gt in H. apply N.leb_le. lia.
Qed.

(** A document chunk of the file [notes/C#.md], as [chunk_file] builds it
    and [insert_symbol] stores it. *)
Definition hash_path_symbol : Symbol :=
  mkSymbol (mkUri "repo" "notes/C#.md" Document "C#.md" 1) Document "C#.md" "notes/C#.md"
           1 3 None None "C# notes".

Definition store_hash_path : Store := insert_symbol hash_path_symbol empty_store.

(** Claim C10, as stated, fails: on a store holding one symbol, the blank
    query returns nothing, because the stored URI of a file whose path
    contains '#' does not parse back and [row_to_symbol] drops the row. *)
Lemma search_content_blank_counterexample :
  ~ (forall q k limit st, split_whitespace q = [] -> (0 < limit)%nat ->
       symbols st <> [] -> search_content q k limit st <> Some []).
Proof.
  intros H. apply (H " " None 10%nat store_hash_path); [reflexivity | lia | discriminate |].
  vm_compute. reflexivity.
Qed.

(** Claim C10 (amended): for a query with no non-whitespace token
    ([char::is_whitespace], so Unicode White_Space such as U+3000 too),
    [search_content] ignores the kind and the content and returns
    [get_recent_symbols limit]: an error when [limit] exceeds [i64::MAX];
    otherwise the first [limit] stored rows in ascending
    [(path, line_start)] order, minus those whose stored URI or kind does
    not parse.  When every stored row parses, that is
    [min limit (number of symbols)] symbols. *)
Theorem search_content_blank_query (q : string) (k : option SymbolKind) (limit : nat) (st : Store) :
  split_whitespace q = [] ->
  search_content q k limit st = get_recent_symbols limit st /\
  ((2 ^ 63 <= N.of_nat limit)%N -> search_content q k limit st = None) /\
  ((N.of_nat limit < 2 ^ 63)%N ->
   search_content q k limit st
   = Some (filter_map row_to_symbol (firstn limit (sort_by path_line_le (symbols st)))) /\
   ((forall r, In r (symbols st) -> row_to_symbol r <> None) ->
    List.length (filter_map row_to_symbol (firstn limit (sort_by path_line_le (symbols st))))
    = Nat.min limit (List.length (symbols st)))) /\
  Sorted (fun a b => path_line_le a b = true) (sort_by path_line_le (symbols st)) /\
  Permutation (sort_by path_line_le (symbols st)) (symbols st).
Proof.
  intros Hq.
  assert (Hs : search_content q k limit st = get_recent_symbols limit st).
  { unfold search_content. rewrite Hq. reflexivity. }
  split; [exact Hs|]. split; [|split; [|split]].
  - intros Hl. rewrite Hs. unfold get_recent_symbols. apply N.leb_le in Hl. now rewrite Hl.
  - intros Hl. split.
    + rewrite Hs. unfold get_recent_symbols. apply N.leb_gt in Hl. now rewrite Hl.
    + intros Hall. rewrite filter_map_length_all.
      * rewrite length_firstn, (Permutation_length (sort_by_perm _ _)). reflexivity.
      * intros r Hr. apply Hall. apply (Permutation_in _ (sort_by_perm path_line_le (symbols st))).
        rewrite <- (firstn_skipn limit). apply in_or_app. now left.
  - apply sort_by_sorted, path_line_le_total.
  - apply sort_by_perm.
Qed.

(** U+3000 IDEOGRAPHIC SPACE, a White_Space character. *)
Definition ideographic_space : string :=
  String (ascii_of_nat 227) (String (ascii_of_nat 128) (String (ascii_of_nat 128) EmptyString)).

Lemma search_content_blank_query_witness :
  split_whitespace ideographic_space = [] /\
  search_content ideographic_space None 10 store_hash_path = get_recent_symbols 10 store_hash_path.
Proof.
  split; [reflexivity|].
  exact (proj1 (search_content_blank_query ideographic_space None 10 store_hash_path eq_refl)).
Defined.

End StoreProofs.

(** ** Deleting a file *)
Module DeleteProofs.
Import Uri EdgeModel ListUtil Store StoreProofs.

Lemma filter_filter' {A} (f g : A -> bool) (l : list A) :
  filter f (filter g l) = filter (fun x => g x && f x) l.
Proof. induction l as [|x r IH]; simpl; [reflexivity|]. destruct (g x); simpl; [destruct (f x)|]; now rewrite IH. Qed.

Lemma fold_filter {A B} (P : B -> A -> bool) (bs : list B) (l : list A) :
  fold_left (fun l b => filter (P b) l) bs l = filter (fun x => forallb (fun b => P b x) bs) l.
Proof.
  revert l. induction bs as [|b bs IH]; intros l; simpl.
  - induction l as [|x r IHl]; simpl; [reflexivity|]. now f_equal.
  - rewrite IH, filter_filter'. apply filter_ext. reflexivity.
Qed.

Lemma fold_left_invariant {A B} (f : Store -> A -> Store) (g : Store -> B) :
  (forall st a, g (f st a) = g st) -> forall l st, g (fold_left f l st) = g st.
Proof. intros H l. induction l as [|a l IH]; intros st; simpl; [reflexivity|]. now rewrite IH, H. Qed.

Lemma fold_left_project {A B} (f : Store -> A -> Store) (g : Store -> list B) (h : A -> B -> bool) :
  (forall st a, g (f st a) = filter (h a) (g st)) ->
  forall l st, g (fold_left f l st) = fold_left (fun l a => filter (h a) l) l (g st).
Proof. intros H l. induction l as [|a l IH]; intros st; simpl; [reflexivity|]. now rewrite IH, H. Qed.

Definition edge_kept (s : Symbol) (e : EdgeRow) : bool :=
  negb (String.eqb (e_from_uri e) (to_uri_string (uri s)))
  && negb (String.eqb (e_to_uri e) (to_uri_string (uri s))).

Definition embedding_kept (s : Symbol) (m : EmbeddingRow) : bool :=
  negb (String.eqb (emb_uri m) (to_uri_string (uri s))).

Definition ambiguous_kept (r : UnresolvedRow) (a : AmbiguousRow) : bool :=
  negb (Z.eqb (a_reference_id a) (u_id r)).

Definition callsite_kept (r : UnresolvedRow) (c : CallsiteRow) : bool :=
  negb (Z.eqb (cs_reference_id c) (u_id r)).

Lemma delete_symbol_rows_unresolved l st :
  unresolved_references (fold_left delete_symbol_rows l st) = unresolved_references st.
Proof. apply (fold_left_invariant _ unresolved_references). reflexivity. Qed.

Lemma delete_symbol_rows_edges l st :
  edges (fold_left delete_symbol_rows l st) = filter (fun e => forallb (fun s => edge_kept s e) l) (edges st).
Proof.
  rewrite (fold_left_project _ edges edge_kept), fold_filter; [reflexivity|].
  intros st' a. unfold delete_symbol_rows. simpl. rewrite filter_filter'. reflexivity.
Qed.

Lemma delete_symbol_rows_embeddings l st :
  embeddings (fold_left delete_symbol_rows l st)
  = filter (fun m => forallb (fun s => embedding_kept s m) l) (embeddings st).
Proof.
  rewrite (fold_left_project _ embeddings embedding_kept), fold_filter; reflexivity.
Qed.

Lemma delete_reference_rows_ambiguous l st :
  ambiguous_references (fold_left delete_reference_rows l st)
  = filter (fun a => forallb (fun r => ambiguous_kept r a) l) (ambiguous_references st).
Proof.
  rewrite (fold_left_project _ ambiguous_references ambiguous_kept), fold_filter; reflexivity.
Qed.

Lemma delete_reference_rows_callsites l st :
  callsite_embeddings (fold_left delete_reference_rows l st)
  = filter (fun c => forallb (fun r => callsite_kept r c) l) (callsite_embeddings st).
Proof.
  rewrite (fold_left_project _ callsite_embeddings callsite_kept), fold_filter; reflexivity.
Qed.

Lemma delete_reference_rows_unresolved l st :
  unresolved_references (fold_left delete_reference_rows l st) = unresolved_references st.
Proof. apply (fold_left_invariant _ unresolved_references). reflexivity. Qed.

Lemma delete_reference_rows_imports l st :
  imports (fold_left delete_reference_rows l st) = imports st.
Proof. apply (fold_left_invariant _ imports). reflexivity. Qed.

Lemma delete_reference_rows_file_hash l st :
  file_hash (fold_left delete_reference_rows l st) = file_hash st.
Proof. apply (fold_left_invariant _ file_hash). reflexivity. Qed.

Lemma delete_reference_rows_symbols l st :
  symbols (fold_left delete_reference_rows l st) = symbols st.
Proof. apply (fold_left_invariant _ symbols). reflexivity. Qed.

Lemma delete_reference_rows_edges l st :
  edges (fold_left delete_reference_rows l st) = edges st.
Proof. apply (fold_left_invariant _ edges). reflexivity. Qed.

Lemma delete_reference_rows_embeddings l st :
  embeddings (fold_left delete_reference_rows l st) = embeddings st.
Proof. apply (fold_left_invariant _ embeddings). reflexivity. Qed.

Lemma delete_symbol_rows_fixed l st :
  symbols (fold_left delete_symbol_rows l st) = symbols st /\
  imports (fold_left delete_symbol_rows l st) = imports st /\
  file_hash (fold_left delete_symbol_rows l st) = file_hash st /\
  ambiguous_references (fold_left delete_symbol_rows l st) = ambiguous_references st /\
  callsite_embeddings (fold_left delete_symbol_rows l st) = callsite_embeddings st.
Proof.
  repeat split; [apply (fold_left_invariant _ symbols) | apply (fold_left_invariant _ imports)
  | apply (fold_left_invariant _ file_hash) | apply (fold_left_invariant _ ambiguous_references)
  | apply (fold_left_invariant _ callsite_embeddings)]; reflexivity.
Qed.

(** Two files: [f] in [p.py], and [q.py] whose call of [f] was recorded
    (by [insert_ambiguous_reference]) with [f] as a candidate. *)
Definition f_symbol : Symbol :=
  mkSymbol (mkUri "r" "p.py" Callable "f" 1) Callable "f" "p.py" 1 2 None None "def f(): pass".

Definition q_ref : UnresolvedRow :=
  mkUnresolvedRow 1 "codescope://r/q.py#namespace:q@1" "f" None 0 "q.py" 3 "call" false.

Definition store_two_files : Store :=
  insert_ambiguous_reference 1 (to_uri_string (uri f_symbol)) (9#10)
    (set_unresolved (insert_symbol f_symbol empty_store) [q_ref]).

(** Claim C3, as stated, fails: after [delete_file_data "p.py"] an
    ambiguous-reference row still names, as its candidate, the URI of the
    deleted symbol of [p.py] (its reference lives in [q.py]). *)
Lemma delete_file_data_counterexample :
  exists a u, In a (ambiguous_references (delete_file_data "p.py" store_two_files)) /\
              Uri.parse (a_candidate_uri a) = Some u /\ Uri.path u = "p.py".
Proof.
  exists (mkAmbiguousRow 1 1 (to_uri_string (uri f_symbol)) (9#10)), (uri f_symbol).
  assert (E : ambiguous_references (delete_file_data "p.py" store_two_files)
              = [mkAmbiguousRow 1 1 (to_uri_string (uri f_symbol)) (9#10)]) by (vm_compute; reflexivity).
  rewrite E. split; [left; reflexivity|]. split; [vm_compute; reflexivity | reflexivity].
Qed.

(** Claim C3 (amended): [delete_file_data p] removes exactly
    - the symbol rows with path [p];
    - the edges from or to, and the embeddings of, the URI of a symbol
      returned by [find_symbols_in_file p] (rows whose stored URI parses);
    - the ambiguous and callsite rows whose [reference_id] is the id of an
      unresolved reference recorded in [p];
    - the unresolved, import and file-hash rows with path [p];
    and keeps every other row.  In particular an ambiguous row of another
    file's reference whose candidate is a symbol of [p] survives, as do
    edges naming a URI of [p] that is not the stored URI of a parsable
    symbol row of [p]. *)
Theorem delete_file_data_tables (p : string) (st : Store) :
  let syms := find_symbols_in_file p st in
  let refs := get_unresolved_in_file p st in
  let st' := delete_file_data p st in
  symbols st' = filter (fun r => negb (String.eqb (s_path r) p)) (symbols st) /\
  edges st' = filter (fun e => forallb (fun s => edge_kept s e) syms) (edges st) /\
  embeddings st' = filter (fun m => forallb (fun s => embedding_kept s m) syms) (embeddings st) /\
  ambiguous_references st' = filter (fun a => forallb (fun r => ambiguous_kept r a) refs) (ambiguous_references st) /\
  callsite_embeddings st' = filter (fun c => forallb (fun r => callsite_kept r c) refs) (callsite_embeddings st) /\
  unresolved_references st' = filter (fun r => negb (String.eqb (u_file_path r) p)) (unresolved_references st) /\
  imports st' = filter (fun r => negb (String.eqb (i_file_path r) p)) (imports st) /\
  file_hash st' = filter (fun r => negb (String.eqb (fh_path r) p)) (file_hash st).
Proof.
  intros syms refs st'. subst st'. unfold delete_file_data. fold syms.
  destruct (delete_symbol_rows_fixed syms st) as (Hs & Hi & Hf & Ha & Hc).
  assert (Hr : get_unresolved_in_file p
                 (set_symbols (fold_left delete_symbol_rows syms st)
                    (filter (fun r => negb (String.eqb (s_path r) p))
                       (symbols (fold_left delete_symbol_rows syms st)))) = refs).
  { unfold get_unresolved_in_file. simpl. now rewrite delete_symbol_rows_unresolved. }
  rewrite Hr. simpl.
  rewrite delete_reference_rows_symbols, delete_reference_rows_edges, delete_reference_rows_embeddings,
    delete_reference_rows_ambiguous, delete_reference_rows_callsites, delete_reference_rows_unresolved,
    delete_reference_rows_imports, delete_reference_rows_file_hash. simpl.
  rewrite Hs, Hi, Hf, Ha, Hc, delete_symbol_rows_edges, delete_symbol_rows_embeddings,
    delete_symbol_rows_unresolved.
  repeat split; reflexivity.
Qed.

End DeleteProofs.

(** ** Stage A: the global step *)
Module GlobalLinkerProofs.
Import Uri EdgeModel ListUtil Store StoreProofs GlobalLinker.

Lemma set_insert_nonempty u c : set_insert u c <> [].
Proof. unfold set_insert. destruct c as [|x c]; simpl; [discriminate|]. destruct (_ || _); discriminate. Qed.

Lemma fold_set_insert_nonempty (l : list Symbol) c :
  c <> [] -> fold_left (fun c s => set_insert (uri s) c) l c <> [].
Proof.
  revert c. induction l as [|s l IH]; intros c Hc; simpl; [exact Hc|].
  apply IH, set_insert_nonempty.
Qed.

(** A class [Bar] of [shapes.py] with its method [m] (and the [contains]
    edge between them), and a call [x.m()] in [main.py] whose receiver is
    a [Foo]. *)
Definition bar_symbol : Symbol :=
  mkSymbol (mkUri "r" "shapes.py" Container "Bar" 1) Container "Bar" "shapes.py" 1 5 None None "class Bar:".

Definition bar_m_symbol : Symbol :=
  mkSymbol (mkUri "r" "shapes.py" Callable "m" 2) Callable "m" "shapes.py" 2 3 None None "def m(self): pass".

Definition foo_m_call : UnresolvedRow :=
  mkUnresolvedRow 1 "codescope://r/main.py#namespace:main@1" "m" (Some "Foo") 0 "main.py" 4 "call" false.

Definition store_bar_m : Store :=
  set_unresolved
    (insert_edge (mkEdge (uri bar_symbol) (uri bar_m_symbol) Contains 1)
       (insert_symbol bar_m_symbol (insert_symbol bar_symbol empty_store)))
    [foo_m_call].

(** Claim C4, as stated, fails: the call [x.m()] with receiver [Foo]
    reaches Step 3, where no symbol named [m] belongs to a [Foo] (the
    spec's filtered set is empty), yet the linker binds it to [Bar.m] and
    [run] stores a [calls] edge to it. *)
Lemma global_step3_receiver_counterexample :
  after_step2 foo_m_call store_bar_m = (None, []) /\
  spec_step3_candidates foo_m_call store_bar_m = [] /\
  decide_ref foo_m_call store_bar_m = Bind (uri bar_m_symbol) /\
  In (mkEdgeRow "codescope://r/main.py#namespace:main@1" (to_uri_string (uri bar_m_symbol)) "calls" 1)
     (edges (run store_bar_m)).
Proof.
  split; [vm_compute; reflexivity|]. split; [vm_compute; reflexivity|].
  split; [vm_compute; reflexivity|]. vm_compute. right. left. reflexivity.
Qed.

(** Claim C4 (amended): a reference that reaches Step 3 (Steps 1 and 2
    left no match and no candidate) is decided on the symbols named
    [ref.name] anywhere, whatever its receiver: none makes it external,
    exactly one binds it to that symbol, several make it ambiguous with
    their URIs as candidates.  So it is bound iff exactly one (parsable)
    symbol bears its name. *)
Theorem global_step3_ignores_receiver (r : UnresolvedRow) (st : Store) :
  after_step2 r st = (None, []) ->
  decide_ref r st
  = match find_symbols_by_name (u_name r) st with
    | [] => External
    | [s] => Bind (uri s)
    | l => Ambiguous (fold_left (fun c s => set_insert (uri s) c) l [])
    end /\
  ((exists u, decide_ref r st = Bind u) <-> exists s, find_symbols_by_name (u_name r) st = [s]).
Proof.
  intros H.
  assert (Hd : decide_ref r st
    = match find_symbols_by_name (u_name r) st with
      | [] => External
      | [s] => Bind (uri s)
      | l => Ambiguous (fold_left (fun c s => set_insert (uri s) c) l [])
      end).
  { unfold decide_ref, step3. rewrite H. simpl.
    destruct (find_symbols_by_name (u_name r) st) as [|s [|s' l]]; simpl; [reflexivity|reflexivity|].
    destruct (fold_left (fun c s0 => set_insert (uri s0) c) l (set_insert (uri s') (set_insert (uri s) []))) eqn:E.
    - exfalso. revert E. apply fold_set_insert_nonempty, set_insert_nonempty.
    - reflexivity. }
  split; [exact Hd|]. rewrite Hd.
  destruct (find_symbols_by_name (u_name r) st) as [|s [|s' l]].
  - split; [intros [u Hu]; discriminate | intros [s0 Hs]; discriminate].
  - split; intros _; eexists; reflexivity.
  - split; [intros [u Hu]; discriminate | intros [s0 Hs]; discriminate].
Qed.

Lemma global_step3_ignores_receiver_witness :
  after_step2 foo_m_call store_bar_m = (None, []) /\
  decide_ref foo_m_call store_bar_m = Bind (uri bar_m_symbol).
Proof.
  assert (H : after_step2 foo_m_call store_bar_m = (None, [])) by (vm_compute; reflexivity).
  split; [exact H|].
  rewrite (proj1 (global_step3_ignores_receiver foo_m_call store_bar_m H)).
  vm_compute. reflexivity.
Defined.

End GlobalLinkerProofs.

(** ** Stage B: the semantic linker *)
Module SemanticLinkerProofs.
Import Uri EdgeModel ListUtil ListUtilFacts Store StoreProofs SemanticLinker.
#[local] Open Scope Q_scope.

Lemma write_match_none r l : fold_left (write_match r) l None = None.
Proof. induction l as [|m l IH]; simpl; [reflexivity|exact IH]. Qed.

Section Writes.
Variables (r : UnresolvedRow) (from : SymbolUri).
Hypothesis Hfrom : Uri.parse (u_from_uri r) = Some from.

Lemma write_match_eq st b m :
  write_match r (Some (st, b)) m
  = match existing_edge from (fst m) st with
    | Some ex =>
        if Qle_bool (clamp01 (snd m)) (confidence ex) then Some (st, b)
        else Some (insert_edge (mkEdge from (fst m) Calls (clamp01 (snd m))) st, true)
    | None => Some (insert_edge (mkEdge from (fst m) Calls (clamp01 (snd m))) st, true)
    end.
Proof. unfold write_match. rewrite Hfrom. reflexivity. Qed.

Lemma write_fold_semantic_writes (top : list (SymbolUri * Q)) :
  forall st b st2 b2,
  fold_left (write_match r) top (Some (st, b)) = Some (st2, b2) ->
  exists ins, semantic_writes from st top st2 ins /\ (b2 = true <-> b = true \/ ins <> []).
Proof.
  induction top as [|m top IH]; intros st b st2 b2 H; cbn [fold_left] in H.
  - injection H as <- <-. exists []. split; [constructor|]. split; [now left | intros [E|E]; [exact E|now contradiction E]].
  - rewrite write_match_eq in H.
    destruct (existing_edge from (fst m) st) as [ex|] eqn:Ex;
      [destruct (Qle_bool (clamp01 (snd m)) (confidence ex)) eqn:Hle|].
    + destruct (IH _ _ _ _ H) as (ins & Hw & Hb). exists ins. split; [|exact Hb].
      apply sw_skip; [|exact Hw]. exists ex. split; [exact Ex|]. now apply Qle_bool_iff.
    + destruct (IH _ _ _ _ H) as (ins & Hw & Hb). eexists. split.
      * apply sw_insert; [|exact Hw]. intros (ex' & Ex' & Hle').
        rewrite Ex in Ex'. injection Ex' as <-. apply Qle_bool_iff in Hle'. congruence.
      * split; [intros _; right; discriminate | intros _; apply Hb; now left].
    + destruct (IH _ _ _ _ H) as (ins & Hw & Hb). eexists. split.
      * apply sw_insert; [|exact Hw]. intros (ex' & Ex' & _). congruence.
      * split; [intros _; right; discriminate | intros _; apply Hb; now left].
Qed.

End Writes.

Lemma score_desc_total a b : score_desc a b = false -> score_desc b a = true.
Proof.
  unfold score_desc. intros H. apply Qle_bool_iff. apply Qlt_le_weak, Qnot_le_lt.
  intros Hle. apply Qle_bool_iff in Hle. congruence.
Qed.

Lemma score_desc_trans a b c :
  score_desc a b = true -> score_desc b c = true -> score_desc a c = true.
Proof.
  unfold score_desc. rewrite !Qle_bool_iff. intros H1 H2. eapply Qle_trans; eassumption.
Qed.

Lemma sorted_impl {A} (R R' : A -> A -> Prop) (l : list A) :
  (forall a b, R a b -> R' a b) -> Sorted R l -> Sorted R' l.
Proof.
  intros HR Hs. induction Hs as [|a l Hs IH Hd]; constructor; [exact IH|].
  destruct Hd; constructor. now apply HR.
Qed.

Lemma sorted_firstn {A} (R : A -> A -> Prop) (k : nat) (l : list A) :
  Sorted R l -> Sorted R (firstn k l).
Proof.
  revert k. induction l as [|a l IH]; intros k Hs; destruct k as [|k]; simpl; [constructor..|].
  apply Sorted_inv in Hs as [Hs Hd]. constructor; [now apply IH|].
  destruct l as [|b l], k as [|k]; simpl; constructor. now inversion Hd.
Qed.

Lemma clamp01_id (q : Q) : 0 <= q -> q <= 1 -> clamp01 q == q.
Proof.
  intros H0 H1. unfold clamp01.
  destruct (Qle_bool q 0) eqn:E; [apply Qle_bool_iff in E; now apply Qle_antisym|].
  destruct (Qle_bool 1 q) eqn:E'; [apply Qle_bool_iff in E'; now apply Qle_antisym|reflexivity].
Qed.

(** A call of [g] in [main.py], and the embedding of the symbol [g] of
    [g.py] with vector [v]. *)
Definition g_uri : SymbolUri := mkUri "r" "g.py" Callable "g" 1.

Definition main_uri : SymbolUri := mkUri "r" "main.py" Namespace "main" 1.

Definition g_call : UnresolvedRow :=
  mkUnresolvedRow 1 "codescope://r/main.py#namespace:main@1" "g" None 0 "main.py" 2 "call" false.

Definition g_store (v : list Q) : Store :=
  set_unresolved (set_embeddings empty_store [mkEmbeddingRow (to_uri_string g_uri) v]) [g_call].

(** Claim C5, as stated, fails for a threshold below 0 (set through the
    public [with_threshold]): the call-site vector [1, 0] scores -1 against
    [g]'s vector [-1, 0], passes the threshold -1, and the edge stored for
    it has confidence 0, not -1, since [Edge::with_confidence] clamps. *)
Lemma semantic_confidence_counterexample :
  cosine_similarity [1; 0] [-1; 0] == -1 /\
  top_matches (-1) (cached_symbols (g_store [-1; 0])) [1; 0] = [(g_uri, -1)] /\
  option_map edges (process_ref (-1) (cached_symbols (g_store [-1; 0])) g_call [1; 0] (g_store [-1; 0]))
  = Some [mkEdgeRow "codescope://r/main.py#namespace:main@1" (to_uri_string g_uri) "calls" 0].
Proof. split; [reflexivity|]. split; vm_compute; reflexivity. Qed.

(** Claim C5 (amended): for a reference whose [from_uri] parses, a
    successful [process_ref] (the loop body of [SemanticLinker::run])
    - keeps as [top] only cached symbols scoring at least the threshold,
      sorted by descending score, at most 5 of them, each at least as good
      as every qualifying match left out (all of them when fewer than 5);
    - writes them in order as [calls] edges of confidence [clamp01 score]
      (the score itself when [0 <= threshold] and the score is at most 1),
      skipping one when the stored edge for its triple already has a
      confidence at least that ([semantic_writes]);
    - then deletes the unresolved row if some edge was inserted, and marks
      it external otherwise. *)
Theorem semantic_linker_contract (thr : Q) (cached : list (SymbolUri * list Q)) (r : UnresolvedRow)
  (vector : list Q) (st st' : Store) (from : SymbolUri) :
  Uri.parse (u_from_uri r) = Some from ->
  process_ref thr cached r vector st = Some st' ->
  let top := top_matches thr cached vector in
  let qualifying := filter (fun m => Qle_bool thr (snd m)) (scored cached vector) in
  (forall m, In m top -> In m (scored cached vector) /\ thr <= snd m) /\
  Sorted (fun a b => snd b <= snd a) top /\
  (List.length top <= 5)%nat /\
  (forall m, In m qualifying -> In m top \/ forall m', In m' top -> snd m <= snd m') /\
  ((List.length top < 5)%nat -> forall m, In m qualifying -> In m top) /\
  (forall m, In m top -> 0 <= thr -> snd m <= 1 -> clamp01 (snd m) == snd m) /\
  exists st2 ins,
    semantic_writes from (insert_callsite_embedding (u_id r) vector st) top st2 ins /\
    st' = match ins with
          | [] => mark_unresolved_as_external (u_id r) st2
          | _ => delete_unresolved (u_id r) st2
          end.
Proof.
  intros Hf Hp top qualifying.
  set (sorted := sort_by score_desc qualifying).
  assert (Hperm : Permutation sorted qualifying) by apply sort_by_perm.
  assert (Hsort : Sorted (fun a b => score_desc a b = true) sorted)
    by (apply sort_by_sorted, score_desc_total).
  assert (Htop : top = firstn 5 sorted) by reflexivity.
  assert (Hin_top : forall m, In m top -> In m qualifying).
  { intros m Hm. rewrite Htop in Hm. apply (Permutation_in _ Hperm).
    rewrite <- (firstn_skipn 5 sorted). apply in_or_app. now left. }
  assert (Hss : StronglySorted (fun a b => score_desc a b = true) sorted).
  { apply Sorted_StronglySorted; [intros a b c; apply score_desc_trans | exact Hsort]. }
  split.
  { intros m Hm. apply Hin_top, filter_In in Hm as [Hm Ht]. split; [exact Hm|]. now apply Qle_bool_iff. }
  split.
  { rewrite Htop. apply (sorted_impl (fun a b => score_desc a b = true)); [|now apply sorted_firstn].
    intros a b H. now apply Qle_bool_iff. }
  split; [rewrite Htop, length_firstn; lia|].
  split.
  { intros m Hm. apply (Permutation_in _ (Permutation_sym Hperm)) in Hm.
    rewrite <- (firstn_skipn 5 sorted) in Hm. apply in_app_or in Hm as [Hm|Hm].
    - left. now rewrite Htop.
    - right. intros m' Hm'. rewrite Htop in Hm'.
      apply Qle_bool_iff. exact (firstn_skipn_sorted _ sorted 5 Hss m' m Hm' Hm). }
  split.
  { intros Hlt m Hm. rewrite Htop in Hlt |- *. rewrite length_firstn in Hlt.
    rewrite firstn_all2 by lia. exact (Permutation_in _ (Permutation_sym Hperm) Hm). }
  split.
  { intros m Hm H0 H1. apply clamp01_id; [|exact H1].
    apply Hin_top, filter_In in Hm as [_ Ht]. apply Qle_bool_iff in Ht. eapply Qle_trans; eassumption. }
  unfold process_ref in Hp.
  destruct (fold_left (write_match r) (top_matches thr cached vector)
              (Some (insert_callsite_embedding (u_id r) vector st, false))) as [[st2 b]|] eqn:E;
    [|discriminate].
  destruct (write_fold_semantic_writes r from Hf _ _ _ _ _ E) as (ins & Hw & Hb).
  exists st2, ins. split; [exact Hw|].
  destruct b, ins as [|e ins]; injection Hp as <-; try reflexivity.
  - destruct (proj1 Hb eq_refl) as [E'|E']; [discriminate|now contradiction E'].
  - assert (F : false = true) by (apply Hb; right; discriminate). discriminate.
Qed.

Lemma semantic_linker_contract_witness :
  Uri.parse (u_from_uri g_call) = Some main_uri /\
  process_ref default_threshold (cached_symbols (g_store [1; 0])) g_call [1; 0] (g_store [1; 0])
  = Some (delete_unresolved 1 (insert_edge (with_confidence main_uri g_uri Calls 1)
                                 (insert_callsite_embedding 1 [1; 0] (g_store [1; 0])))) /\
  Nat.le (List.length (top_matches default_threshold (cached_symbols (g_store [1; 0])) [1; 0])) 5.
Proof.
  assert (H1 : Uri.parse (u_from_uri g_call) = Some main_uri) by (vm_compute; reflexivity).
  assert (H2 : process_ref default_threshold (cached_symbols (g_store [1; 0])) g_call [1; 0] (g_store [1; 0])
               = Some (delete_unresolved 1 (insert_edge (with_confidence main_uri g_uri Calls 1)
                                              (insert_callsite_embedding 1 [1; 0] (g_store [1; 0])))))
    by (vm_compute; reflexivity).
  split; [exact H1|]. split; [exact H2|].
  exact (proj1 (proj2 (proj2 (semantic_linker_contract _ _ _ _ _ _ _ H1 H2)))).
Defined.

End SemanticLinkerProofs.

(** ** The document chunker *)
Module ChunkerProofs.
Import Chunker.
#[local] Open Scope nat_scope.

Lemma substring_0_length (n : nat) (s : string) :
  n <= String.length s -> String.length (substring 0 n s) = n.
Proof.
  revert n. induction s as [|a s IH]; intros n H; destruct n as [|n]; simpl in *; try lia.
  f_equal. apply IH. lia.
Qed.

Definition big_enough (ch : Chunk) : Prop := MIN_CHUNK_SIZE <= String.length (ccontent ch).

Section Loop.
Variable c : DocumentChunker.
Hypothesis Hmin : MIN_CHUNK_SIZE <= chunk_size c.

Lemma chunk_step_big_enough idx line st :
  Forall big_enough (chunks st) -> Forall big_enough (chunks (chunk_step c idx line st)).
Proof.
  intros H. unfold chunk_step. cbv zeta.
  generalize ((if String.eqb (current_chunk st) EmptyString then current_chunk st
               else current_chunk st ++ nl) ++ line) as cur. intros cur.
  destruct (Nat.leb (chunk_size c) (String.length cur)) eqn:E1; [|exact H].
  apply Nat.leb_le in E1.
  generalize (find_break_point c cur) as b. intros b.
  destruct (Nat.ltb b (String.length cur) && Nat.ltb MIN_CHUNK_SIZE b) eqn:E2; simpl;
    apply Forall_app; (split; [exact H|]); constructor; try constructor; unfold big_enough; simpl.
  - apply andb_true_iff in E2 as [E2 E3]. apply Nat.ltb_lt in E2, E3.
    rewrite substring_0_length; lia.
  - lia.
Qed.

Lemma chunk_loop_big_enough ls : forall idx st,
  Forall big_enough (chunks st) -> Forall big_enough (chunks (chunk_loop c idx ls st)).
Proof.
  induction ls as [|l ls IH]; intros idx st H; simpl; [exact H|].
  apply IH, chunk_step_big_enough, H.
Qed.

End Loop.

Fixpoint rep (n : nat) (a : ascii) : string :=
  match n with
  | O => EmptyString
  | S k => String a (rep k a)
  end.

(** A line of 1000 bytes followed by a line of 10. *)
Definition long_then_short : string := rep 1000 "a" ++ nl ++ rep 10 "b".

(** Claim C7, as stated, fails: the first line fills a whole chunk with no
    break point, so it is force-split; the remaining 10-byte tail (and the
    newline before it) is below [MIN_CHUNK_SIZE] and is dropped.  No chunk
    holds the byte 'b' of the input. *)
Lemma chunker_coverage_counterexample :
  String.length long_then_short = 1011 /\
  split_into_chunks new long_then_short = [mkChunk (rep 1000 "a") 1 1] /\
  RStr.has_char "b" long_then_short = true /\
  RStr.has_char "b" (rep 1000 "a") = false.
Proof. split; [reflexivity|]. split; [vm_compute; reflexivity|]. split; vm_compute; reflexivity. Qed.

(** Claim C7 (amended): for a chunker whose [chunk_size] is at least
    [MIN_CHUNK_SIZE] (as [new] and [with_settings] make it), every chunk
    has at least [MIN_CHUNK_SIZE] bytes, except the single chunk of a file
    of at most [chunk_size] bytes, which is the whole content.  Coverage of
    the input is not guaranteed: a tail shorter than [MIN_CHUNK_SIZE] is
    dropped, and the newline between force-split chunks is in none. *)
Theorem split_into_chunks_min_size (c : DocumentChunker) (content : string) :
  MIN_CHUNK_SIZE <= chunk_size c ->
  forall ch, In ch (split_into_chunks c content) ->
    MIN_CHUNK_SIZE <= String.length (ccontent ch) \/
    (String.length content <= chunk_size c /\ split_into_chunks c content = [ch] /\ ccontent ch = content).
Proof.
  intros Hmin ch Hin. unfold split_into_chunks in *. cbv zeta in *.
  destruct (lines content) as [|l ls]; [contradiction|].
  destruct (Nat.leb (String.length content) (chunk_size c)) eqn:E.
  - destruct Hin as [<-|[]]. right. apply Nat.leb_le in E. now repeat split.
  - left.
    assert (Hall : Forall big_enough (chunks (chunk_loop c 0 (l :: ls) (mkLoop [] EmptyString 1 0))))
      by (apply chunk_loop_big_enough; [exact Hmin | constructor]).
    destruct (negb _ && _) eqn:E2.
    + apply in_app_or in Hin as [Hin|[<-|[]]].
      * exact (proj1 (Forall_forall _ _) Hall ch Hin).
      * apply andb_true_iff in E2 as [_ E2]. now apply Nat.leb_le in E2.
    + exact (proj1 (Forall_forall _ _) Hall ch Hin).
Qed.

Lemma with_settings_min (cs ov : nat) : MIN_CHUNK_SIZE <= chunk_size (with_settings cs ov).
Proof. simpl. lia. Qed.

Lemma split_into_chunks_min_size_witness :
  MIN_CHUNK_SIZE <= chunk_size new /\
  In (mkChunk (rep 1000 "a") 1 1) (split_into_chunks new long_then_short) /\
  MIN_CHUNK_SIZE <= String.length (rep 1000 "a").
Proof.
  assert (H1 : MIN_CHUNK_SIZE <= chunk_size new) by (vm_compute; lia).
  assert (H2 : In (mkChunk (rep 1000 "a") 1 1) (split_into_chunks new long_then_short))
    by (vm_compute; left; reflexivity).
  split; [exact H1|]. split; [exact H2|].
  destruct (split_into_chunks_min_size new long_then_short H1 _ H2) as [H|[H _]];
    [exact H | vm_compute in H; lia].
Defined.

End ChunkerProofs.

(** ** The namespace symbol of a parsed file *)
Module QueryAdapterProofs.
Import Uri Store QueryAdapter.

Definition is_namespace (s : Symbol) : bool := SymbolKind_eqb (skind s) Namespace.

Lemma match_symbols_no_namespace repo path caps :
  filter is_namespace (match_symbols repo path caps) = [].
Proof.
  unfold match_symbols, callable_symbol, container_symbol.
  rewrite !filter_app.
  destruct (cap_get ("callable" ++ ".name") caps), (cap_get ("method" ++ ".name") caps),
    (cap_get "container.name" caps); reflexivity.
Qed.

(** The namespace symbol of [QueryAdapter::parse_file]: whatever the query
    matches, it is the first symbol and the only [Namespace] one; it is
    named after the basename of the path with one trailing [.py] removed
    (other extensions are kept), starts at line 1 and ends at the root
    node's end row plus one. *)
Lemma parse_file_namespace (repo path : string) (root_end_row : N) (matches : list Captures) :
  filter is_namespace (parse_file_symbols repo path root_end_row matches)
  = [namespace_symbol repo path root_end_row] /\
  hd_error (parse_file_symbols repo path root_end_row matches) = Some (namespace_symbol repo path root_end_row) /\
  sname (namespace_symbol repo path root_end_row)
  = match RStr.strip_suffix ".py" (RStr.basename path) with
    | Some m => m
    | None => RStr.basename path
    end /\
  uri (namespace_symbol repo path root_end_row) = mkUri repo path Namespace (module_name path) 1 /\
  line_start (namespace_symbol repo path root_end_row) = 1%N /\
  line_end (namespace_symbol repo path root_end_row) = row_line root_end_row.
Proof.
  repeat split; try reflexivity.
  unfold parse_file_symbols. simpl. f_equal.
  induction matches as [|m ms IH]; simpl; [reflexivity|].
  rewrite filter_app, match_symbols_no_namespace. exact IH.
Qed.

(** Claim C8 is a defect of [QueryAdapter::parse_file]: for [src/main.rs]
    (a Rust file, handled by [QueryAdapter::rust]), whatever the parse
    tree and the query matches, the one [Namespace] symbol is named
    [main.rs], not the file stem [main], because only a [.py] suffix is
    stripped. *)
Theorem parse_file_namespace_not_stem (repo : string) (root_end_row : N) (matches : list Captures) :
  filter is_namespace (parse_file_symbols repo "src/main.rs" root_end_row matches)
  = [namespace_symbol repo "src/main.rs" root_end_row] /\
  sname (namespace_symbol repo "src/main.rs" root_end_row) = "main.rs" /\
  file_stem "src/main.rs" = "main" /\
  sname (namespace_symbol repo "src/main.rs" root_end_row) <> file_stem "src/main.rs".
Proof.
  destruct (parse_file_namespace repo "src/main.rs" root_end_row matches) as [H1 [_ [H3 _]]].
  split; [exact H1|]. rewrite H3. split; [reflexivity|]. split; [reflexivity|].
  vm_compute. discriminate.
Qed.

End QueryAdapterProofs.

Module ExtraFacts.
Import Uri EdgeModel ListUtil ListUtilFacts Store RStr RStrFacts StoreOps.

(** URIs that [SymbolUri::parse] reads back. *)
Definition uri_ok (u : SymbolUri) : bool :=
  negb (has_char "/" (repo u)) && negb (has_char "#" (repo u)) && negb (has_char "#" (path u))
  && (line u <? 2 ^ 32)%N.

Lemma parse_to_uri_string (u : SymbolUri) : uri_ok u = true -> Uri.parse (to_uri_string u) = Some u.
Proof.
  intros H. unfold uri_ok in H.
  apply andb_true_iff in H as [H Hl]. apply andb_true_iff in H as [H Hp].
  apply andb_true_iff in H as [Hr1 Hr2].
  apply negb_true_iff in Hr1, Hr2, Hp. apply N.ltb_lt in Hl.
  destruct u as [r p k n l]; simpl in *.
  unfold parse, to_uri_string; simpl repo; simpl path; simpl kind; simpl name; simpl line.
  rewrite strip_prefix_app.
  change ("/" ++ ?x) with (String "/" x). change ("#" ++ ?x) with (String "#" x).
  change (":" ++ ?x) with (String ":" x). change ("@" ++ ?x) with (String "@" x).
  replace (r ++ String "/" (p ++ String "#" (kind_as_str k ++ String ":" (n ++ String "@" (U32.show l)))))
    with ((r ++ String "/" p) ++ String "#" (kind_as_str k ++ String ":" (n ++ String "@" (U32.show l))))
    by (rewrite append_assoc_s; reflexivity).
  rewrite split_once_app
    by (rewrite has_char_app; simpl; rewrite Hr2, Hp; reflexivity).
  rewrite split_once_app by exact Hr1.
  replace (kind_as_str k ++ String ":" (n ++ String "@" (U32.show l)))
    with ((kind_as_str k ++ String ":" n) ++ String "@" (U32.show l))
    by (rewrite append_assoc_s; reflexivity).
  rewrite rsplit_once_app
    by (apply U32Facts.to_digits_no_char; [simpl; lia | reflexivity]).
  rewrite split_once_app by apply UriProofs.kind_as_str_no_colon.
  rewrite UriProofs.kind_from_as_str, U32Facts.parse_show by exact Hl.
  reflexivity.
Qed.

Lemma to_uri_string_inj (u v : SymbolUri) :
  uri_ok u = true -> uri_ok v = true -> to_uri_string u = to_uri_string v -> u = v.
Proof.
  intros Hu Hv E. apply parse_to_uri_string in Hu, Hv. rewrite E in Hu. congruence.
Qed.

(** The row [insert_symbol] writes. *)
Definition symbol_row (s : Symbol) : SymbolRow :=
  mkSymbolRow (to_uri_string (uri s)) (kind_as_str (skind s)) (sname s) (spath s)
    (line_start s) (line_end s) (doc s) (signature s) (content s).

Lemma insert_symbol_symbols (s : Symbol) (st : Store) :
  symbols (insert_symbol s st)
  = app (filter (fun r => negb (String.eqb (s_uri r) (to_uri_string (uri s)))) (symbols st)) [symbol_row s].
Proof. reflexivity. Qed.

Lemma row_to_symbol_row (s : Symbol) : uri_ok (uri s) = true -> row_to_symbol (symbol_row s) = Some s.
Proof.
  intros H. unfold row_to_symbol, symbol_row; simpl.
  rewrite parse_to_uri_string by exact H. rewrite UriProofs.kind_from_as_str. now destruct s.
Qed.

Lemma row_to_symbol_fields (r : SymbolRow) (s : Symbol) :
  row_to_symbol r = Some s ->
  Uri.parse (s_uri r) = Some (uri s) /\ kind_from_str (s_kind r) = Some (skind s) /\
  sname s = s_name r /\ spath s = s_path r /\ line_start s = s_line_start r /\
  line_end s = s_line_end r /\ doc s = s_doc r /\ signature s = s_signature r /\ content s = s_content r.
Proof.
  unfold row_to_symbol. destruct (Uri.parse (s_uri r)), (kind_from_str (s_kind r)); try discriminate.
  intros H. injection H as <-. repeat split.
Qed.

Lemma edge_kind_from_as_str (k : EdgeKind) : edge_kind_from_str (edge_kind_as_str k) = Some k.
Proof. destruct k; reflexivity. Qed.

Lemma row_to_edge_fields (r : EdgeRow) (e : Edge) :
  row_to_edge r = Some e ->
  Uri.parse (e_from_uri r) = Some (from_uri e) /\ Uri.parse (e_to_uri r) = Some (to_uri e) /\
  edge_kind_from_str (e_kind r) = Some (ekind e) /\ confidence e = clamp01 (e_confidence r).
Proof.
  unfold row_to_edge.
  destruct (Uri.parse (e_from_uri r)), (Uri.parse (e_to_uri r)), (edge_kind_from_str (e_kind r));
    try discriminate.
  intros H. injection H as <-. repeat split.
Qed.

Lemma row_to_edge_row (e : Edge) :
  uri_ok (from_uri e) = true -> uri_ok (to_uri e) = true ->
  row_to_edge (edge_row e) = Some (with_confidence (from_uri e) (to_uri e) (ekind e) (confidence e)).
Proof.
  intros Hf Ht. unfold row_to_edge, edge_row; simpl.
  rewrite !parse_to_uri_string by assumption. now rewrite edge_kind_from_as_str.
Qed.

Lemma clamp01_range (c : Q) : 0 <= clamp01 c /\ clamp01 c <= 1.
Proof.
  unfold clamp01. destruct (Qle_bool c 0) eqn:E0; [lra|].
  destruct (Qle_bool 1 c) eqn:E1; [lra|].
  apply Bool.not_true_iff_false in E0, E1. rewrite Qle_bool_iff in E0, E1.
  apply Qnot_le_lt in E0, E1. lra.
Qed.

(** List helpers. *)
Lemma find_app {A} (f : A -> bool) (l m : list A) :
  find f (app l m) = match find f l with Some x => Some x | None => find f m end.
Proof. induction l as [|x l IH]; simpl; [reflexivity|]. destruct (f x); [reflexivity | exact IH]. Qed.

Lemma find_filter_negb {A} (f : A -> bool) (l : list A) : find f (filter (fun x => negb (f x)) l) = None.
Proof. induction l as [|x l IH]; simpl; [reflexivity|]. destruct (f x) eqn:E; simpl; [exact IH|]. now rewrite E. Qed.

Lemma find_filter_ext {A} (f g : A -> bool) (l : list A) :
  (forall x, f x = true -> g x = true) -> find f (filter g l) = find f l.
Proof.
  intros H. induction l as [|x l IH]; simpl; [reflexivity|].
  destruct (g x) eqn:Eg; simpl.
  - destruct (f x); [reflexivity | exact IH].
  - destruct (f x) eqn:Ef; [rewrite (H x Ef) in Eg; discriminate | exact IH].
Qed.

Lemma in_filter_map {A B} (f : A -> option B) (l : list A) (x : A) (y : B) :
  In x l -> f x = Some y -> In y (filter_map f l).
Proof.
  induction l as [|a l IH]; simpl; [contradiction|]. intros [<-|H] E.
  - rewrite E. now left.
  - destruct (f a); [right|]; now apply IH.
Qed.

Lemma in_filter_map_inv {A B} (f : A -> option B) (l : list A) (y : B) :
  In y (filter_map f l) -> exists x, In x l /\ f x = Some y.
Proof.
  induction l as [|a l IH]; simpl; [contradiction|].
  destruct (f a) eqn:E.
  - intros [<-|H]; [now exists a; split; [left|]|].
    destruct (IH H) as [x [Hx Hf]]. exists x. split; [now right | exact Hf].
  - intros H. destruct (IH H) as [x [Hx Hf]]. exists x. split; [now right | exact Hf].
Qed.

Lemma filter_map_app {A B} (f : A -> option B) (l m : list A) :
  filter_map f (app l m) = app (filter_map f l) (filter_map f m).
Proof. induction l as [|a l IH]; simpl; [reflexivity|]. destruct (f a); simpl; now rewrite IH. Qed.

Lemma filter_map_length_le {A B} (f : A -> option B) (l : list A) :
  (List.length (filter_map f l) <= List.length l)%nat.
Proof. induction l as [|a l IH]; simpl; [lia|]. destruct (f a); simpl; lia. Qed.

Lemma filter_map_strongly_sorted {A B} (f : A -> option B) (R : A -> A -> Prop) (R' : B -> B -> Prop)
  (l : list A) :
  (forall a a' b b', f a = Some b -> f a' = Some b' -> R a a' -> R' b b') ->
  StronglySorted R l -> StronglySorted R' (filter_map f l).
Proof.
  intros HR. induction l as [|a l IH]; intros Hs; simpl; [constructor|].
  apply StronglySorted_inv in Hs as [Hl Ha].
  destruct (f a) as [b|] eqn:E; [|now apply IH].
  constructor; [now apply IH|].
  apply Forall_forall. intros b' Hb'. apply in_filter_map_inv in Hb' as [a' [Ha' Hf]].
  apply (HR a a'); [exact E | exact Hf | ]. rewrite Forall_forall in Ha. now apply Ha.
Qed.

(** ** Sample data: a function [a] of [a.py] that calls [b] of [b.py]. *)
Definition blank_store : Store := mkStore [] [] [] [] [] [] [] [] [].

Definition a_uri : SymbolUri := mkUri "r" "a.py" Callable "a" 1.

Definition b_uri : SymbolUri := mkUri "r" "b.py" Callable "b" 2.

Definition a_symbol : Symbol := mkSymbol a_uri Callable "a" "a.py" 1 2 None None "def a(): b()".

Definition a_calls_b : Edge := mkEdge a_uri b_uri Calls (1 # 2).

Definition ab_store : Store := insert_edge a_calls_b (insert_symbol a_symbol blank_store).

End ExtraFacts.

Module BlobProofs.
Import Blob.
#[local] Open Scope N_scope.

Lemma from_to_le_bytes (w : N) :
  w < 2 ^ 32 ->
  from_le_bytes (w mod 256) ((w / 256) mod 256) ((w / 65536) mod 256) ((w / 16777216) mod 256) = w.
Proof.
  intros H. unfold from_le_bytes.
  assert (A2 : w / 65536 = w / 256 / 256) by (rewrite N.Div0.div_div; reflexivity).
  assert (A3 : w / 16777216 = w / 256 / 256 / 256) by (rewrite !N.Div0.div_div; reflexivity).
  rewrite A2, A3.
  pose proof (N.div_mod w 256 ltac:(lia)) as E1.
  pose proof (N.div_mod (w / 256) 256 ltac:(lia)) as E2.
  pose proof (N.div_mod (w / 256 / 256) 256 ltac:(lia)) as E3.
  assert (B : w / 256 / 256 / 256 < 256).
  { rewrite !N.Div0.div_div. apply N.Div0.div_lt_upper_bound. lia. }
  rewrite (N.mod_small (w / 256 / 256 / 256)) by exact B.
  lia.
Qed.

(** The blob [insert_embedding] writes for a vector (four little-endian
    bytes per [f32] bit pattern) is read back by [get_embedding] as the
    same vector. *)
Theorem embedding_blob_roundtrip (v : list N) :
  Forall (fun w => w < 2 ^ 32) v -> decode (encode v) = Some v.
Proof.
  induction v as [|w v IH]; intros H; [reflexivity|].
  apply Forall_cons_iff in H as [Hw Hv]. simpl. rewrite IH by exact Hv.
  now rewrite from_to_le_bytes.
Qed.

Lemma decode_none_len (n : nat) (b : list N) :
  (List.length b <= n)%nat -> (decode b = None <-> (List.length b mod 4 <> 0)%nat).
Proof.
  revert b. induction n as [|n IH]; intros b Hn.
  - destruct b; simpl in Hn; [|lia]. simpl. split; [discriminate | intros H; now contradiction H].
  - destruct b as [|b0 [|b1 [|b2 [|b3 r]]]];
      [cbn; split; intros H; [discriminate H | now contradiction H]
      |cbn; split; intros H; [intros E; discriminate E | reflexivity]
      |cbn; split; intros H; [intros E; discriminate E | reflexivity]
      |cbn; split; intros H; [intros E; discriminate E | reflexivity]|].
    cbn [decode List.length]. simpl in Hn. specialize (IH r ltac:(lia)).
    replace (S (S (S (S (List.length r)))) mod 4)%nat with (List.length r mod 4)%nat.
    + destruct (decode r); split; intros H.
      * discriminate.
      * exfalso. apply IH in H. discriminate.
      * apply IH. reflexivity.
      * reflexivity.
    + replace (S (S (S (S (List.length r)))))%nat with (List.length r + 1 * 4)%nat by lia.
      now rewrite Nat.Div0.mod_add.
Qed.

(** Reading a blob back panics (at [chunk[1..3]] of the last chunk)
    exactly when its length is not a multiple of 4. *)
Theorem embedding_blob_decode_fails (b : list N) :
  decode b = None <-> (List.length b mod 4 <> 0)%nat.
Proof. now apply (decode_none_len (List.length b)). Qed.
Lemma embedding_blob_roundtrip_witness :
  Forall (fun w => w < 2 ^ 32) [1; 70000; 4294967295] /\
  decode (encode [1; 70000; 4294967295]) = Some [1; 70000; 4294967295].
Proof.
  assert (H : Forall (fun w => w < 2 ^ 32) [1; 70000; 4294967295])
    by (repeat constructor).
  split; [exact H | exact (embedding_blob_roundtrip _ H)].
Defined.

End BlobProofs.

Module StoreOpsProofs.
Import Uri EdgeModel ListUtil ListUtilFacts Store StoreOps ExtraFacts.

Lemma find_insert_last {A} (key : A -> string) (l : list A) (x : A) (k : string) :
  key x = k ->
  find (fun r => String.eqb (key r) k) (app (filter (fun r => negb (String.eqb (key r) k)) l) [x]) = Some x.
Proof.
  intros Hx. rewrite find_app, (find_filter_negb (fun r => String.eqb (key r) k)). simpl.
  now rewrite Hx, String.eqb_refl.
Qed.

Lemma find_insert_other {A} (key : A -> string) (l : list A) (x : A) (k k' : string) :
  key x = k -> k' <> k ->
  find (fun r => String.eqb (key r) k') (app (filter (fun r => negb (String.eqb (key r) k)) l) [x])
  = find (fun r => String.eqb (key r) k') l.
Proof.
  intros Hx Hk. rewrite find_app, find_filter_ext.
  - destruct (find _ l); [reflexivity|]. simpl. rewrite Hx.
    destruct (String.eqb_spec k k'); [congruence | reflexivity].
  - intros r Hr. apply String.eqb_eq in Hr. rewrite Hr.
    destruct (String.eqb_spec k' k); [congruence | reflexivity].
Qed.

(** [insert_embedding] then [get_embedding]. *)
Theorem embedding_insert_get (u u' : SymbolUri) (v : list Q) (st : Store) :
  to_uri_string u' <> to_uri_string u ->
  get_embedding u (insert_embedding u v st) = Some v /\
  get_embedding u' (insert_embedding u v st) = get_embedding u' st.
Proof.
  intros Hne. unfold get_embedding, insert_embedding. simpl. split.
  - now rewrite (find_insert_last emb_uri).
  - now rewrite (find_insert_other emb_uri).
Qed.

(** [insert_symbol] then the lookups. *)
Theorem insert_symbol_lookup (s : Symbol) (u' : SymbolUri) (st : Store) :
  uri_ok (uri s) = true -> to_uri_string u' <> to_uri_string (uri s) ->
  let st' := insert_symbol s st in
  get_symbol (uri s) st' = Some (Some s) /\ get_symbol u' st' = get_symbol u' st /\
  In s (find_symbols_by_name (sname s) st') /\ In s (find_symbols_in_file (spath s) st') /\
  In s (find_symbols_by_kind (skind s) st').
Proof.
  intros Hok Hne st'. subst st'.
  assert (Hrow : In (symbol_row s) (symbols (insert_symbol s st))).
  { rewrite insert_symbol_symbols. apply in_or_app. right. now left. }
  pose proof (row_to_symbol_row s Hok) as Hr.
  unfold get_symbol. rewrite insert_symbol_symbols.
  rewrite (find_insert_last s_uri) by reflexivity. rewrite Hr.
  rewrite (find_insert_other s_uri) by (reflexivity || exact Hne).
  split; [reflexivity|]. split; [reflexivity|].
  split; [|split].
  - apply (in_filter_map _ _ (symbol_row s)); [|exact Hr].
    apply filter_In. split; [exact Hrow | apply String.eqb_refl].
  - apply (in_filter_map _ _ (symbol_row s)); [|exact Hr].
    apply (Permutation_in _ (Permutation_sym (sort_by_perm _ _))).
    apply filter_In. split; [exact Hrow | apply String.eqb_refl].
  - apply (in_filter_map _ _ (symbol_row s)); [|exact Hr].
    apply filter_In. split; [exact Hrow | apply String.eqb_refl].
Qed.

Lemma line_le_total (a b : SymbolRow) :
  (s_line_start a <=? s_line_start b)%N = false -> (s_line_start b <=? s_line_start a)%N = true.
Proof. intros H. apply N.leb_gt in H. apply N.leb_le. lia. Qed.

(** What the symbol lookups return. *)
Theorem symbol_lookups_select (st : Store) :
  (forall n s, In s (find_symbols_by_name n st) -> sname s = n) /\
  (forall n p s, In s (find_symbols_by_name_and_file n p st) -> sname s = n /\ spath s = p) /\
  (forall k s, In s (find_symbols_by_kind k st) -> skind s = k) /\
  (forall p, Forall (fun s => spath s = p) (find_symbols_in_file p st) /\
             Sorted (fun a b => (line_start a <= line_start b)%N) (find_symbols_in_file p st)).
Proof.
  split; [|split; [|split]].
  - intros n s H. apply in_filter_map_inv in H as [r [Hr Hs]].
    apply filter_In in Hr as [_ E]. apply String.eqb_eq in E.
    apply row_to_symbol_fields in Hs. intuition congruence.
  - intros n p s H. apply in_filter_map_inv in H as [r [Hr Hs]].
    apply filter_In in Hr as [_ E]. apply andb_true_iff in E as [E1 E2].
    apply String.eqb_eq in E1, E2.
    apply row_to_symbol_fields in Hs. intuition congruence.
  - intros k s H. apply in_filter_map_inv in H as [r [Hr Hs]].
    apply filter_In in Hr as [_ E]. apply String.eqb_eq in E.
    apply row_to_symbol_fields in Hs as [_ [Hk _]]. rewrite E, UriProofs.kind_from_as_str in Hk.
    congruence.
  - intros p. split.
    + apply Forall_forall. intros s H. apply in_filter_map_inv in H as [r [Hr Hs]].
      apply (Permutation_in _ (sort_by_perm _ _)) in Hr.
      apply filter_In in Hr as [_ E]. apply String.eqb_eq in E.
      apply row_to_symbol_fields in Hs. intuition congruence.
    + apply StronglySorted_Sorted.
      apply (filter_map_strongly_sorted _ (fun a b => (s_line_start a <=? s_line_start b)%N = true)).
      * intros a a' b b' Ha Hb' H. apply row_to_symbol_fields in Ha, Hb'.
        apply N.leb_le in H. intuition congruence.
      * apply Sorted_StronglySorted.
        -- intros x y z H1 H2. apply N.leb_le in H1, H2. apply N.leb_le. lia.
        -- apply sort_by_sorted, line_le_total.
Qed.

(** [insert_edge] then the edge lookups. *)
Theorem insert_edge_lookup (e : Edge) (st : Store) :
  uri_ok (from_uri e) = true -> uri_ok (to_uri e) = true ->
  let e' := with_confidence (from_uri e) (to_uri e) (ekind e) (confidence e) in
  let st' := insert_edge e st in
  In e' (get_edges_from (from_uri e) st') /\ In e' (get_edges_to (to_uri e) st') /\
  In e' (get_edges_by_kind (ekind e) st') /\
  (0 <= confidence e -> confidence e <= 1 -> confidence e' == confidence e).
Proof.
  intros Hf Ht e' st'.
  assert (Hrow : In (edge_row e) (edges st')).
  { subst st'. unfold insert_edge. simpl. apply in_or_app. right. now left. }
  pose proof (row_to_edge_row e Hf Ht) as Hr.
  split; [|split; [|split]].
  - apply (in_filter_map _ _ (edge_row e)); [|exact Hr].
    apply filter_In. split; [exact Hrow | apply String.eqb_refl].
  - apply (in_filter_map _ _ (edge_row e)); [|exact Hr].
    apply filter_In. split; [exact Hrow | apply String.eqb_refl].
  - apply (in_filter_map _ _ (edge_row e)); [|exact Hr].
    apply filter_In. split; [exact Hrow | apply String.eqb_refl].
  - intros H0 H1. subst e'. simpl. now apply SemanticLinkerProofs.clamp01_id.
Qed.

(** What the edge lookups return. *)
Theorem edge_lookups_select (st : Store) (u : SymbolUri) :
  uri_ok u = true ->
  (forall e, In e (get_edges_from u st) -> from_uri e = u /\ 0 <= confidence e <= 1) /\
  (forall e, In e (get_edges_to u st) -> to_uri e = u /\ 0 <= confidence e <= 1) /\
  (forall k e, In e (get_edges_by_kind k st) -> ekind e = k /\ 0 <= confidence e <= 1).
Proof.
  intros Hu. split; [|split].
  - intros e H. apply in_filter_map_inv in H as [r [Hr He]].
    apply filter_In in Hr as [_ E]. apply String.eqb_eq in E.
    apply row_to_edge_fields in He as [Hp [_ [_ Hc]]]. rewrite E, parse_to_uri_string in Hp by exact Hu.
    split; [congruence|]. rewrite Hc. apply clamp01_range.
  - intros e H. apply in_filter_map_inv in H as [r [Hr He]].
    apply filter_In in Hr as [_ E]. apply String.eqb_eq in E.
    apply row_to_edge_fields in He as [_ [Hp [_ Hc]]]. rewrite E, parse_to_uri_string in Hp by exact Hu.
    split; [congruence|]. rewrite Hc. apply clamp01_range.
  - intros k e H. apply in_filter_map_inv in H as [r [Hr He]].
    apply filter_In in Hr as [_ E]. apply String.eqb_eq in E.
    apply row_to_edge_fields in He as [_ [_ [Hk Hc]]]. rewrite E, edge_kind_from_as_str in Hk.
    split; [congruence|]. rewrite Hc. apply clamp01_range.
Qed.

Lemma embedding_insert_get_witness :
  to_uri_string b_uri <> to_uri_string a_uri /\
  get_embedding a_uri (insert_embedding a_uri [1%Q; 0%Q] blank_store) = Some [1%Q; 0%Q] /\
  get_embedding b_uri (insert_embedding a_uri [1%Q; 0%Q] blank_store) = get_embedding b_uri blank_store.
Proof.
  assert (H : to_uri_string b_uri <> to_uri_string a_uri) by (vm_compute; discriminate).
  split; [exact H | exact (embedding_insert_get a_uri b_uri [1%Q; 0%Q] blank_store H)].
Defined.

Lemma insert_symbol_lookup_witness :
  uri_ok (uri a_symbol) = true /\ to_uri_string b_uri <> to_uri_string (uri a_symbol) /\
  (let st' := insert_symbol a_symbol blank_store in
   get_symbol (uri a_symbol) st' = Some (Some a_symbol) /\ get_symbol b_uri st' = get_symbol b_uri blank_store /\
   In a_symbol (find_symbols_by_name (sname a_symbol) st') /\ In a_symbol (find_symbols_in_file (spath a_symbol) st') /\
   In a_symbol (find_symbols_by_kind (skind a_symbol) st')).
Proof.
  assert (H1 : uri_ok (uri a_symbol) = true) by (vm_compute; reflexivity).
  assert (H2 : to_uri_string b_uri <> to_uri_string (uri a_symbol)) by (vm_compute; discriminate).
  split; [exact H1 | split; [exact H2 | exact (insert_symbol_lookup a_symbol b_uri blank_store H1 H2)]].
Defined.

Lemma insert_edge_lookup_witness :
  uri_ok (from_uri a_calls_b) = true /\ uri_ok (to_uri a_calls_b) = true /\
  (let e' := with_confidence (from_uri a_calls_b) (to_uri a_calls_b) (ekind a_calls_b) (confidence a_calls_b) in
   let st' := insert_edge a_calls_b blank_store in
   In e' (get_edges_from (from_uri a_calls_b) st') /\ In e' (get_edges_to (to_uri a_calls_b) st') /\
   In e' (get_edges_by_kind (ekind a_calls_b) st') /\
   (0 <= confidence a_calls_b -> confidence a_calls_b <= 1 -> confidence e' == confidence a_calls_b)).
Proof.
  assert (H1 : uri_ok (from_uri a_calls_b) = true) by (vm_compute; reflexivity).
  assert (H2 : uri_ok (to_uri a_calls_b) = true) by (vm_compute; reflexivity).
  split; [exact H1 | split; [exact H2 | exact (insert_edge_lookup a_calls_b blank_store H1 H2)]].
Defined.

Lemma edge_lookups_select_witness :
  uri_ok a_uri = true /\
  (forall e, In e (get_edges_from a_uri (insert_edge a_calls_b blank_store)) ->
     from_uri e = a_uri /\ 0 <= confidence e <= 1) /\
  (forall e, In e (get_edges_to a_uri (insert_edge a_calls_b blank_store)) ->
     to_uri e = a_uri /\ 0 <= confidence e <= 1) /\
  (forall k e, In e (get_edges_by_kind k (insert_edge a_calls_b blank_store)) ->
     ekind e = k /\ 0 <= confidence e <= 1).
Proof.
  assert (H : uri_ok a_uri = true) by (vm_compute; reflexivity).
  split; [exact H | exact (edge_lookups_select (insert_edge a_calls_b blank_store) a_uri H)].
Defined.

End StoreOpsProofs.

Module EdgeOpsProofs.
Import Uri EdgeModel Store EdgeOps ExtraFacts.

Lemma SymbolKind_eqb_eq (a b : SymbolKind) : SymbolKind_eqb a b = true <-> a = b.
Proof. destruct a, b; simpl; split; congruence. Qed.

Lemma EdgeKind_eqb_eq (a b : EdgeKind) : EdgeKind_eqb a b = true <-> a = b.
Proof. destruct a, b; simpl; split; congruence. Qed.

Lemma SymbolUri_eqb_eq (a b : SymbolUri) : SymbolUri_eqb a b = true <-> a = b.
Proof.
  destruct a as [r p k n l], b as [r' p' k' n' l']. unfold SymbolUri_eqb; simpl.
  rewrite !andb_true_iff, !String.eqb_eq, SymbolKind_eqb_eq, N.eqb_eq.
  split; [intros [[[[-> ->] ->] ->] ->]; reflexivity | intros H; injection H; intuition].
Qed.

Lemma edge_kind_as_str_inj (a b : EdgeKind) : edge_kind_as_str a = edge_kind_as_str b -> a = b.
Proof.
  intros E. pose proof (edge_kind_from_as_str a) as Ha. rewrite E, edge_kind_from_as_str in Ha.
  congruence.
Qed.

(** [Edge]'s equality and the store's [UNIQUE(from_uri, to_uri, kind)]
    key agree: for well-formed URIs two edges are equal exactly when
    [insert_edge] of one replaces the row of the other. *)
Theorem edge_eq_same_triple (a b : Edge) :
  uri_ok (from_uri a) = true -> uri_ok (to_uri a) = true ->
  uri_ok (from_uri b) = true -> uri_ok (to_uri b) = true ->
  edge_eq a b = same_triple (edge_row a) (edge_row b).
Proof.
  intros Ha1 Ha2 Hb1 Hb2. unfold edge_eq, same_triple, edge_row; cbn [e_from_uri e_to_uri e_kind].
  apply eq_true_iff_eq. rewrite !andb_true_iff, !SymbolUri_eqb_eq, EdgeKind_eqb_eq, !String.eqb_eq.
  split.
  - intros [[-> ->] ->]. auto.
  - intros [[E1 E2] E3]. repeat split.
    + now apply to_uri_string_inj.
    + now apply to_uri_string_inj.
    + now apply edge_kind_as_str_inj.
Qed.

Lemma is_deterministic_conf (e : Edge) :
  0 <= confidence e <= 1 -> (is_deterministic e = true <-> 1 - EPSILON < confidence e).
Proof.
  intros [H0 H1]. unfold is_deterministic. rewrite negb_true_iff.
  assert (Ha : Qabs (confidence e - 1) == 1 - confidence e).
  { rewrite Qabs_neg by lra. ring. }
  split.
  - intros H. destruct (Qlt_le_dec (1 - EPSILON) (confidence e)) as [L|L]; [exact L|].
    assert (Qle_bool EPSILON (Qabs (confidence e - 1)) = true) as T
      by (apply Qle_bool_iff; rewrite Ha; lra).
    congruence.
  - intros L. destruct (Qle_bool EPSILON (Qabs (confidence e - 1))) eqn:T; [|reflexivity].
    apply Qle_bool_iff in T. rewrite Ha in T. lra.
Qed.

Lemma clamp01_cases (c : Q) :
  (c <= 0 /\ clamp01 c = 0) \/ (1 <= c /\ 0 < c /\ clamp01 c = 1) \/ (0 < c < 1 /\ clamp01 c = c).
Proof.
  unfold clamp01. destruct (Qle_bool c 0) eqn:A.
  - left. apply Qle_bool_iff in A. auto.
  - assert (~ c <= 0) as A' by (intros X; apply Qle_bool_iff in X; congruence).
    destruct (Qle_bool 1 c) eqn:B.
    + right; left. apply Qle_bool_iff in B. split; [exact B|]. split; [lra|reflexivity].
    + right; right. assert (~ 1 <= c) as B' by (intros X; apply Qle_bool_iff in X; congruence).
      split; [split; lra | reflexivity].
Qed.

(** An edge made by [Edge::with_confidence] is deterministic exactly when
    its confidence argument is above [1 - f32::EPSILON], and probabilistic
    otherwise; an edge made by [Edge::new] is deterministic. *)
Theorem is_deterministic_with_confidence (f t : SymbolUri) (k : EdgeKind) (c : Q) :
  (is_deterministic (with_confidence f t k c) = true <-> 1 - EPSILON < c) /\
  (is_probabilistic (with_confidence f t k c) = true <-> c <= 1 - EPSILON) /\
  is_deterministic (new f t k) = true.
Proof.
  assert (HE : 0 < EPSILON) by (unfold EPSILON; reflexivity).
  assert (HE1 : EPSILON < 1) by (unfold EPSILON; reflexivity).
  assert (D : is_deterministic (with_confidence f t k c) = true <-> 1 - EPSILON < c).
  { destruct (clamp01_cases c) as [[Hc E]|[[Hc [Hc' E]]|[Hc E]]];
      rewrite is_deterministic_conf; unfold with_confidence; simpl; rewrite E; split; intros; lra. }
  split; [exact D|split].
  - unfold is_probabilistic. rewrite negb_true_iff. split.
    + intros H. destruct (Qlt_le_dec (1 - EPSILON) c) as [L|L]; [|exact L].
      apply D in L. congruence.
    + intros H. apply not_true_is_false. intros T. apply D in T. lra.
  - apply is_deterministic_conf; unfold new; simpl; lra.
Qed.

Lemma edge_eq_same_triple_witness :
  uri_ok a_uri = true /\ uri_ok b_uri = true /\
  edge_eq a_calls_b (new a_uri b_uri Calls) = same_triple (edge_row a_calls_b) (edge_row (new a_uri b_uri Calls)).
Proof.
  assert (Ha : uri_ok a_uri = true) by (vm_compute; reflexivity).
  assert (Hb : uri_ok b_uri = true) by (vm_compute; reflexivity).
  split; [exact Ha | split; [exact Hb | exact (edge_eq_same_triple a_calls_b (new a_uri b_uri Calls) Ha Hb Ha Hb)]].
Defined.

End EdgeOpsProofs.

Module StoreInvariants.
Import Uri EdgeModel ListUtil Store StoreOps DeleteProofs ExtraFacts Indexer.

(** ** Lists whose keys are pairwise distinct *)

Lemma nodup_map_filter {A K} (k : A -> K) (f : A -> bool) (l : list A) :
  NoDup (map k l) -> NoDup (map k (filter f l)).
Proof.
  induction l as [|a l IH]; simpl; intros H; [constructor|].
  inversion H as [|? ? Hn Hd]; subst. destruct (f a); simpl; [|now apply IH].
  constructor; [|now apply IH]. intros Hin. apply Hn.
  apply in_map_iff in Hin as [x [Ex Hx]]. apply filter_In in Hx as [Hx _].
  apply in_map_iff. eauto.
Qed.

Lemma nodup_map_snoc {A K} (k : A -> K) (l : list A) (x : A) :
  NoDup (map k l) -> ~ In (k x) (map k l) -> NoDup (map k (l ++ [x])).
Proof.
  intros H Hn. rewrite map_app. simpl.
  apply (Permutation_NoDup (Permutation_cons_append (map k l) (k x))). now constructor.
Qed.

Lemma nodup_replace {A K} (k : A -> K) (f : A -> bool) (l : list A) (x : A) :
  NoDup (map k l) -> (forall r, In r l -> f r = true -> k r <> k x) ->
  NoDup (map k (filter f l ++ [x])).
Proof.
  intros H Hf. apply nodup_map_snoc; [now apply nodup_map_filter|].
  intros Hin. apply in_map_iff in Hin as [r [Er Hr]]. apply filter_In in Hr as [Hr Hfr].
  exact (Hf r Hr Hfr Er).
Qed.

Lemma fold_max_ge (l : list Z) (z : Z) :
  (z <= fold_left Z.max l z)%Z /\ forall y, In y l -> (y <= fold_left Z.max l z)%Z.
Proof.
  revert z. induction l as [|a l IH]; intros z; simpl; [split; [lia | contradiction]|].
  destruct (IH (Z.max z a)) as [H1 H2]. split; [lia|].
  intros y [<-|Hy]; [lia | now apply H2].
Qed.

Lemma nodup_autoinc {A} (id : A -> Z) (l : list A) (x : A) (sq : Z) :
  NoDup (map id l) -> id x = (1 + Z.max sq (fold_left Z.max (map id l) 0))%Z -> NoDup (map id (l ++ [x])).
Proof.
  intros H Hx. apply nodup_map_snoc; [exact H|]. rewrite Hx. intros Hin.
  apply (proj2 (fold_max_ge (map id l) 0)) in Hin. lia.
Qed.

Lemma nodup_map_same {A K} (k : A -> K) (g : A -> A) (l : list A) :
  (forall r, k (g r) = k r) -> NoDup (map k l) -> NoDup (map k (map g l)).
Proof. intros Hg H. rewrite map_map. erewrite map_ext; [exact H | exact Hg]. Qed.

(** ** The keys of the tables *)

(** The [UNIQUE(from_uri, to_uri, kind)] key of [edges]. *)
Definition edge_key (r : EdgeRow) : string * string * string := (e_from_uri r, e_to_uri r, e_kind r).

(** No two rows of a table share its key: the primary keys of [symbols],
    [embeddings], [unresolved_references], [imports],
    [ambiguous_references] and [file_hash], the unique triple of [edges]
    and the [INSERT OR REPLACE] key [reference_id] of
    [callsite_embeddings]. *)
Definition keys_unique (st : Store) : Prop :=
  NoDup (map s_uri (symbols st)) /\ NoDup (map edge_key (edges st)) /\
  NoDup (map emb_uri (embeddings st)) /\ NoDup (map cs_reference_id (callsite_embeddings st)) /\
  NoDup (map u_id (unresolved_references st)) /\ NoDup (map i_id (imports st)) /\
  NoDup (map a_id (ambiguous_references st)) /\ NoDup (map fh_path (file_hash st)).

Ltac ku_split H :=
  destruct H as (H1 & H2 & H3 & H4 & H5 & H6 & H7 & H8); repeat split; simpl; try assumption.

Lemma neq_of_eqb_false (a b : string) : negb (String.eqb a b) = true -> a <> b.
Proof. intros H E. subst. now rewrite String.eqb_refl in H. Qed.

Lemma neq_of_Zeqb_false (a b : Z) : negb (Z.eqb a b) = true -> a <> b.
Proof. intros H E. subst. now rewrite Z.eqb_refl in H. Qed.

Lemma ku_insert_symbol s st : keys_unique st -> keys_unique (insert_symbol s st).
Proof.
  intros H. ku_split H. apply nodup_replace; [exact H1|]. intros r _ Hf. now apply neq_of_eqb_false.
Qed.

Lemma ku_insert_edge e st : keys_unique st -> keys_unique (insert_edge e st).
Proof.
  intros H. ku_split H. apply nodup_replace; [exact H2|]. intros r _ Hf E.
  unfold edge_key in E. injection E as E1 E2 E3.
  unfold same_triple in Hf. rewrite E1, E2, E3, !String.eqb_refl in Hf. discriminate.
Qed.

Lemma ku_insert_embedding u v st : keys_unique st -> keys_unique (insert_embedding u v st).
Proof.
  intros H. ku_split H. apply nodup_replace; [exact H3|]. intros r _ Hf. now apply neq_of_eqb_false.
Qed.

Lemma ku_insert_callsite_embedding rid v st :
  keys_unique st -> keys_unique (insert_callsite_embedding rid v st).
Proof.
  intros H. ku_split H. apply nodup_replace; [exact H4|]. intros r _ Hf. now apply neq_of_Zeqb_false.
Qed.

Lemma ku_insert_unresolved u st : keys_unique st -> keys_unique (insert_unresolved u st).
Proof. intros H. ku_split H. eapply nodup_autoinc; [eassumption | reflexivity]. Qed.

Lemma ku_insert_import p a ns l st : keys_unique st -> keys_unique (insert_import p a ns l st).
Proof. intros H. ku_split H. eapply nodup_autoinc; [eassumption | reflexivity]. Qed.

Lemma ku_insert_ambiguous_reference rid c sc st :
  keys_unique st -> keys_unique (insert_ambiguous_reference rid c sc st).
Proof. intros H. ku_split H. eapply nodup_autoinc; [eassumption | reflexivity]. Qed.

Lemma ku_update_file_hash p h now st : keys_unique st -> keys_unique (update_file_hash p h now st).
Proof.
  intros H. ku_split H. apply nodup_replace; [exact H8|]. intros r _ Hf. now apply neq_of_eqb_false.
Qed.

Lemma ku_delete_unresolved id st : keys_unique st -> keys_unique (delete_unresolved id st).
Proof. intros H. ku_split H. now apply nodup_map_filter. Qed.

Lemma ku_mark_unresolved_as_external id st :
  keys_unique st -> keys_unique (mark_unresolved_as_external id st).
Proof.
  intros H. ku_split H. apply nodup_map_same; [|exact H5]. intros r. now destruct (Z.eqb (u_id r) id).
Qed.

Lemma ku_remove_file_hash p st : keys_unique st -> keys_unique (remove_file_hash p st).
Proof. intros H. ku_split H. now apply nodup_map_filter. Qed.

(** The effect of [delete_file_data] on each table. *)
Lemma delete_file_data_effect (p : string) (st : Store) :
  let syms := find_symbols_in_file p st in
  let refs := get_unresolved_in_file p st in
  let st' := delete_file_data p st in
  symbols st' = filter (fun r => negb (String.eqb (s_path r) p)) (symbols st) /\
  edges st' = filter (fun e => forallb (fun s => edge_kept s e) syms) (edges st) /\
  embeddings st' = filter (fun m => forallb (fun s => embedding_kept s m) syms) (embeddings st) /\
  ambiguous_references st' = filter (fun a => forallb (fun r => ambiguous_kept r a) refs) (ambiguous_references st) /\
  callsite_embeddings st' = filter (fun c => forallb (fun r => callsite_kept r c) refs) (callsite_embeddings st) /\
  unresolved_references st' = filter (fun r => negb (String.eqb (u_file_path r) p)) (unresolved_references st) /\
  imports st' = filter (fun r => negb (String.eqb (i_file_path r) p)) (imports st) /\
  file_hash st' = filter (fun r => negb (String.eqb (fh_path r) p)) (file_hash st).
Proof.
  intros syms refs st'. subst st'. unfold delete_file_data. fold syms.
  destruct (delete_symbol_rows_fixed syms st) as (Hs & Hi & Hf & Ha & Hc).
  assert (Hr : get_unresolved_in_file p
                 (set_symbols (fold_left delete_symbol_rows syms st)
                    (filter (fun r => negb (String.eqb (s_path r) p))
                       (symbols (fold_left delete_symbol_rows syms st)))) = refs).
  { unfold get_unresolved_in_file. simpl. now rewrite delete_symbol_rows_unresolved. }
  rewrite Hr. simpl.
  rewrite delete_reference_rows_symbols, delete_reference_rows_edges, delete_reference_rows_embeddings,
    delete_reference_rows_ambiguous, delete_reference_rows_callsites, delete_reference_rows_unresolved,
    delete_reference_rows_imports, delete_reference_rows_file_hash. simpl.
  rewrite Hs, Hi, Hf, Ha, Hc, delete_symbol_rows_edges, delete_symbol_rows_embeddings,
    delete_symbol_rows_unresolved.
  repeat split; reflexivity.
Qed.

Lemma ku_delete_file_data p st : keys_unique st -> keys_unique (delete_file_data p st).
Proof.
  intros H. destruct (delete_file_data_effect p st) as (E1 & E2 & E3 & E4 & E5 & E6 & E7 & E8).
  destruct H as (H1 & H2 & H3 & H4 & H5 & H6 & H7 & H8).
  unfold keys_unique. rewrite E1, E2, E3, E4, E5, E6, E7, E8.
  repeat split; now apply nodup_map_filter.
Qed.

Lemma ku_fold {A} (f : Store -> A -> Store) :
  (forall st a, keys_unique st -> keys_unique (f st a)) ->
  forall l st, keys_unique st -> keys_unique (fold_left f l st).
Proof. intros Hf l. induction l as [|a l IH]; intros st H; simpl; [exact H|]. apply IH, Hf, H. Qed.

Lemma ku_fold_option {A B} (f : option (Store * B) -> A -> option (Store * B)) :
  (forall st b a st' b', keys_unique st -> f (Some (st, b)) a = Some (st', b') -> keys_unique st') ->
  (forall a, f None a = None) ->
  forall l st b st' b', keys_unique st -> fold_left f l (Some (st, b)) = Some (st', b') -> keys_unique st'.
Proof.
  intros Hf Hn l. induction l as [|a l IH]; intros st b st' b' H E; simpl in E.
  - congruence.
  - destruct (f (Some (st, b)) a) as [[st1 b1]|] eqn:E1.
    + exact (IH _ _ _ _ (Hf _ _ _ _ _ H E1) E).
    + exfalso. assert (N : forall l, fold_left f l None = None).
      { intros l'. induction l' as [|a' l' IHl]; simpl; [reflexivity|]. now rewrite Hn. }
      rewrite N in E. discriminate.
Qed.

Lemma ku_link_one st r : keys_unique st -> keys_unique (GlobalLinker.link_one st r).
Proof.
  intros H. unfold GlobalLinker.link_one.
  destruct (GlobalLinker.decide_ref r st) as [u|c|].
  - destruct (Uri.parse (u_from_uri r)); [|exact H].
    apply ku_delete_unresolved, ku_insert_edge, H.
  - apply (ku_fold (fun st u => insert_ambiguous_reference (u_id r) (to_uri_string u) 0 st)); [|exact H].
    intros st' a. apply ku_insert_ambiguous_reference.
  - apply ku_mark_unresolved_as_external, H.
Qed.

Lemma ku_write_match r st b m st' b' :
  keys_unique st -> SemanticLinker.write_match r (Some (st, b)) m = Some (st', b') -> keys_unique st'.
Proof.
  intros H E. unfold SemanticLinker.write_match in E.
  destruct (Uri.parse (u_from_uri r)); [|discriminate].
  destruct (find _ _) as [ex|].
  - destruct (Qle_bool _ _); injection E as <- <-; [exact H | now apply ku_insert_edge].
  - injection E as <- <-. now apply ku_insert_edge.
Qed.

Lemma ku_process_ref thr cached r v st st' :
  keys_unique st -> SemanticLinker.process_ref thr cached r v st = Some st' -> keys_unique st'.
Proof.
  intros H E. unfold SemanticLinker.process_ref in E.
  destruct (fold_left _ _ _) as [[st2 b]|] eqn:F; [|discriminate].
  assert (H2 : keys_unique st2).
  { refine (ku_fold_option (SemanticLinker.write_match r) _ _ _ _ _ _ _ _ F).
    - intros. eapply ku_write_match; eassumption.
    - reflexivity.
    - now apply ku_insert_callsite_embedding. }
  destruct b; injection E as <-; [now apply ku_delete_unresolved | now apply ku_mark_unresolved_as_external].
Qed.

Lemma option_fold_none {A} (g : A -> Store -> option Store) (l : list A) :
  fold_left (fun acc a => match acc with None => None | Some st => g a st end) l None = None.
Proof. induction l as [|a l IH]; simpl; [reflexivity | exact IH]. Qed.

Lemma option_fold_inv {A} (P : Store -> Prop) (g : A -> Store -> option Store) :
  (forall a st st', P st -> g a st = Some st' -> P st') ->
  forall l st st', P st ->
  fold_left (fun acc a => match acc with None => None | Some st => g a st end) l (Some st) = Some st' ->
  P st'.
Proof.
  intros Hg l. induction l as [|a l IH]; intros st0 st' Hp E; simpl in E; [congruence|].
  destruct (g a st0) as [st1|] eqn:E1.
  - exact (IH st1 st' (Hg _ _ _ Hp E1) E).
  - rewrite option_fold_none in E. discriminate.
Qed.

Lemma ku_semantic_run thr embed st st' :
  keys_unique st -> SemanticLinker.run thr embed st = Some st' -> keys_unique st'.
Proof.
  intros H E. unfold SemanticLinker.run in E.
  destruct (filter _ _) as [|r0 rs]; [congruence|].
  refine (option_fold_inv keys_unique
           (fun r st1 => SemanticLinker.process_ref thr (SemanticLinker.cached_symbols st) r (embed r) st1)
           _ _ _ _ H E).
  intros r st1 st2 H1 E1. exact (ku_process_ref _ _ _ _ _ _ H1 E1).
Qed.

Lemma ku_global_run st : keys_unique st -> keys_unique (GlobalLinker.run st).
Proof. apply ku_fold. intros. now apply ku_link_one. Qed.

Lemma ku_process_file p hash result status now st :
  keys_unique st -> keys_unique (process_file p hash result status now st).
Proof.
  intros H. unfold process_file. apply ku_update_file_hash.
  assert (H0 : keys_unique (match status with Modified => delete_file_data p st | _ => st end))
    by (destruct status; [exact H | now apply ku_delete_file_data | exact H]).
  destruct result as [res|]; [|exact H0].
  apply ku_fold; [intros; now apply ku_insert_import|].
  apply ku_fold; [intros; now apply ku_insert_unresolved|].
  apply ku_fold; [intros; now apply ku_insert_edge|].
  apply ku_fold; [intros; now apply ku_insert_symbol|exact H0].
Qed.

Lemma ku_delete_unseen seen st : keys_unique st -> keys_unique (delete_unseen seen st).
Proof.
  intros H. unfold delete_unseen. apply ku_fold; [|exact H].
  intros st0 p H0. destruct (existsb _ _); [exact H0 | now apply ku_delete_file_data].
Qed.

(** Every writer of [SqliteStore] keeps the keys of every table unique:
    the [INSERT OR REPLACE] statements drop the row they replace, the
    [AUTOINCREMENT] ids are fresh, the deletions and the [UPDATE] of
    [is_external] do not create keys. *)
Theorem store_writers_keep_keys_unique (st : Store) :
  keys_unique st ->
  (forall s, keys_unique (insert_symbol s st)) /\
  (forall e, keys_unique (insert_edge e st)) /\
  (forall u v, keys_unique (insert_embedding u v st)) /\
  (forall rid v, keys_unique (insert_callsite_embedding rid v st)) /\
  (forall u, keys_unique (insert_unresolved u st)) /\
  (forall p a ns l, keys_unique (insert_import p a ns l st)) /\
  (forall rid c sc, keys_unique (insert_ambiguous_reference rid c sc st)) /\
  (forall p h now, keys_unique (update_file_hash p h now st)) /\
  (forall id, keys_unique (delete_unresolved id st)) /\
  (forall id, keys_unique (mark_unresolved_as_external id st)) /\
  (forall p, keys_unique (remove_file_hash p st)) /\
  (forall p, keys_unique (delete_file_data p st)).
Proof.
  intros H. repeat split; intros.
  all: first [ now apply ku_insert_symbol | now apply ku_insert_edge | now apply ku_insert_embedding
             | now apply ku_insert_callsite_embedding | now apply ku_insert_unresolved
             | now apply ku_insert_import | now apply ku_insert_ambiguous_reference
             | now apply ku_update_file_hash | now apply ku_delete_unresolved
             | now apply ku_mark_unresolved_as_external | now apply ku_remove_file_hash
             | now apply ku_delete_file_data ].
Qed.

(** The indexing and linking passes keep the keys of every table unique:
    the coordinator's handling of a file, the deletion pass, the global
    linker and a successful semantic linker run. *)
Theorem pipeline_keeps_keys_unique (st : Store) :
  keys_unique st ->
  (forall p hash result status now, keys_unique (process_file p hash result status now st)) /\
  (forall seen, keys_unique (delete_unseen seen st)) /\
  keys_unique (GlobalLinker.run st) /\
  (forall thr embed st', SemanticLinker.run thr embed st = Some st' -> keys_unique st').
Proof.
  intros H. split; [|split; [|split]]; intros.
  - now apply ku_process_file.
  - now apply ku_delete_unseen.
  - now apply ku_global_run.
  - eapply ku_semantic_run; eassumption.
Qed.

Lemma ab_store_keys_unique : keys_unique ab_store.
Proof. vm_compute. repeat split; repeat (constructor || intros []). Qed.

Lemma store_writers_keep_keys_unique_witness :
  keys_unique ab_store /\
  (forall s, keys_unique (insert_symbol s ab_store)) /\
  (forall e, keys_unique (insert_edge e ab_store)) /\
  (forall u v, keys_unique (insert_embedding u v ab_store)) /\
  (forall rid v, keys_unique (insert_callsite_embedding rid v ab_store)) /\
  (forall u, keys_unique (insert_unresolved u ab_store)) /\
  (forall p a ns l, keys_unique (insert_import p a ns l ab_store)) /\
  (forall rid c sc, keys_unique (insert_ambiguous_reference rid c sc ab_store)) /\
  (forall p h now, keys_unique (update_file_hash p h now ab_store)) /\
  (forall id, keys_unique (delete_unresolved id ab_store)) /\
  (forall id, keys_unique (mark_unresolved_as_external id ab_store)) /\
  (forall p, keys_unique (remove_file_hash p ab_store)) /\
  (forall p, keys_unique (delete_file_data p ab_store)).
Proof.
  split; [exact ab_store_keys_unique | exact (store_writers_keep_keys_unique ab_store ab_store_keys_unique)].
Defined.

Lemma pipeline_keeps_keys_unique_witness :
  keys_unique ab_store /\
  (forall p hash result status now, keys_unique (process_file p hash result status now ab_store)) /\
  (forall seen, keys_unique (delete_unseen seen ab_store)) /\
  keys_unique (GlobalLinker.run ab_store) /\
  (forall thr embed st', SemanticLinker.run thr embed ab_store = Some st' -> keys_unique st').
Proof.
  split; [exact ab_store_keys_unique | exact (pipeline_keeps_keys_unique ab_store ab_store_keys_unique)].
Defined.

End StoreInvariants.

Module IndexerProofs.
Import Uri EdgeModel ListUtil ListUtilFacts Store StoreOps DeleteProofs ExtraFacts Indexer
  StoreOpsProofs StoreInvariants.

(** ** Unresolved references that are still active *)

Definition active (st : Store) : list UnresolvedRow :=
  filter (fun r => negb (u_is_external r)) (unresolved_references st).

Lemma active_mark x id st :
  In x (active (mark_unresolved_as_external id st)) -> In x (active st) /\ u_id x <> id.
Proof.
  unfold active, mark_unresolved_as_external. simpl. intros H.
  apply filter_In in H as [H Hx]. apply in_map_iff in H as [y [<- Hy]].
  destruct (Z.eqb_spec (u_id y) id) as [E|E]; simpl in Hx; [discriminate|].
  split; [apply filter_In; split; assumption | exact E].
Qed.

Lemma active_delete x id st :
  In x (active (delete_unresolved id st)) -> In x (active st) /\ u_id x <> id.
Proof.
  unfold active, delete_unresolved. simpl. intros H.
  apply filter_In in H as [H Hx]. apply filter_In in H as [H Hi].
  split; [apply filter_In; split; assumption | now apply neq_of_Zeqb_false].
Qed.

Lemma write_match_unresolved r st b m st1 b1 :
  SemanticLinker.write_match r (Some (st, b)) m = Some (st1, b1) ->
  unresolved_references st1 = unresolved_references st.
Proof.
  unfold SemanticLinker.write_match. intros E.
  destruct (Uri.parse (u_from_uri r)); [|discriminate].
  destruct (find _ _) as [ex|]; [destruct (Qle_bool _ _)|]; injection E as <- <-; reflexivity.
Qed.

Lemma write_fold_unresolved r l : forall st b st' b',
  fold_left (SemanticLinker.write_match r) l (Some (st, b)) = Some (st', b') ->
  unresolved_references st' = unresolved_references st.
Proof.
  induction l as [|m l IH]; intros st b st' b' E; cbn [fold_left] in E; [congruence|].
  destruct (SemanticLinker.write_match r (Some (st, b)) m) as [[st1 b1]|] eqn:W;
    [|now rewrite SemanticLinkerProofs.write_match_none in E].
  rewrite (IH _ _ _ _ E). exact (write_match_unresolved _ _ _ _ _ _ W).
Qed.

Lemma active_process_ref thr cached r v st st' x :
  SemanticLinker.process_ref thr cached r v st = Some st' ->
  In x (active st') -> In x (active st) /\ u_id x <> u_id r.
Proof.
  unfold SemanticLinker.process_ref. intros E H.
  destruct (fold_left _ _ _) as [[st2 b]|] eqn:F; [|discriminate].
  apply write_fold_unresolved in F. simpl in F.
  destruct b; injection E as <-.
  - apply active_delete in H as [H N]. unfold active in H |- *. now rewrite F in H.
  - apply active_mark in H as [H N]. unfold active in H |- *. now rewrite F in H.
Qed.

Lemma active_semantic_fold thr cached embed l : forall st st' x,
  fold_left (fun acc r => match acc with
                          | None => None
                          | Some st => SemanticLinker.process_ref thr cached r (embed r) st
                          end) l (Some st) = Some st' ->
  In x (active st') -> In x (active st) /\ forall r, In r l -> u_id x <> u_id r.
Proof.
  induction l as [|r l IH]; intros st st' x E H; simpl in E.
  - injection E as <-. split; [exact H | contradiction].
  - destruct (SemanticLinker.process_ref thr cached r (embed r) st) as [st1|] eqn:E1;
      [|now rewrite option_fold_none in E].
    destruct (IH _ _ _ E H) as [H1 Hl].
    destruct (active_process_ref _ _ _ _ _ _ _ E1 H1) as [H0 N].
    split; [exact H0|]. intros r' [<-|Hr']; [exact N | now apply Hl].
Qed.

(** A successful run of the semantic linker leaves no active unresolved
    reference: every one of them is either deleted (an edge was written)
    or marked external, and no run adds a reference or clears a mark. *)
Theorem semantic_run_resolves_all (thr : Q) (embed : UnresolvedRow -> list Q) (st st' : Store) :
  SemanticLinker.run thr embed st = Some st' -> count_unresolved st' = 0%nat.
Proof.
  unfold SemanticLinker.run, count_unresolved. fold (active st'). intros E.
  assert (Hempty : forall x, ~ In x (active st')).
  { intros x Hx. unfold get_all_unresolved in E. fold (active st) in E.
    destruct (active st) as [|r0 rs] eqn:A.
    - injection E as <-. rewrite A in Hx. exact Hx.
    - rewrite <- A in E. destruct (active_semantic_fold _ _ _ _ _ _ _ E Hx) as [H1 Hl].
      exact (Hl x H1 eq_refl). }
  destruct (active st') as [|x l]; [reflexivity|]. exfalso. apply (Hempty x). now left.
Qed.

Lemma active_link_one st r x :
  In x (active (GlobalLinker.link_one st r)) -> In x (active st).
Proof.
  unfold GlobalLinker.link_one. intros H.
  destruct (GlobalLinker.decide_ref r st) as [u|c|].
  - destruct (Uri.parse (u_from_uri r)); [|exact H].
    apply active_delete in H as [H _]. exact H.
  - assert (E : forall c st, unresolved_references
              (fold_left (fun st u => insert_ambiguous_reference (u_id r) (to_uri_string u) 0 st) c st)
              = unresolved_references st)
      by (intros; apply (fold_left_invariant _ unresolved_references); reflexivity).
    unfold active in H |- *. now rewrite E in H.
  - apply active_mark in H as [H _]. exact H.
Qed.

Lemma length_filter_filter {A} (f g : A -> bool) (l : list A) :
  (List.length (filter f (filter g l)) <= List.length (filter f l))%nat.
Proof. induction l as [|a l IH]; simpl; [lia|]. destruct (g a); simpl; destruct (f a); simpl; lia. Qed.

Lemma count_link_one st r :
  (count_unresolved (GlobalLinker.link_one st r) <= count_unresolved st)%nat.
Proof.
  unfold GlobalLinker.link_one, count_unresolved.
  destruct (GlobalLinker.decide_ref r st) as [u|c|].
  - destruct (Uri.parse (u_from_uri r)); [|lia].
    unfold delete_unresolved; simpl. apply length_filter_filter.
  - rewrite (fold_left_invariant _ unresolved_references); [lia | reflexivity].
  - unfold mark_unresolved_as_external; simpl. induction (unresolved_references st) as [|a l IH]; simpl; [lia|].
    destruct (Z.eqb (u_id a) (u_id r)), (u_is_external a); simpl; lia.
Qed.

(** The global linker only resolves or marks references: every reference
    still active after [GlobalLinker::run] was active before, and the
    count of active references never grows. *)
Theorem global_run_shrinks_unresolved (st : Store) :
  (forall x, In x (active (GlobalLinker.run st)) -> In x (active st)) /\
  (count_unresolved (GlobalLinker.run st) <= count_unresolved st)%nat.
Proof.
  unfold GlobalLinker.run. generalize (get_all_unresolved st) as l. intros l.
  revert st. induction l as [|r l IH]; intros st; simpl; [split; [auto | lia]|].
  destruct (IH (GlobalLinker.link_one st r)) as [H1 H2]. split.
  - intros x Hx. apply active_link_one with r. now apply H1.
  - pose proof (count_link_one st r). lia.
Qed.

(** ** [delete_file_data] *)

Lemma filter_true {A} (f : A -> bool) (l : list A) : (forall x, f x = true) -> filter f l = l.
Proof. intros H. induction l as [|a l IH]; simpl; [reflexivity|]. now rewrite H, IH. Qed.

Lemma filter_none {A} (f : A -> bool) (l : list A) : (forall x, In x l -> f x = false) -> filter f l = [].
Proof.
  intros H. induction l as [|a l IH]; simpl; [reflexivity|].
  rewrite H by (now left). apply IH. intros x Hx. apply H. now right.
Qed.

Lemma filter_idem {A} (f : A -> bool) (l : list A) : filter f (filter f l) = filter f l.
Proof. rewrite filter_filter'. apply filter_ext. intros x. apply andb_diag. Qed.

Lemma delete_file_data_sequence (p : string) (st : Store) :
  sqlite_sequence (delete_file_data p st) = sqlite_sequence st.
Proof.
  unfold delete_file_data. simpl.
  rewrite (fold_left_invariant delete_reference_rows sqlite_sequence); [|reflexivity]. simpl.
  apply (fold_left_invariant delete_symbol_rows sqlite_sequence). reflexivity.
Qed.

Lemma store_ext (a b : Store) :
  symbols a = symbols b -> edges a = edges b -> embeddings a = embeddings b ->
  callsite_embeddings a = callsite_embeddings b -> unresolved_references a = unresolved_references b ->
  imports a = imports b -> ambiguous_references a = ambiguous_references b -> file_hash a = file_hash b ->
  sqlite_sequence a = sqlite_sequence b -> a = b.
Proof. destruct a, b; simpl; intros; subst; reflexivity. Qed.

Lemma filter_eq_filter_neq {A} (k : A -> string) (p : string) (l : list A) :
  filter (fun r => String.eqb (k r) p) (filter (fun r => negb (String.eqb (k r) p)) l) = [].
Proof.
  rewrite filter_filter'. apply filter_none. intros x _. destruct (String.eqb (k x) p); reflexivity.
Qed.

(** After [delete_file_data p] no symbol, unresolved reference, import
    or file hash of [p] is left, and a second [delete_file_data p] changes
    nothing. *)
Theorem delete_file_data_clears (p : string) (st : Store) :
  let st' := delete_file_data p st in
  find_symbols_in_file p st' = [] /\ get_unresolved_in_file p st' = [] /\
  get_imports_for_file p st' = [] /\ get_file_hash p st' = None /\
  delete_file_data p st' = st'.
Proof.
  intros st'.
  destruct (delete_file_data_effect p st) as (E1 & E2 & E3 & E4 & E5 & E6 & E7 & E8).
  fold st' in E1, E2, E3, E4, E5, E6, E7, E8.
  assert (F1 : find_symbols_in_file p st' = []).
  { unfold find_symbols_in_file. rewrite E1, filter_eq_filter_neq. reflexivity. }
  assert (F2 : get_unresolved_in_file p st' = []).
  { unfold get_unresolved_in_file. now rewrite E6, filter_eq_filter_neq. }
  split; [exact F1|]. split; [exact F2|]. split.
  { unfold get_imports_for_file. now rewrite E7, filter_eq_filter_neq. }
  split.
  { unfold get_file_hash. rewrite E8, find_filter_negb. reflexivity. }
  destruct (delete_file_data_effect p st') as (G1 & G2 & G3 & G4 & G5 & G6 & G7 & G8).
  rewrite F1 in G2, G3. rewrite F2 in G4, G5.
  apply store_ext.
  - rewrite G1, E1. apply filter_idem.
  - rewrite G2. now apply filter_true.
  - rewrite G3. now apply filter_true.
  - rewrite G5. now apply filter_true.
  - rewrite G6, E6. apply filter_idem.
  - rewrite G7, E7. apply filter_idem.
  - rewrite G4. now apply filter_true.
  - rewrite G8, E8. apply filter_idem.
  - apply delete_file_data_sequence.
Qed.

(** ** A call of [b] in [a.py] with the embedding of [b] stored *)
Definition call_b : UnresolvedRow :=
  new_unresolved (to_uri_string a_uri) "b" None 0 "a.py" 1 "call".

Definition sem_store : Store :=
  insert_embedding b_uri [1%Q; 0%Q] (insert_unresolved call_b blank_store).

Definition sem_result : Store :=
  match SemanticLinker.run SemanticLinker.default_threshold (fun _ => [1%Q; 0%Q]) sem_store with
  | Some st => st
  | None => sem_store
  end.

Lemma semantic_run_resolves_all_witness :
  SemanticLinker.run SemanticLinker.default_threshold (fun _ => [1%Q; 0%Q]) sem_store = Some sem_result /\
  count_unresolved sem_result = 0%nat.
Proof.
  assert (H : SemanticLinker.run SemanticLinker.default_threshold (fun _ => [1%Q; 0%Q]) sem_store
              = Some sem_result) by (vm_compute; reflexivity).
  split; [exact H | exact (semantic_run_resolves_all _ _ _ _ H)].
Defined.

End IndexerProofs.

Module IndexerFileProofs.
Import Uri EdgeModel ListUtil Store StoreOps DeleteProofs ExtraFacts Indexer
  StoreOpsProofs StoreInvariants IndexerProofs.

Definition uri_key (s : Symbol) : string := to_uri_string (uri s).

Lemma fold_insert_symbols (l : list Symbol) : forall st,
  NoDup (map uri_key l) ->
  symbols (fold_left (fun st s => insert_symbol s st) l st)
  = app (filter (fun r => negb (existsb (fun s => String.eqb (s_uri r) (uri_key s)) l)) (symbols st))
        (map symbol_row l).
Proof.
  induction l as [|s l IH]; intros st H; simpl.
  - rewrite filter_true by reflexivity. now rewrite app_nil_r.
  - inversion H as [|? ? Hn Hd]; subst. rewrite IH by exact Hd.
    rewrite insert_symbol_symbols, filter_app, filter_filter'. cbn [filter].
    change (s_uri (symbol_row s)) with (uri_key s).
    assert (Hs : existsb (fun s' => String.eqb (uri_key s) (uri_key s')) l = false).
    { apply not_true_is_false. intros X. apply existsb_exists in X as [s' [Hs' X]].
      apply String.eqb_eq in X. apply Hn. rewrite X. apply in_map, Hs'. }
    rewrite Hs. cbn [negb]. rewrite <- app_assoc. cbn [app]. f_equal. apply filter_ext. intros r.
    change (to_uri_string (uri s)) with (uri_key s). destruct (String.eqb (s_uri r) (uri_key s)); reflexivity.
Qed.

Lemma find_map_symbol_row (l : list Symbol) (s : Symbol) :
  NoDup (map uri_key l) -> In s l ->
  find (fun r => String.eqb (s_uri r) (uri_key s)) (map symbol_row l) = Some (symbol_row s).
Proof.
  induction l as [|a l IH]; intros H Hin; [contradiction|].
  inversion H as [|? ? Hn Hd]; subst. cbn [map find]. change (s_uri (symbol_row a)) with (uri_key a).
  destruct Hin as [<-|Hin].
  - now rewrite String.eqb_refl.
  - destruct (String.eqb_spec (uri_key a) (uri_key s)) as [E|E].
    + exfalso. apply Hn. rewrite E. apply in_map, Hin.
    + now apply IH.
Qed.

Lemma filter_all_in {A} (f : A -> bool) (l : list A) : (forall x, In x l -> f x = true) -> filter f l = l.
Proof.
  intros H. induction l as [|a l IH]; simpl; [reflexivity|].
  rewrite H by (now left). f_equal. apply IH. intros x Hx. apply H. now right.
Qed.

Lemma find_none_filter {A} (f g : A -> bool) (l : list A) :
  (forall x, f x = true -> g x = false) -> find f (filter g l) = None.
Proof.
  intros H. induction l as [|a l IH]; simpl; [reflexivity|].
  destruct (g a) eqn:G; simpl; [|exact IH]. destruct (f a) eqn:F; [|exact IH].
  apply H in F. congruence.
Qed.

Lemma process_file_symbols p hash res status now st :
  symbols (process_file p hash (Some res) status now st)
  = symbols (fold_left (fun st s => insert_symbol s st) (res_symbols res)
               (match status with Modified => delete_file_data p st | _ => st end)).
Proof.
  unfold process_file. simpl.
  rewrite (fold_left_invariant _ symbols) by reflexivity.
  rewrite (fold_left_invariant _ symbols) by reflexivity.
  rewrite (fold_left_invariant _ symbols) by reflexivity.
  reflexivity.
Qed.

Lemma process_file_file_hash p hash result status now st h :
  file_status p h (process_file p hash result status now st)
  = if String.eqb hash h then Unchanged else Modified.
Proof.
  unfold file_status, get_file_hash, process_file, update_file_hash. simpl.
  rewrite (find_insert_last fh_path) by reflexivity. reflexivity.
Qed.

(** The coordinator's handling of a modified file [p] replaces its
    symbols: afterwards the symbol rows of [p] are exactly those of the
    new parse, in order, [get_symbol] returns each new symbol, and the
    walker's next status check sees the file as unchanged for the same
    hash and modified for any other.  (The adapter's symbols all lie in
    [p] and have distinct URIs.) *)
Theorem process_file_modified (p hash : string) (res : AdapterResult) (now : Z) (st : Store) :
  Forall (fun s => spath s = p) (res_symbols res) ->
  NoDup (map uri_key (res_symbols res)) ->
  let st' := process_file p hash (Some res) Modified now st in
  filter (fun r => String.eqb (s_path r) p) (symbols st') = map symbol_row (res_symbols res) /\
  (forall s, In s (res_symbols res) -> uri_ok (uri s) = true -> get_symbol (uri s) st' = Some (Some s)) /\
  file_status p hash st' = Unchanged /\
  (forall h, h <> hash -> file_status p h st' = Modified).
Proof.
  intros Hp Hd st'.
  assert (Hs : symbols st' = app (filter (fun r => negb (existsb (fun s => String.eqb (s_uri r) (uri_key s))
                                   (res_symbols res))) (filter (fun r => negb (String.eqb (s_path r) p)) (symbols st)))
                             (map symbol_row (res_symbols res))).
  { subst st'. rewrite process_file_symbols, fold_insert_symbols by exact Hd. f_equal.
    destruct (delete_file_data_effect p st) as [E1 _]. now rewrite E1. }
  split; [|split; [|split]].
  - rewrite Hs, filter_app.
    rewrite (filter_none _ (filter _ _)).
    + simpl. rewrite filter_all_in; [reflexivity|]. intros r Hr.
      apply in_map_iff in Hr as [s [<- Hs']]. rewrite Forall_forall in Hp.
      unfold symbol_row. simpl. rewrite (Hp s Hs'). apply String.eqb_refl.
    + intros r Hr. apply filter_In in Hr as [Hr _]. apply filter_In in Hr as [_ Hr].
      destruct (String.eqb (s_path r) p); [discriminate | reflexivity].
  - intros s Hin Hok. unfold get_symbol. rewrite Hs, find_app.
    rewrite find_none_filter.
    + fold (uri_key s). rewrite find_map_symbol_row by assumption. now rewrite row_to_symbol_row.
    + intros r E. apply String.eqb_eq in E. rewrite E. apply negb_false_iff.
      apply existsb_exists. exists s. split; [exact Hin | apply String.eqb_refl].
  - subst st'. rewrite process_file_file_hash, String.eqb_refl. reflexivity.
  - intros h Hh. subst st'. rewrite process_file_file_hash.
    destruct (String.eqb_spec hash h); [congruence | reflexivity].
Qed.

Definition kept_by (seen : list string) (x : string) (l : list string) : bool :=
  forallb (fun p => existsb (String.eqb p) seen || negb (String.eqb x p)) l.

Lemma kept_by_seen seen x l : existsb (String.eqb x) seen = true -> kept_by seen x l = true.
Proof.
  intros H. apply forallb_forall. intros p _. destruct (String.eqb_spec x p) as [<-|E].
  - now rewrite H.
  - now rewrite orb_true_r.
Qed.

Lemma kept_by_in seen x l : kept_by seen x l = true -> In x l -> existsb (String.eqb x) seen = true.
Proof.
  intros H Hin. unfold kept_by in H. rewrite forallb_forall in H. specialize (H x Hin).
  now rewrite String.eqb_refl, orb_false_r in H.
Qed.

Lemma delete_unseen_fold seen (l : list string) : forall st,
  let st' := fold_left (fun st p => if existsb (String.eqb p) seen then st else delete_file_data p st) l st in
  file_hash st' = filter (fun r => kept_by seen (fh_path r) l) (file_hash st) /\
  symbols st' = filter (fun r => kept_by seen (s_path r) l) (symbols st).
Proof.
  induction l as [|p l IH]; intros st st'; subst st'; cbn [fold_left].
  - unfold kept_by. simpl. now rewrite !filter_true.
  - destruct (existsb (String.eqb p) seen) eqn:Ep.
    + destruct (IH st) as [E1 E2]. rewrite E1, E2. unfold kept_by. cbn [forallb]. rewrite Ep.
      split; reflexivity.
    + destruct (IH (delete_file_data p st)) as [E1 E2]. rewrite E1, E2.
      destruct (delete_file_data_effect p st) as (F1 & _ & _ & _ & _ & _ & _ & F8).
      rewrite F1, F8, !filter_filter'. unfold kept_by. cbn [forallb]. rewrite Ep. split; reflexivity.
Qed.

(** The deletion pass forgets exactly the indexed files the walk did not
    see: the file hashes left are those of the seen paths, every symbol
    row of a seen path is kept, and every symbol row left belongs to a
    seen path or to a path that was not indexed. *)
Theorem delete_unseen_keeps_seen (seen : list string) (st : Store) :
  let st' := delete_unseen seen st in
  file_hash st' = filter (fun r => existsb (String.eqb (fh_path r)) seen) (file_hash st) /\
  (forall p, In p (get_all_indexed_files st') -> In p seen) /\
  filter (fun r => existsb (String.eqb (s_path r)) seen) (symbols st')
  = filter (fun r => existsb (String.eqb (s_path r)) seen) (symbols st) /\
  (forall r, In r (symbols st') -> In (s_path r) seen \/ ~ In (s_path r) (get_all_indexed_files st)).
Proof.
  intros st'. destruct (delete_unseen_fold seen (get_all_indexed_files st) st) as [E1 E2].
  fold (delete_unseen seen st) in E1, E2. fold st' in E1, E2.
  assert (H1 : file_hash st' = filter (fun r => existsb (String.eqb (fh_path r)) seen) (file_hash st)).
  { rewrite E1. apply filter_ext_in. intros r Hr.
    destruct (existsb (String.eqb (fh_path r)) seen) eqn:S; [now apply kept_by_seen|].
    apply not_true_is_false. intros K. apply kept_by_in in K; [congruence|].
    unfold get_all_indexed_files. now apply in_map. }
  split; [exact H1|]. split; [|split].
  - intros p Hp. unfold get_all_indexed_files in Hp. rewrite H1 in Hp.
    apply in_map_iff in Hp as [r [<- Hr]]. apply filter_In in Hr as [_ Hr].
    apply existsb_exists in Hr as [x [Hx E]]. apply String.eqb_eq in E. now subst.
  - rewrite E2, filter_filter'. apply filter_ext. intros r.
    destruct (existsb (String.eqb (s_path r)) seen) eqn:S.
    + now rewrite kept_by_seen.
    + apply andb_false_r.
  - intros r Hr. rewrite E2 in Hr. apply filter_In in Hr as [_ K].
    destruct (existsb (String.eqb (s_path r)) seen) eqn:S.
    + left. apply existsb_exists in S as [x [Hx E]]. apply String.eqb_eq in E. now subst.
    + right. intros Hin. apply (kept_by_in _ _ _ K) in Hin. congruence.
Qed.

(** ** [a.py] re-indexed with its symbol [a] *)
Definition a_result : AdapterResult := mkAdapterResult [a_symbol] [a_calls_b] [] [].

Lemma process_file_modified_witness :
  Forall (fun s => spath s = "a.py") (res_symbols a_result) /\
  NoDup (map uri_key (res_symbols a_result)) /\
  (let st' := process_file "a.py" "h1" (Some a_result) Modified 0 ab_store in
   filter (fun r => String.eqb (s_path r) "a.py") (symbols st') = map symbol_row (res_symbols a_result) /\
   (forall s, In s (res_symbols a_result) -> uri_ok (uri s) = true -> get_symbol (uri s) st' = Some (Some s)) /\
   file_status "a.py" "h1" st' = Unchanged /\
   (forall h, h <> "h1" -> file_status "a.py" h st' = Modified)).
Proof.
  assert (H1 : Forall (fun s => spath s = "a.py") (res_symbols a_result)) by (repeat constructor).
  assert (H2 : NoDup (map uri_key (res_symbols a_result))) by (vm_compute; repeat (constructor || intros [])).
  split; [exact H1 | split; [exact H2 | exact (process_file_modified "a.py" "h1" a_result 0 _ H1 H2)]].
Defined.

End IndexerFileProofs.

Module SearchProofs.
Import Uri EdgeModel ListUtil ListUtilFacts Store StoreOps ExtraFacts.
#[local] Open Scope string_scope.

Lemma in_firstn_in {A} (k : nat) (l : list A) (x : A) : In x (firstn k l) -> In x l.
Proof. intros H. rewrite <- (firstn_skipn k l). apply in_or_app. now left. Qed.

Lemma boost_le_total (a b : Symbol) :
  Qle_bool (get_file_boost (spath b)) (get_file_boost (spath a)) = false ->
  Qle_bool (get_file_boost (spath a)) (get_file_boost (spath b)) = true.
Proof.
  intros H. apply Qle_bool_iff. apply Qlt_le_weak, Qnot_le_lt. intros X. apply Qle_bool_iff in X. congruence.
Qed.

Lemma sql_limit_incl {A} (n : Z) (l : list A) (x : A) : In x (sql_limit n l) -> In x l.
Proof. unfold sql_limit. destruct (n <? 0)%Z; [exact id | apply in_firstn_in]. Qed.

Lemma sql_limit_length {A} (n : Z) (l : list A) : (List.length (sql_limit n l) <= List.length l)%nat.
Proof. unfold sql_limit. destruct (n <? 0)%Z; [lia | rewrite length_firstn; lia]. Qed.

Lemma sql_limit_small {A} (limit : nat) (l : list A) :
  (N.of_nat limit < 2 ^ 63)%N -> sql_limit (limit_as_i64 limit) l = firstn limit l.
Proof.
  intros H. assert (Hz : (0 <= Z.of_nat limit < 2 ^ 63)%Z) by lia.
  unfold sql_limit, limit_as_i64.
  rewrite Z.mod_small by lia.
  replace (Z.of_nat limit <? 2 ^ 63)%Z with true by (symmetry; apply Z.ltb_lt; lia).
  replace (Z.of_nat limit <? 0)%Z with false by (symmetry; apply Z.ltb_ge; lia).
  now rewrite Nat2Z.id.
Qed.

(** [search_content] with a query that has a word: when it succeeds, at
    most [limit] symbols (for a [limit] up to [i64::MAX]; never more than
    the stored rows), sorted by descending file boost, each matching every
    word ([LIKE '%w%'] on its content, name or doc) and of the requested
    kind. *)
Theorem search_content_results (query : string) (k : option SymbolKind) (limit : nat) (st : Store)
  (res : list Symbol) :
  split_whitespace query <> [] ->
  search_content query k limit st = Some res ->
  (List.length res <= List.length (symbols st))%nat /\
  ((N.of_nat limit < 2 ^ 63)%N -> (List.length res <= limit)%nat) /\
  Sorted (fun a b => get_file_boost (spath b) <= get_file_boost (spath a)) res /\
  (forall s, In s res ->
     (forall w, In w (split_whitespace query) ->
        Like.like ("%" ++ w ++ "%") (content s) || Like.like ("%" ++ w ++ "%") (sname s)
        || match doc s with Some d => Like.like ("%" ++ w ++ "%") d | None => false end = true) /\
     (forall k', k = Some k' -> skind s = k')).
Proof.
  intros Hw. unfold search_content.
  destruct (map (fun w => "%" ++ w ++ "%") (split_whitespace query)) as [|w0 ws] eqn:W.
  { apply map_eq_nil in W. contradiction. }
  rewrite <- W.
  destruct (Nat.ltb _ _); [discriminate|].
  destruct (existsb _ _); [discriminate|].
  destruct (existsb Like.pattern_too_long _).
  { intros E. injection E as <-. split; [simpl; lia|]. split; [simpl; lia|].
    split; [constructor | intros s []]. }
  intros E. injection E as <-.
  set (row_ok := fun r : SymbolRow => _).
  set (rows := filter row_ok (symbols st)).
  set (syms := filter_map row_to_symbol (sql_limit (limit_as_i64 limit) rows)).
  assert (Hp : Permutation (sort_by (fun a b => Qle_bool (get_file_boost (spath b)) (get_file_boost (spath a))) syms) syms)
    by apply sort_by_perm.
  split; [|split; [|split]].
  - rewrite (Permutation_length Hp). unfold syms.
    eapply Nat.le_trans; [apply filter_map_length_le|].
    eapply Nat.le_trans; [apply sql_limit_length|]. unfold rows. apply filter_length_le.
  - intros Hl. rewrite (Permutation_length Hp). unfold syms. rewrite sql_limit_small by exact Hl.
    eapply Nat.le_trans; [apply filter_map_length_le|]. rewrite length_firstn. lia.
  - eapply SemanticLinkerProofs.sorted_impl; [|apply sort_by_sorted, boost_le_total].
    intros a b H. now apply Qle_bool_iff.
  - intros s Hs. apply (Permutation_in _ Hp) in Hs. unfold syms in Hs.
    apply in_filter_map_inv in Hs as [r [Hr Hs]]. apply sql_limit_incl, filter_In in Hr as [_ Hok].
    apply row_to_symbol_fields in Hs as (_ & Hk & Hn & _ & _ & _ & Hd & _ & Hc).
    unfold row_ok in Hok. apply andb_true_iff in Hok as [Hall Hkind]. split.
    + intros w Hin. rewrite forallb_forall in Hall.
      specialize (Hall ("%" ++ w ++ "%")). rewrite Hn, Hd, Hc. apply Hall.
      apply in_map_iff. exists w. split; [reflexivity | exact Hin].
    + intros k' ->. apply String.eqb_eq in Hkind. rewrite Hkind, UriProofs.kind_from_as_str in Hk.
      congruence.
Qed.

Lemma ss_remove {A} (R : A -> A -> Prop) (l1 l2 : list A) (x : A) :
  StronglySorted R (app l1 (x :: l2)) -> StronglySorted R (app l1 l2).
Proof.
  induction l1 as [|a l1 IH]; simpl; intros H.
  - now inversion H.
  - inversion H as [|? ? H1 H2]; subst. constructor; [now apply IH|].
    apply Forall_app in H2 as [H2 H3]. inversion H3; subst. now apply Forall_app.
Qed.

Lemma ss_map {A B} (f : A -> B) (R : B -> B -> Prop) (l : list A) :
  StronglySorted (fun a b => R (f a) (f b)) l -> StronglySorted R (map f l).
Proof.
  induction l as [|a l IH]; simpl; intros H; constructor; inversion H; subst; [now apply IH|].
  now apply Forall_map.
Qed.

Lemma ss_unmap {A B} (f : A -> B) (R : B -> B -> Prop) (l : list A) :
  StronglySorted R (map f l) -> StronglySorted (fun a b => R (f a) (f b)) l.
Proof.
  induction l as [|a l IH]; simpl; intros H; constructor; inversion H; subst; [now apply IH|].
  now apply Forall_map.
Qed.

Definition vector_step (st : Store) (acc : option (list (Symbol * Q))) (p : string * Q)
  : option (list (Symbol * Q)) :=
  match acc with
  | None => None
  | Some out =>
      match Uri.parse (fst p) with
      | None => None
      | Some u =>
          match get_symbol u st with
          | None => None
          | Some None => Some out
          | Some (Some s) => Some (app out [(s, snd p)])
          end
      end
  end.

Lemma vector_fold_none st l : fold_left (vector_step st) l None = None.
Proof. induction l as [|p l IH]; simpl; [reflexivity | exact IH]. Qed.

Lemma vector_fold st (l : list (string * Q)) : forall out0 out,
  fold_left (vector_step st) l (Some out0) = Some out ->
  StronglySorted (fun a b => b <= a) (app (map snd out0) (map snd l)) ->
  (List.length out <= List.length out0 + List.length l)%nat /\ StronglySorted (fun a b => b <= a) (map snd out).
Proof.
  induction l as [|p l IH]; intros out0 out E H; cbn [fold_left] in E.
  - injection E as <-. rewrite app_nil_r in H. split; [lia | exact H].
  - unfold vector_step at 2 in E.
    destruct (Uri.parse (fst p)) as [u|]; [|now rewrite vector_fold_none in E].
    destruct (get_symbol u st) as [[s|]|]; [| |now rewrite vector_fold_none in E].
    + apply IH in E as [E1 E2].
      * rewrite length_app in E1. simpl in E1 |- *. split; [lia | exact E2].
      * rewrite map_app, <- app_assoc. exact H.
    + apply IH in E as [E1 E2]; [simpl; split; [lia | exact E2]|].
      exact (ss_remove _ _ _ _ H).
Qed.

Lemma score_le_total (a b : string * Q) :
  Qle_bool (snd b) (snd a) = false -> Qle_bool (snd a) (snd b) = true.
Proof.
  intros H. apply Qle_bool_iff. apply Qlt_le_weak, Qnot_le_lt. intros X. apply Qle_bool_iff in X. congruence.
Qed.

(** A successful [search_by_vector] returns at most [limit] symbols, with
    their scores in descending order. *)
Theorem search_by_vector_results (query_vector : list Q) (limit : nat) (st : Store)
  (res : list (Symbol * Q)) :
  search_by_vector query_vector limit st = Some res ->
  (List.length res <= limit)%nat /\ Sorted (fun a b => snd b <= snd a) res.
Proof.
  unfold search_by_vector. fold (vector_step st). intros E.
  set (results := sort_by _ (vector_candidates query_vector st)) in E.
  assert (Hs : StronglySorted (fun a b => Qle_bool (snd b) (snd a) = true) results).
  { apply Sorted_StronglySorted; [|apply sort_by_sorted, score_le_total].
    intros x y z H1 H2. apply Qle_bool_iff in H1, H2. apply Qle_bool_iff. eapply Qle_trans; eassumption. }
  assert (Hf : StronglySorted (fun a b => Qle_bool (snd b) (snd a) = true) (firstn limit results)).
  { rewrite <- (firstn_skipn limit results) in Hs. clear E. revert Hs.
    generalize (skipn limit results). generalize (firstn limit results). intros l1 l2 H.
    induction l2 as [|x l2 IH]; [now rewrite app_nil_r in H|]. apply IH. exact (ss_remove _ _ _ _ H). }
  apply vector_fold in E as [E1 E2].
  - split; [rewrite length_firstn in E1; simpl in E1; lia|].
    apply StronglySorted_Sorted. exact (ss_unmap snd (fun a b => b <= a) res E2).
  - simpl. apply ss_map. clear -Hf. induction Hf; constructor; [exact IHHf|].
    eapply Forall_impl; [|exact H]. intros b Hb. now apply Qle_bool_iff.
Qed.

(** What [search_content "def b" (Some Callable) 5] returns on [ab_store]. *)
Definition def_b_result : list Symbol :=
  match search_content "def b" (Some Callable) 5 ab_store with Some r => r | None => [] end.

Lemma search_content_results_witness :
  split_whitespace "def b" <> [] /\
  search_content "def b" (Some Callable) 5 ab_store = Some def_b_result /\
  def_b_result <> [] /\
  (List.length def_b_result <= List.length (symbols ab_store))%nat /\
  ((N.of_nat 5 < 2 ^ 63)%N -> (List.length def_b_result <= 5)%nat) /\
  Sorted (fun a b => get_file_boost (spath b) <= get_file_boost (spath a)) def_b_result /\
  (forall s, In s def_b_result ->
     (forall w, In w (split_whitespace "def b") ->
        Like.like ("%" ++ w ++ "%") (content s) || Like.like ("%" ++ w ++ "%") (sname s)
        || match doc s with Some d => Like.like ("%" ++ w ++ "%") d | None => false end = true) /\
     (forall k', Some Callable = Some k' -> skind s = k')).
Proof.
  assert (H : split_whitespace "def b" <> []) by (vm_compute; discriminate).
  assert (E : search_content "def b" (Some Callable) 5 ab_store = Some def_b_result)
    by (vm_compute; reflexivity).
  split; [exact H|]. split; [exact E|]. split; [vm_compute; discriminate|].
  exact (search_content_results "def b" (Some Callable) 5 _ _ H E).
Defined.

(** ** The symbol [a] with an embedding *)
Definition vec_store : Store := insert_embedding a_uri [1%Q; 0%Q] ab_store.

Definition vec_result : list (Symbol * Q) :=
  match search_by_vector [1%Q; 1%Q] 5 vec_store with Some r => r | None => [] end.

Lemma search_by_vector_results_witness :
  search_by_vector [1%Q; 1%Q] 5 vec_store = Some vec_result /\
  (List.length vec_result <= 5)%nat /\ Sorted (fun a b => snd b <= snd a) vec_result.
Proof.
  assert (H : search_by_vector [1%Q; 1%Q] 5 vec_store = Some vec_result) by (vm_compute; reflexivity).
  split; [exact H | exact (search_by_vector_results _ _ _ _ H)].
Defined.

End SearchProofs.

Module CosineProofs.
Import SemanticLinker.

Lemma dot_comm (a : list Q) : forall b z z', z == z' ->
  fold_left Qplus (map (fun p => fst p * snd p) (combine a b)) z
  == fold_left Qplus (map (fun p => fst p * snd p) (combine b a)) z'.
Proof.
  induction a as [|x a IH]; intros b z z' Hz; destruct b as [|y b]; simpl; try exact Hz.
  apply IH. rewrite Hz. ring.
Qed.

Lemma sum_sq_zero (a : list Q) : Forall (fun x => x == 0) a ->
  forall z, fold_left Qplus (map (fun x => x * x) a) z == z.
Proof.
  induction a as [|x a IH]; intros H z; simpl; [reflexivity|].
  inversion H as [|? ? Hx Ha]; subst. rewrite IH by exact Ha. rewrite Hx. ring.
Qed.

(** [Qsqrt q] is the square root of [q] up to [1 / (den * 2^64)]. *)
Lemma Qsqrt_bounds (q : Q) : 0 <= q ->
  Qsqrt q * Qsqrt q <= q /\
  q < (Qsqrt q + (1 # (Qden q * 2 ^ 64))) * (Qsqrt q + (1 # (Qden q * 2 ^ 64))).
Proof.
  intros Hq. unfold Qsqrt. rewrite Qred_correct.
  destruct q as [n d]. unfold Qle in Hq. simpl in Hq.
  assert (Hx : (0 <= n * Zpos d * 2 ^ 128)%Z) by (apply Z.mul_nonneg_nonneg; lia).
  destruct (Z.sqrt_spec _ Hx) as [H1 H2]. cbn [Qnum Qden].
  set (s := Z.sqrt (n * Zpos d * 2 ^ 128)) in *.
  unfold Qle, Qlt, Qplus, Qmult. cbn [Qnum Qden].
  rewrite !Pos2Z.inj_mul. change (Zpos (2 ^ 64)) with (2 ^ 64)%Z.
  split; nia.
Qed.

Lemma Qsqrt_zero (q : Q) : q == 0 -> Qeq_bool (Qsqrt q) 0 = true.
Proof.
  intros H. unfold Qeq in H. simpl in H. rewrite Z.mul_1_r in H.
  unfold Qsqrt. rewrite H. reflexivity.
Qed.

(** [cosine_similarity] is symmetric, and is 0 for vectors of different
    lengths, for the empty vector and for a zero vector. *)
Theorem cosine_similarity_props (a b : list Q) :
  cosine_similarity a b == cosine_similarity b a /\
  (List.length a <> List.length b -> cosine_similarity a b = 0) /\
  cosine_similarity [] b = 0 /\
  (Forall (fun x => x == 0) a -> cosine_similarity a b == 0).
Proof.
  split; [|split; [|split]].
  - unfold cosine_similarity.
    destruct (Nat.eqb_spec (List.length a) (List.length b)) as [E|E].
    + rewrite E, Nat.eqb_refl. simpl.
      destruct (Nat.eqb (List.length b) 0); simpl; [reflexivity|].
      rewrite (orb_comm (Qeq_bool (Qsqrt (sum_q (map (fun x => x * x) b))) 0)).
      destruct (_ || _); [reflexivity|].
      unfold sum_q at 1 3. rewrite (dot_comm a b 0 0) by reflexivity.
      rewrite (Qmult_comm (Qsqrt (sum_q (map (fun x => x * x) b)))). reflexivity.
    + assert (E' : Nat.eqb (List.length b) (List.length a) = false) by (apply Nat.eqb_neq; congruence).
      rewrite E'. reflexivity.
  - intros E. unfold cosine_similarity. apply Nat.eqb_neq in E. now rewrite E.
  - unfold cosine_similarity. simpl. now rewrite orb_true_r.
  - intros H. unfold cosine_similarity.
    destruct (negb _ || _); [reflexivity|].
    rewrite Qsqrt_zero; [reflexivity|]. unfold sum_q. now rewrite sum_sq_zero.
Qed.

End CosineProofs.

Module ChunkFileProofs.
Import Uri Store Chunker SymbolOps ChunkFile.
#[local] Open Scope nat_scope.

Lemma lines_go_nil (s : string) : forall cur, lines_go s cur = [] -> s = EmptyString /\ cur = EmptyString.
Proof.
  induction s as [|a r IH]; intros cur H; simpl in H.
  - split; [reflexivity|]. destruct (String.eqb_spec cur EmptyString); [exact e | discriminate].
  - destruct (Ascii.eqb a "010"%char); [discriminate|].
    apply IH in H as [_ H]. destruct cur; discriminate.
Qed.

(** A file no longer than [chunk_size] becomes, unless it is blank, one
    [document] symbol named after the file's base name, from line 1 to its
    line count, holding the whole content; a blank file gives no symbol. *)
Theorem chunk_file_small (c : DocumentChunker) (repo path content : string) :
  String.length content <= chunk_size c ->
  chunk_file c repo path content =
  if trim_is_empty content then []
  else [symbol_new repo path Document (RStr.basename path) 1
          (u32 (N.of_nat (List.length (lines content)))) content].
Proof.
  intros H. unfold chunk_file. destruct (trim_is_empty content) eqn:T; [reflexivity|].
  unfold split_into_chunks. destruct (lines content) as [|l ls] eqn:L.
  - apply lines_go_nil in L as [-> _]. discriminate.
  - apply Nat.leb_le in H. rewrite H. reflexivity.
Qed.

Lemma align_down_le (s : string) (i : nat) : align_down s i <= i.
Proof. induction i as [|j IH]; cbn [align_down]; [lia|]. destruct (is_char_boundary s (S j)); lia. Qed.

Lemma align_up_go_le (s : string) (f : nat) : forall i, i <= String.length s -> align_up_go s i f <= String.length s.
Proof.
  induction f as [|f IH]; intros i H; simpl; [exact H|].
  destruct (is_char_boundary s i || Nat.leb (String.length s) i) eqn:E; [exact H|].
  apply orb_false_iff in E as [_ E]. apply Nat.leb_gt in E. apply IH. lia.
Qed.

Lemma prefix_length (p s : string) : String.prefix p s = true -> String.length p <= String.length s.
Proof.
  revert s. induction p as [|a p IH]; intros s H; simpl; [lia|].
  destruct s as [|b s]; simpl in H; [discriminate|].
  destruct (ascii_dec a b); [|discriminate]. simpl. apply IH in H. lia.
Qed.

Lemma rfind_go_bound (pat s : string) : forall i last j,
  rfind_go pat s i last = Some j ->
  (forall j', last = Some j' -> j' + String.length pat <= i + String.length s) ->
  j + String.length pat <= i + String.length s.
Proof.
  induction s as [|a r IH]; intros i last j E H; cbn [rfind_go] in E.
  - destruct (String.prefix pat EmptyString) eqn:P.
    + injection E as <-. apply prefix_length in P. simpl in P. lia.
    + now apply H.
  - apply IH in E.
    + simpl. lia.
    + intros j' E'. destruct (String.prefix pat (String a r)) eqn:P.
      * injection E' as <-. apply prefix_length in P. simpl in P |- *. lia.
      * apply H in E'. simpl in E'. lia.
Qed.

Lemma rfind_bound (pat s : string) (pos : nat) :
  rfind pat s = Some pos -> pos + String.length pat <= String.length s.
Proof.
  unfold rfind. destruct (String.eqb_spec pat EmptyString) as [->|_].
  - intros E. injection E as <-. simpl. lia.
  - intros E. apply rfind_go_bound in E; [lia | discriminate].
Qed.

Lemma substring_length_le (s : string) : forall m n, String.length (substring m n s) <= n.
Proof.
  induction s as [|a s IH]; intros m n; destruct m as [|m], n as [|n]; simpl; try lia.
  - specialize (IH 0 n). lia.
  - apply IH.
  - apply IH.
Qed.

(** [find_break_point] never returns an index past the end of the
    content, so the slice [current_chunk[..break_at]] stays in bounds. *)
Theorem find_break_point_le (c : DocumentChunker) (content : string) :
  find_break_point c content <= String.length content.
Proof.
  unfold find_break_point.
  set (ss := align_down content (chunk_size c - 500)).
  set (es := align_up content (Nat.min (chunk_size c + 500) (String.length content))).
  assert (Hes : es <= String.length content) by (apply align_up_go_le; lia).
  destruct (Nat.leb (String.length content) ss) eqn:E; [lia|].
  set (area := substring ss (es - ss) content).
  assert (Ha : String.length area <= es - ss) by apply substring_length_le.
  destruct (rfind (nl ++ nl) area) as [pos|] eqn:R1.
  { apply rfind_bound in R1. simpl in R1. lia. }
  destruct (rfind nl area) as [pos|] eqn:R2.
  { apply rfind_bound in R2. simpl in R2. lia. }
  destruct (rfind " " area) as [pos|] eqn:R3.
  { apply rfind_bound in R3. simpl in R3. lia. }
  pose proof (align_down_le content (Nat.min (chunk_size c) (String.length content))). lia.
Qed.

Lemma chunk_file_small_witness :
  String.length "SELECT 1;" <= chunk_size Chunker.new /\
  chunk_file Chunker.new "r" "db/q.sql" "SELECT 1;" =
  if trim_is_empty "SELECT 1;" then []
  else [symbol_new "r" "db/q.sql" Document (RStr.basename "db/q.sql") 1
          (u32 (N.of_nat (List.length (lines "SELECT 1;")))) "SELECT 1;"].
Proof.
  assert (H : String.length "SELECT 1;" <= chunk_size Chunker.new) by (vm_compute; lia).
  split; [exact H | exact (chunk_file_small Chunker.new "r" "db/q.sql" "SELECT 1;" H)].
Defined.

End ChunkFileProofs.

Module ChunkNameProofs.
Import Uri Store Chunker SymbolOps ChunkFile RStrFacts U32Facts.
#[local] Open Scope nat_scope.
#[local] Open Scope string_scope.

Lemma lines_go_length (s : string) : forall cur, List.length (lines_go s cur) <= String.length s + 1.
Proof.
  induction s as [|a r IH]; intros cur; simpl.
  - destruct (String.eqb cur EmptyString); simpl; lia.
  - destruct (Ascii.eqb a "010"%char); simpl; [specialize (IH EmptyString) | specialize (IH (cur ++ String a EmptyString)%string)]; lia.
Qed.

Lemma chunk_step_count c idx line st :
  List.length (chunks (chunk_step c idx line st)) <= S (List.length (chunks st)).
Proof.
  unfold chunk_step. cbv zeta.
  generalize ((if String.eqb (current_chunk st) EmptyString then current_chunk st
               else current_chunk st ++ nl) ++ line) as cur. intros cur.
  destruct (Nat.leb (chunk_size c) (String.length cur)); [|simpl; lia].
  destruct (_ && _); simpl; rewrite length_app; simpl; lia.
Qed.

Lemma chunk_loop_count c ls : forall idx st,
  List.length (chunks (chunk_loop c idx ls st)) <= List.length (chunks st) + List.length ls.
Proof.
  induction ls as [|l ls IH]; intros idx st; simpl; [lia|].
  specialize (IH (S idx) (chunk_step c idx l st)). pose proof (chunk_step_count c idx l st). lia.
Qed.

Lemma split_into_chunks_count c content :
  List.length (split_into_chunks c content) <= String.length content + 2.
Proof.
  unfold split_into_chunks. pose proof (lines_go_length content EmptyString) as H.
  fold (lines content) in H. destruct (lines content) as [|l ls]; simpl; [lia|].
  destruct (Nat.leb _ _); simpl; [lia|].
  pose proof (chunk_loop_count c (l :: ls) 0 (mkLoop [] EmptyString 1 0)) as H2. simpl in H2, H.
  destruct (_ && _); [rewrite length_app; simpl|]; lia.
Qed.

Lemma show_usize_inj (n m : nat) :
  (N.of_nat n < 10 ^ 20)%N -> (N.of_nat m < 10 ^ 20)%N -> show_usize n = show_usize m -> n = m.
Proof.
  intros Hn Hm E. unfold show_usize in E.
  destruct (to_digits_value 20 (N.of_nat n) ltac:(lia) Hn) as [k Hk].
  destruct (to_digits_value 20 (N.of_nat m) ltac:(lia) Hm) as [k' Hk'].
  specialize (Hk 0%N). specialize (Hk' 0%N). rewrite E, Hk' in Hk. injection Hk as Hk. lia.
Qed.

Lemma append_cancel_l (a b c : string) : a ++ b = a ++ c -> b = c.
Proof. induction a as [|x a IH]; simpl; intros H; [exact H | injection H as H; exact (IH H)]. Qed.

Lemma chunk_symbols_names repo path total : forall cs idx,
  map sname (chunk_symbols repo path total idx cs) = map (chunk_name path total) (seq idx (List.length cs)).
Proof. induction cs as [|ch cs IH]; intros idx; simpl; [reflexivity|]. f_equal. apply IH. Qed.

Lemma chunk_symbols_uris repo path total : forall cs idx,
  map uri (chunk_symbols repo path total idx cs)
  = map (fun p => mkUri repo path Document (chunk_name path total (fst p)) (start_line (snd p)))
        (combine (seq idx (List.length cs)) cs).
Proof. induction cs as [|ch cs IH]; intros idx; simpl; [reflexivity|]. f_equal. apply IH. Qed.

Lemma nodup_map_inj_on {A B} (f : A -> B) (l : list A) :
  (forall x y, In x l -> In y l -> f x = f y -> x = y) -> NoDup l -> NoDup (map f l).
Proof.
  induction l as [|a l IH]; intros Hf H; simpl; constructor.
  - intros Hin. apply in_map_iff in Hin as [y [Ey Hy]]. inversion H; subst.
    assert (y = a) by (apply Hf; [right | left | ]; auto). subst. contradiction.
  - inversion H; subst. apply IH; [|assumption]. intros x y Hx Hy. apply Hf; right; assumption.
Qed.

Lemma nodup_combine_l {A B} (l : list A) : forall (m : list B), NoDup l -> NoDup (combine l m).
Proof.
  induction l as [|a l IH]; intros [|b m] H; simpl; try constructor.
  - intros Hin. apply in_combine_l in Hin. inversion H; contradiction.
  - apply IH. inversion H; assumption.
Qed.

Lemma combine_seq_fun {A} (l : list A) : forall k x a b,
  In (x, a) (combine (seq k (List.length l)) l) -> In (x, b) (combine (seq k (List.length l)) l) -> a = b.
Proof.
  induction l as [|c l IH]; intros k x a b Ha Hb; simpl in *; [contradiction|].
  destruct Ha as [Ha|Ha], Hb as [Hb|Hb].
  - congruence.
  - injection Ha as <- <-. apply in_combine_l, in_seq in Hb. lia.
  - injection Hb as <- <-. apply in_combine_l, in_seq in Ha. lia.
  - exact (IH (S k) x a b Ha Hb).
Qed.

Definition at_char : ascii := "@".

Lemma show_usize_no_at (n : nat) : RStr.has_char at_char (show_usize n) = false.
Proof. apply to_digits_no_char; [vm_compute; right; reflexivity | reflexivity]. Qed.

(** The symbols [chunk_file] makes for one file have pairwise distinct
    names and pairwise distinct URI strings (the [symbols] primary key),
    so storing them keeps every chunk: a single chunk is named after the
    file, several are numbered [#chunk_1], [#chunk_2], ... *)
Theorem chunk_file_distinct_uris (c : DocumentChunker) (repo path content : string) :
  (N.of_nat (String.length content) < 2 ^ 64)%N ->
  let syms := chunk_file c repo path content in
  NoDup (map sname syms) /\ NoDup (map (fun s => to_uri_string (uri s)) syms).
Proof.
  intros Hlen syms. subst syms. unfold chunk_file.
  destruct (trim_is_empty content); [split; constructor|].
  pose proof (split_into_chunks_count c content) as Hc.
  revert Hc. generalize (split_into_chunks c content) as cs. intros cs Hc.
  destruct (Nat.eqb_spec (List.length cs) 1) as [E1|E1].
  { destruct cs as [|ch [|ch' cs]]; simpl in E1; try discriminate.
    simpl. split; constructor; [intros []|constructor|intros []|constructor]. }
  assert (Hb : forall x, x < List.length cs -> (N.of_nat (S x) < 10 ^ 20)%N).
  { intros x Hx. assert (K : (2 ^ 64 + 3 < 10 ^ 20)%N) by reflexivity. lia. }
  assert (Hinj : forall x y, In x (seq 0 (List.length cs)) -> In y (seq 0 (List.length cs)) ->
            chunk_name path (List.length cs) x = chunk_name path (List.length cs) y -> x = y).
  { intros x y Hx Hy E. apply in_seq in Hx, Hy. unfold chunk_name in E.
    apply Nat.eqb_neq in E1. rewrite E1 in E.
    apply append_cancel_l in E. apply (append_cancel_l "#chunk_") in E.
    apply show_usize_inj in E; [lia | apply Hb; lia | apply Hb; lia]. }
  split.
  - rewrite chunk_symbols_names. apply nodup_map_inj_on; [exact Hinj | apply seq_NoDup].
  - rewrite <- map_map, chunk_symbols_uris, map_map.
    apply nodup_map_inj_on; [|apply nodup_combine_l, seq_NoDup].
    intros [x chx] [y chy] Hx Hy E. cbn [fst snd] in E.
    pose proof Hx as Cx. pose proof Hy as Cy.
    apply in_combine_l in Hx, Hy.
    unfold chunk_name in E. apply Nat.eqb_neq in E1. rewrite E1 in E.
    unfold to_uri_string in E. cbn [Uri.repo Uri.path Uri.kind Uri.name Uri.line] in E.
    do 7 apply append_cancel_l in E.
    rewrite !append_assoc_s in E.
    do 2 apply append_cancel_l in E.
    assert (Hs : forall n l, RStr.split_once at_char (show_usize n ++ String at_char l) = Some (show_usize n, l))
      by (intros; apply split_once_app, show_usize_no_at).
    pose proof (Hs (S x) (U32.show (start_line chx))) as Sx.
    change (String at_char (U32.show (start_line chx))) with ("@" ++ U32.show (start_line chx))%string in Sx.
    rewrite E in Sx.
    change ("@" ++ U32.show (start_line chy))%string with (String at_char (U32.show (start_line chy))) in Sx.
    rewrite Hs in Sx. injection Sx as Sx _.
    apply in_seq in Hx, Hy.
    apply show_usize_inj in Sx; [| apply Hb; lia | apply Hb; lia].
    injection Sx as ->. f_equal. exact (combine_seq_fun cs 0 _ chx chy Cx Cy).
Qed.
(** ** A 12-line document, cut into several chunks *)
Definition sample_doc : string :=
  "Line 0 with some content here
Line 1 with some content here
Line 2 with some content here
Line 3 with some content here
Line 4 with some content here
Line 5 with some content here
Line 6 with some content here
Line 7 with some content here
Line 8 with some content here
Line 9 with some content here
Line 10 with some content here
Line 11 with some content here
".

Lemma chunk_file_distinct_uris_witness :
  (N.of_nat (String.length sample_doc) < 2 ^ 64)%N /\
  (let syms := chunk_file (with_settings 100 20) "r" "db/q.sql" sample_doc in
   NoDup (map sname syms) /\ NoDup (map (fun s => to_uri_string (uri s)) syms)).
Proof.
  assert (H : (N.of_nat (String.length sample_doc) < 2 ^ 64)%N) by (vm_compute; reflexivity).
  split; [exact H | exact (chunk_file_distinct_uris (with_settings 100 20) "r" "db/q.sql" sample_doc H)].
Defined.

End ChunkNameProofs.
